(** * Nebula certificates, version 1: codec, signing and verification

    A shallow embedding of [cert/cert_v1.go] and [cert/sign.go].

    - Go integers are [Z] with their range written out; bytes are
      [Byte.byte]; Go strings are [string].
    - A Go slice is a reference to its backing array in a store
      ([World]); the source never re-slices, so a slice is either [nil]
      or a whole array.  Structs reached through a pointer receiver
      ([*TBSCertificate], [*certificateV1]) are passed in and handed
      back.
    - A call returns [Ok v], [Err e] (the Go [error] result) or
      [Panic msg] (a run-time panic).
    - Code outside the two files (protobuf, the crypto packages, the
      version 2 certificate, the CA constraint check) is a parameter,
      bundled in type classes. *)

From Stdlib Require Import ZArith Lia Strings.Byte String Ascii List.
From stdpp Require Import base option list gmap sorting strings.

Local Open Scope Z_scope.

(** ** Bytes and fixed-width integers *)

Abbreviation bytes := (list byte).

Definition byte_to_Z (b : byte) : Z := Z.of_N (Byte.to_N b).

(** Go's conversion [byte(x)]: the low eight bits. *)
Definition byte_of_Z (z : Z) : byte :=
  default x00 (Byte.of_N (Z.to_N (z mod 256))).

Definition uint32_ok (z : Z) : Prop := 0 <= z < 2 ^ 32.
Definition int32_ok (z : Z) : Prop := - 2 ^ 31 <= z < 2 ^ 31.
Definition int64_ok (z : Z) : Prop := - 2 ^ 63 <= z < 2 ^ 63.

(** Two's complement wrap-around of a 64-bit signed integer. *)
Definition wrap_int64 (z : Z) : Z := (z + 2 ^ 63) mod 2 ^ 64 - 2 ^ 63.

#[global] Instance byte_eq_dec : EqDecision byte := Byte.byte_eq_dec.

(** ** Errors and results *)

Inductive error : Type :=
  | Errorf (format : string)
      (** [fmt.Errorf] with a constant message *)
  | ErrorfInt (format : string) (arg : Z)
      (** [fmt.Errorf] with one [%s] or [%d] argument, a [Curve] or a
          [Version] *)
  | ErrorfErr (format : string) (arg : error)
      (** [fmt.Errorf] with one [%w] or [%v] argument, an error *)
  | LibError (pkg : string) (msg : string).
      (** an error value made by a package outside this one *)

Inductive result (A : Type) : Type :=
  | Ok (a : A)
  | Err (e : error)
  | Panic (msg : string).
Arguments Ok {A} a.
Arguments Err {A} e.
Arguments Panic {A} msg.

#[global] Instance result_ret : MRet result := fun _ a => Ok a.
#[global] Instance result_bind : MBind result := fun _ _ f m =>
  match m with
  | Ok a => f a
  | Err e => Err e
  | Panic msg => Panic msg
  end.

Definition is_Ok {A} (r : result A) : Prop := ∃ a, r = Ok a.

(** ** [encoding/binary], big endian *)

(** [binary.BigEndian.Uint32(b)]: reads [b[0..3]], panics on a shorter
    slice. *)
Definition Uint32 (b : bytes) : result Z :=
  match b with
  | b0 :: b1 :: b2 :: b3 :: _ =>
      Ok (Z.lor (Z.lor (Z.lor (Z.shiftl (byte_to_Z b0) 24)
                              (Z.shiftl (byte_to_Z b1) 16))
                       (Z.shiftl (byte_to_Z b2) 8))
                (byte_to_Z b3))
  | _ => Panic "index out of range"
  end.

(** [binary.BigEndian.PutUint32] into a fresh four byte array. *)
Definition PutUint32 (nn : Z) : bytes :=
  [ byte_of_Z (Z.shiftr nn 24); byte_of_Z (Z.shiftr nn 16);
    byte_of_Z (Z.shiftr nn 8); byte_of_Z nn ].

(** ** [encoding/hex] *)

Definition hextable (n : Z) : ascii :=
  ascii_of_N (Z.to_N (if n <? 10 then 48 + n else 87 + n)).

Fixpoint EncodeToString (src : bytes) : string :=
  match src with
  | [] => EmptyString
  | v :: rest =>
      String (hextable (Z.shiftr (byte_to_Z v) 4))
        (String (hextable (Z.land (byte_to_Z v) 15)) (EncodeToString rest))
  end.

(** [reverseHexTable]: the value of a hexadecimal digit, of either case. *)
Definition fromHexChar (c : ascii) : option Z :=
  let n := Z.of_N (N_of_ascii c) in
  if (48 <=? n) && (n <=? 57) then Some (n - 48)
  else if (97 <=? n) && (n <=? 102) then Some (n - 87)
  else if (65 <=? n) && (n <=? 70) then Some (n - 55)
  else None.

(** [hex.DecodeString]: the bytes decoded before the first defect, and
    whether there was one. *)
Fixpoint DecodeString (s : string) : bytes * bool :=
  match s with
  | EmptyString => ([], true)
  | String p EmptyString => ([], false)
  | String p (String q rest) =>
      match fromHexChar p, fromHexChar q with
      | Some a, Some b =>
          let '(out, ok) := DecodeString rest in
          (byte_of_Z (Z.lor (Z.shiftl a 4) b) :: out, ok)
      | _, _ => ([], false)
      end
  end.

(** ** [time] *)

(** A [time.Time] as an instant: seconds since the Unix epoch and the
    nanoseconds within the second (the monotonic clock reading and the
    location are left out).  Go keeps the seconds since year 1 in an
    [int64]; [unixSec] is that count less [unixToInternal]. *)
Record Time : Type := mkTime { unixSec : Z; nsec : Z }.

(** [t.Unix()], an [int64]. *)
Definition Unix (t : Time) : Z := wrap_int64 (unixSec t).

(** [unixToInternal]: the seconds from the first of January of year 1,
    from which Go counts the seconds of a [time.Time], to the Unix
    epoch. *)
Definition unixToInternal : Z := 62135596800.

(** [time.Unix(sec, 0)]: Go keeps [sec + unixToInternal] in an [int64],
    which wraps around for a [sec] within [unixToInternal] of the
    largest [int64]. *)
Definition time_Unix (sec : Z) : Time :=
  mkTime (wrap_int64 (sec + unixToInternal) - unixToInternal) 0.

(** [t.After(u)] and [t.Before(u)] *)
Definition After (t u : Time) : bool :=
  (unixSec u <? unixSec t) || ((unixSec t =? unixSec u) && (nsec u <? nsec t)).
Definition Before (t u : Time) : bool :=
  (unixSec t <? unixSec u) || ((unixSec t =? unixSec u) && (nsec t <? nsec u)).

(** The order of instants. *)
Definition time_lt (t u : Time) : Prop :=
  unixSec t < unixSec u ∨ (unixSec t = unixSec u ∧ nsec t < nsec u).
Definition time_le (t u : Time) : Prop := time_lt t u ∨ t = u.

(** [t.Add(d)] for a whole number of seconds. *)
Definition AddSeconds (t : Time) (d : Z) : Time := mkTime (unixSec t + d) (nsec t).

(** ** [net/netip] *)

(** A [netip.Addr]: the zero value, an IPv4 address, or an IPv6 address
    (two 64-bit halves) with its zone.  [addr_hi] and [addr_lo] give
    the 128-bit value Go stores, in which an IPv4 address sits behind
    the [::ffff:0:0/96] prefix. *)
Inductive Addr : Type :=
  | AddrZero
  | Addr4 (b0 b1 b2 b3 : byte)
  | Addr6 (hi lo : Z) (zone : string).

Definition be32 (b0 b1 b2 b3 : byte) : Z :=
  Z.lor (Z.lor (Z.lor (Z.shiftl (byte_to_Z b0) 24) (Z.shiftl (byte_to_Z b1) 16))
               (Z.shiftl (byte_to_Z b2) 8))
        (byte_to_Z b3).

Definition addr_hi (ip : Addr) : Z :=
  match ip with Addr6 hi _ _ => hi | _ => 0 end.
Definition addr_lo (ip : Addr) : Z :=
  match ip with
  | AddrZero => 0
  | Addr4 b0 b1 b2 b3 => Z.lor 0xffff00000000 (be32 b0 b1 b2 b3)
  | Addr6 _ lo _ => lo
  end.

Definition BitLen (ip : Addr) : Z :=
  match ip with AddrZero => 0 | Addr4 _ _ _ _ => 32 | Addr6 _ _ _ => 128 end.

Definition Is4 (ip : Addr) : bool :=
  match ip with Addr4 _ _ _ _ => true | _ => false end.
Definition Is6 (ip : Addr) : bool :=
  match ip with Addr6 _ _ _ => true | _ => false end.
Definition isZero (ip : Addr) : bool :=
  match ip with AddrZero => true | _ => false end.
Definition Zone (ip : Addr) : string :=
  match ip with Addr6 _ _ z => z | _ => EmptyString end.

(** [ip.Is4In6()]: an IPv4-mapped IPv6 address. *)
Definition Is4In6 (ip : Addr) : bool :=
  Is6 ip && (addr_hi ip =? 0) && (Z.shiftr (addr_lo ip) 32 =? 0xffff).

(** The four bytes of [uint32(ip.addr.lo)]. *)
Definition low4 (ip : Addr) : bytes := PutUint32 (addr_lo ip mod 2 ^ 32).

Definition AddrFrom4 (b : bytes) : Addr :=
  match b with
  | [b0; b1; b2; b3] => Addr4 b0 b1 b2 b3
  | _ => AddrZero
  end.

(** [ip.Unmap()] *)
Definition Unmap (ip : Addr) : Addr :=
  if Is4In6 ip then AddrFrom4 (low4 ip) else ip.

(** [ip.As4()]: panics on the zero value and on an IPv6 address that is
    not IPv4-mapped. *)
Definition As4 (ip : Addr) : result bytes :=
  if Is4 ip || Is4In6 ip then Ok (low4 ip)
  else if isZero ip then Panic "As4 called on IP zero value"
  else Panic "As4 called on IPv6 address".

Definition withoutZone (ip : Addr) : Addr :=
  match ip with Addr6 hi lo _ => Addr6 hi lo EmptyString | _ => ip end.

Definition compare_to_Z (c : comparison) : Z :=
  match c with Lt => -1 | Eq => 0 | Gt => 1 end.

(** [ip.Compare(ip2)] *)
Definition Compare (ip ip2 : Addr) : Z :=
  let f1 := BitLen ip in
  let f2 := BitLen ip2 in
  if f1 <? f2 then -1 else
  if f2 <? f1 then 1 else
  if addr_hi ip <? addr_hi ip2 then -1 else
  if addr_hi ip2 <? addr_hi ip then 1 else
  if addr_lo ip <? addr_lo ip2 then -1 else
  if addr_lo ip2 <? addr_lo ip then 1 else
  if Is6 ip then compare_to_Z (String.compare (Zone ip) (Zone ip2))
  else 0.

(** The sign of [Compare], as a three-way comparison (used to reason
    about the order). *)
Definition compareAddr (a b : Addr) : comparison :=
  match BitLen a ?= BitLen b with
  | Eq =>
      match addr_hi a ?= addr_hi b with
      | Eq =>
          match addr_lo a ?= addr_lo b with
          | Eq => if Is6 a then String.compare (Zone a) (Zone b) else Eq
          | c => c
          end
      | c => c
      end
  | c => c
  end.

(** A [netip.Prefix]: an address and the prefix length plus one, zero
    when the prefix is invalid. *)
Record Prefix : Type := mkPrefix { ip : Addr; bitsPlusOne : Z }.

Definition Prefix_Addr (p : Prefix) : Addr := ip p.
Definition Bits (p : Prefix) : Z := bitsPlusOne p - 1.

(** [netip.PrefixFrom(ip, bits)] *)
Definition PrefixFrom (ip : Addr) (bits : Z) : Prefix :=
  let bitsPlusOne :=
    if negb (isZero ip) && (0 <=? bits) && (bits <=? BitLen ip)
    then bits + 1 else 0 in
  mkPrefix (withoutZone ip) bitsPlusOne.

(** The zero [netip.Prefix], the element [make] fills a slice with. *)
Definition zeroPrefix : Prefix := mkPrefix AddrZero 0.

(** ** [net]: masks *)

(** The loop of [net.CIDRMask]. *)
Fixpoint CIDRMask_loop (l : nat) (n : Z) : bytes :=
  match l with
  | O => []
  | S l' =>
      if 8 <=? n then xff :: CIDRMask_loop l' (n - 8)
      else byte_of_Z (Z.lxor 0xff (Z.shiftr 0xff n)) :: CIDRMask_loop l' 0
  end.

(** [net.CIDRMask(ones, bits)]; the [nil] mask is the empty list. *)
Definition CIDRMask (ones bits : Z) : bytes :=
  if negb (bits =? 32) && negb (bits =? 128) then []
  else if (ones <? 0) || (bits <? ones) then []
  else CIDRMask_loop (Z.to_nat (bits / 8)) ones.

(** The inner loop of [simpleMaskLength]: count and shift out the
    leading one bits of a byte that is not [0xff]. *)
Fixpoint leadingOnes (fuel : nat) (v n : Z) : Z * Z :=
  match fuel with
  | O => (v, n)
  | S fuel' =>
      if Z.land v 0x80 =? 0 then (v, n)
      else leadingOnes fuel' (Z.shiftl v 1 mod 256) (n + 1)
  end.

Fixpoint simpleMaskLength_from (mask : bytes) (n : Z) : Z :=
  match mask with
  | [] => n
  | v :: rest =>
      if byte_to_Z v =? 0xff then simpleMaskLength_from rest (n + 8)
      else
        let '(v', n') := leadingOnes 8 (byte_to_Z v) n in
        if negb (v' =? 0) then -1
        else if forallb (fun b => byte_to_Z b =? 0) rest then n' else -1
  end.

Definition simpleMaskLength (mask : bytes) : Z := simpleMaskLength_from mask 0.

(** [m.Size()] *)
Definition Size (m : bytes) : Z * Z :=
  let ones := simpleMaskLength m in
  let bits := Z.of_nat (length m) * 8 in
  if ones =? -1 then (0, 0) else (ones, bits).

(** ** The address conversions of [cert_v1.go] *)

Definition ip2int (ip : bytes) : result Z :=
  if Z.of_nat (length ip) =? 16 then Uint32 (drop 12 ip) else Uint32 ip.

Definition int2ip (nn : Z) : bytes := PutUint32 nn.

Definition addr2int (addr : Addr) : result Z :=
  b ← As4 (Unmap addr); Uint32 b.

Definition int2addr (nn : Z) : Addr := Unmap (AddrFrom4 (PutUint32 nn)).

(** ** The store: backing arrays of slices *)

Abbreviation loc := positive.

(** A slice of [T]: [nil], or the whole of the backing array at a
    location. *)
Inductive slice (T : Type) : Type :=
  | nilSlice
  | sliceAt (l : loc).
Arguments nilSlice {T}.
Arguments sliceAt {T} l.

#[global] Instance slice_eq_dec {T} : EqDecision (slice T).
Proof. solve_decision. Defined.

(** The arrays of each element type the package uses, and the inputs on
    which a signer predicate has been invoked so far (latest first). *)
Record World : Type := mkWorld {
  prefixArrays : gmap loc (list Prefix);
  stringArrays : gmap loc (list string);
  byteArrays : gmap loc bytes;
  signerCalls : list bytes
}.

Definition load {T} (m : gmap loc (list T)) (s : slice T) : list T :=
  match s with
  | nilSlice => []
  | sliceAt l => default [] (m !! l)
  end.

(** Overwrite the elements of a slice; the length of a slice is fixed,
    and there is nothing to write through [nil]. *)
Definition save {T} (m : gmap loc (list T)) (s : slice T) (v : list T)
  : gmap loc (list T) :=
  match s with
  | nilSlice => m
  | sliceAt l => if decide (is_Some (m !! l)) then <[l := v]> m else m
  end.

Definition alloc {T} (m : gmap loc (list T)) (v : list T)
  : slice T * gmap loc (list T) :=
  let l := fresh (dom m) in (sliceAt l, <[l := v]> m).

(** What [copy(dst, src)] leaves in [dst]. *)
Definition copied {T} (dst src : list T) : list T :=
  take (length dst) src ++ drop (length src) dst.

Definition loadPrefixes (w : World) (s : slice Prefix) : list Prefix :=
  load (prefixArrays w) s.
Definition loadStrings (w : World) (s : slice string) : list string :=
  load (stringArrays w) s.
Definition loadBytes (w : World) (s : slice byte) : bytes :=
  load (byteArrays w) s.

Definition savePrefixes (w : World) (s : slice Prefix) (v : list Prefix) : World :=
  mkWorld (save (prefixArrays w) s v) (stringArrays w) (byteArrays w) (signerCalls w).
Definition saveBytes (w : World) (s : slice byte) (v : bytes) : World :=
  mkWorld (prefixArrays w) (stringArrays w) (save (byteArrays w) s v) (signerCalls w).

Definition allocPrefixes (w : World) (v : list Prefix) : slice Prefix * World :=
  let '(s, m) := alloc (prefixArrays w) v in
  (s, mkWorld m (stringArrays w) (byteArrays w) (signerCalls w)).
Definition allocStrings (w : World) (v : list string) : slice string * World :=
  let '(s, m) := alloc (stringArrays w) v in
  (s, mkWorld (prefixArrays w) m (byteArrays w) (signerCalls w)).
Definition allocBytes (w : World) (v : bytes) : slice byte * World :=
  let '(s, m) := alloc (byteArrays w) v in
  (s, mkWorld (prefixArrays w) (stringArrays w) m (signerCalls w)).

Definition logSignerCall (w : World) (b : bytes) : World :=
  mkWorld (prefixArrays w) (stringArrays w) (byteArrays w) (b :: signerCalls w).

(** [s[i] = v] on a byte slice, for the caller of the package. *)
Definition setByte (w : World) (s : slice byte) (i : nat) (v : byte) : World :=
  saveBytes w s (<[i := v]> (loadBytes w s)).
(** [s[i] = v] on a slice of prefixes. *)
Definition setPrefix (w : World) (s : slice Prefix) (i : nat) (v : Prefix) : World :=
  savePrefixes w s (<[i := v]> (loadPrefixes w s)).

(** ** The data model *)

(** The enumerations of the generated code; only the distinctness of
    their values matters below. *)
Abbreviation Curve := Z (only parsing).
Definition Curve_CURVE25519 : Curve := 0.
Definition Curve_P256 : Curve := 1.

Abbreviation Version := Z (only parsing).
Definition Version1 : Version := 1.
Definition Version2 : Version := 2.

Record detailsV1 : Type := mkDetailsV1 {
  name : string;
  networks : slice Prefix;
  unsafeNetworks : slice Prefix;
  groups : slice string;
  notBefore : Time;
  notAfter : Time;
  publicKey : slice byte;
  isCA : bool;
  issuer : string;
  curve : Curve
}.

Record certificateV1 : Type := mkCertificateV1 {
  details : detailsV1;
  signature : slice byte
}.

(** [TBSCertificate] of [sign.go]; [issuer] is its unexported field. *)
Module TBS.
Record t : Type := mk {
  Version : Version;
  Name : string;
  Networks : slice Prefix;
  UnsafeNetworks : slice Prefix;
  Groups : slice string;
  IsCA : bool;
  NotBefore : Time;
  NotAfter : Time;
  PublicKey : slice byte;
  Curve : Curve;
  issuer : string
}.
Definition set_issuer (x : t) (i : string) : t :=
  mk (Version x) (Name x) (Networks x) (UnsafeNetworks x) (Groups x) (IsCA x)
     (NotBefore x) (NotAfter x) (PublicKey x) (Curve x) i.
End TBS.
Abbreviation TBSCertificate := TBS.t.

(** Modelled from the spec: the protobuf messages of the binary
    certificate envelope.  Their generated declarations are not among
    the sources; the fields are those [cert_v1.go] reads and writes,
    at the Go types it uses them with ([uint32] pairs, [int64] Unix
    seconds, an [int32] enumeration for the curve). *)
Module pb.
Record RawNebulaCertificateDetails : Type := mkDetails {
  Name : string;
  Ips : list Z;
  Subnets : list Z;
  Groups : list string;
  NotBefore : Z;
  NotAfter : Z;
  PublicKey : bytes;
  IsCA : bool;
  Issuer : bytes;
  Curve : Z
}.
Record RawNebulaCertificate : Type := mkCertificate {
  Details : option RawNebulaCertificateDetails;
  Signature : bytes
}.
(** The values a decoded message can hold at its Go types. *)
Definition details_ok (d : RawNebulaCertificateDetails) : Prop :=
  Forall uint32_ok (Ips d) ∧ Forall uint32_ok (Subnets d) ∧
  int64_ok (NotBefore d) ∧ int64_ok (NotAfter d) ∧ int32_ok (Curve d).
Definition certificate_ok (rc : RawNebulaCertificate) : Prop :=
  match Details rc with Some d => details_ok d | None => True end.
End pb.

(** ** What the package calls into *)

(** [proto.Marshal] on the two messages and [proto.Unmarshal] into a
    zero [RawNebulaCertificate]. *)
Class ProtoCodec : Type := {
  proto_Marshal_details : pb.RawNebulaCertificateDetails → result bytes;
  proto_Marshal : pb.RawNebulaCertificate → result bytes;
  proto_Unmarshal : bytes → result pb.RawNebulaCertificate
}.

(** The part of the protobuf contract the codec relies on: a decoded
    message holds values of its field types, what was marshalled
    unmarshals to itself, and a message with a details section does not
    marshal to the empty string. *)
Record ProtoLaws (P : ProtoCodec) : Prop := {
  unmarshal_ok : ∀ b rc, proto_Unmarshal b = Ok rc → pb.certificate_ok rc;
  unmarshal_marshal : ∀ rc b,
    pb.certificate_ok rc → proto_Marshal rc = Ok b → proto_Unmarshal b = Ok rc;
  marshal_nonempty : ∀ rc b,
    proto_Marshal rc = Ok b → is_Some (pb.Details rc) → b ≠ []
}.

(** What a call into another package returns when it cannot panic:
    a value, or an error of that package's making. *)
Inductive lib (A : Type) : Type :=
  | Done (a : A)
  | Failed (msg : string).
Arguments Done {A} a.
Arguments Failed {A} msg.

Definition fromLib {A} (pkg : string) (r : lib A) : result A :=
  match r with
  | Done a => Ok a
  | Failed msg => Err (LibError pkg msg)
  end.

(** The primitives of [crypto/sha256], [crypto/ed25519], [crypto/ecdsa],
    [crypto/ecdh] and [x/crypto/curve25519] the package uses. *)
Class Crypto : Type := {
  sha256_Sum256 : bytes → bytes;
  (** [ed25519.Sign(key, message)] *)
  ed25519_Sign : bytes → bytes → result bytes;
  (** [ecdsa.SignASN1(rand.Reader, signer, hash)] for the key [signer]
      is built from *)
  ecdsa_SignASN1 : bytes → bytes → result bytes;
  (** [curve25519.X25519(key, curve25519.Basepoint)] *)
  X25519_Basepoint : bytes → lib bytes;
  (** [ecdh.P256().NewPrivateKey(key)] followed by
      [PublicKey().Bytes()] *)
  P256_PublicKey : bytes → lib bytes
}.

(** [ed25519.PrivateKeySize] *)
Definition ed25519_PrivateKeySize : Z := 64.

(** [ed25519.PrivateKey(key).Public()]: the second half of the key. *)
Definition ed25519_Public (key : bytes) : bytes := drop 32 key.

(** The version 2 certificate and the CA constraint check belong to the
    package but not to the two files; they are used through the
    [beingSignedCertificate] and [Certificate] interfaces only. *)
Class Collaborators : Type := {
  certificateV2 : Type;
  v2_fromTBSCertificate : TBSCertificate → result certificateV2;
  v2_marshalForSigning : World → certificateV2 → result bytes;
  v2_setSignature : certificateV2 → slice byte → result certificateV2;
  v2_Fingerprint : World → certificateV2 → result string;
  (** [checkCAConstraints(signer, notBefore, notAfter, groups, networks,
      unsafeNetworks)], with the signer as a [Certificate] of either
      version; [None] is the [nil] error *)
  checkCAConstraints :
    World → certificateV1 + certificateV2 → Time → Time →
    slice string → slice Prefix → slice Prefix → option error
}.

(** [pkclient.PKClient]: the handle of a hardware token. *)
Record PKClient : Type := mkPKClient { SignASN1 : bytes → result bytes }.

Abbreviation SignerPredicate := (bytes → result bytes).

Section Cert.
Context {PC : ProtoCodec} {CR : Crypto} {CO : Collaborators}.

(** The [Certificate] interface, implemented by the two versions. *)
Inductive Certificate : Type :=
  | CertV1 (c : certificateV1)
  | CertV2 (c : certificateV2).

Definition asSum (s : Certificate) : certificateV1 + certificateV2 :=
  match s with CertV1 c => inl c | CertV2 c => inr c end.

(** *** [cert_v1.go] *)

Definition Expired (c : certificateV1) (t : Time) : bool :=
  After (notBefore (details c)) t || Before (notAfter (details c)) t.

(** One of the two loops of [getRawDetails]: append the address and the
    mask of every network, in order. *)
Fixpoint appendNetworks (acc : list Z) (nets : list Prefix) : result (list Z) :=
  match nets with
  | [] => Ok acc
  | ipNet :: rest =>
      let mask := CIDRMask (Bits ipNet) (BitLen (Prefix_Addr ipNet)) in
      a ← addr2int (Prefix_Addr ipNet);
      m ← ip2int mask;
      appendNetworks (acc ++ [a; m]) rest
  end.

Definition getRawDetails (w : World) (c : certificateV1)
  : result pb.RawNebulaCertificateDetails :=
  let d := details c in
  let pk := loadBytes w (publicKey d) in
  ips ← appendNetworks [] (loadPrefixes w (networks d));
  subnets ← appendNetworks [] (loadPrefixes w (unsafeNetworks d));
  Ok {| pb.Name := name d;
        pb.Ips := ips;
        pb.Subnets := subnets;
        pb.Groups := loadStrings w (groups d);
        pb.NotBefore := Unix (notBefore d);
        pb.NotAfter := Unix (notAfter d);
        pb.PublicKey := copied (replicate (length pk) x00) pk;
        pb.IsCA := isCA d;
        pb.Issuer := fst (DecodeString (issuer d));
        pb.Curve := curve d |}.

Definition Marshal (w : World) (c : certificateV1) : result bytes :=
  rd ← getRawDetails w c;
  proto_Marshal {| pb.Details := Some rd;
                   pb.Signature := loadBytes w (signature c) |}.

Definition Fingerprint (w : World) (c : certificateV1) : result string :=
  b ← Marshal w c;
  Ok (EncodeToString (sha256_Sum256 b)).

Definition set_publicKey (c : certificateV1) (pk : slice byte) : certificateV1 :=
  let d := details c in
  mkCertificateV1
    (mkDetailsV1 (name d) (networks d) (unsafeNetworks d) (groups d)
       (notBefore d) (notAfter d) pk (isCA d) (issuer d) (curve d))
    (signature c).

(** Returns the result and the receiver as the call leaves it. *)
Definition MarshalForHandshakes (w : World) (c : certificateV1)
  : result bytes * certificateV1 :=
  let pubKey := publicKey (details c) in
  let c := set_publicKey c nilSlice in
  match Marshal w c with
  | Ok rawCertNoKey => (Ok rawCertNoKey, set_publicKey c pubKey)
  | Err err => (Err err, c)
  | Panic msg => (Panic msg, c)
  end.

Definition fromTBSCertificate (t : TBSCertificate) : result certificateV1 :=
  Ok (mkCertificateV1
        {| name := TBS.Name t;
           networks := TBS.Networks t;
           unsafeNetworks := TBS.UnsafeNetworks t;
           groups := TBS.Groups t;
           notBefore := TBS.NotBefore t;
           notAfter := TBS.NotAfter t;
           publicKey := TBS.PublicKey t;
           isCA := TBS.IsCA t;
           curve := TBS.Curve t;
           issuer := TBS.issuer t |}
        nilSlice).

Definition marshalForSigning (w : World) (c : certificateV1) : result bytes :=
  rd ← getRawDetails w c;
  proto_Marshal_details rd.

Definition setSignature (c : certificateV1) (b : slice byte) : result certificateV1 :=
  Ok (mkCertificateV1 (details c) b).

(** The decoding loop of [unmarshalCertificateV1] over the flattened
    pairs: an even index sets [ip], an odd index stores the prefix at
    [i/2]. *)
Fixpoint decodeNetworks (i : nat) (raw : list Z) (ip : Addr) (nets : list Prefix)
  : list Prefix * Addr :=
  match raw with
  | [] => (nets, ip)
  | rawIp :: rest =>
      if Nat.even i then decodeNetworks (S i) rest (int2addr rawIp) nets
      else
        let '(ones, _) := Size (int2ip rawIp) in
        decodeNetworks (S i) rest ip (<[Nat.div i 2 := PrefixFrom ip ones]> nets)
  end.

Definition unmarshalCertificateV1 (b : bytes) (publicKey : slice byte) (w : World)
  : result certificateV1 * World :=
  (* [len(publicKey)], a property of the slice the caller passes *)
  let len_publicKey := length (loadBytes w publicKey) in
  if Nat.eqb (length b) 0 then (Err (Errorf "nil byte array"), w) else
  match proto_Unmarshal b with
  | Err err => (Err err, w)
  | Panic msg => (Panic msg, w)
  | Ok rc =>
  match pb.Details rc with
  | None => (Err (Errorf "encoded Details was nil"), w)
  | Some rd =>
  if negb (Nat.eqb (length (pb.Ips rd) mod 2) 0) then
    (Err (Errorf "encoded IPs should be in pairs, an odd number was found"), w)
  else if negb (Nat.eqb (length (pb.Subnets rd) mod 2) 0) then
    (Err (Errorf "encoded Subnets should be in pairs, an odd number was found"), w)
  else
    let '(nc_groups, w) :=
      allocStrings w (replicate (length (pb.Groups rd)) EmptyString) in
    let '(nc_networks, w) :=
      allocPrefixes w (replicate (Nat.div (length (pb.Ips rd)) 2) zeroPrefix) in
    let '(nc_unsafeNetworks, w) :=
      allocPrefixes w (replicate (Nat.div (length (pb.Subnets rd)) 2) zeroPrefix) in
    let '(nc_publicKey, w) :=
      allocBytes w (replicate (length (pb.PublicKey rd)) x00) in
    let '(nc_signature, w) :=
      allocBytes w (replicate (length (pb.Signature rc)) x00) in
    let w := saveBytes w nc_signature
               (copied (loadBytes w nc_signature) (pb.Signature rc)) in
    let w := mkWorld (prefixArrays w)
               (save (stringArrays w) nc_groups
                  (copied (loadStrings w nc_groups) (pb.Groups rd)))
               (byteArrays w) (signerCalls w) in
    let nc_issuer := EncodeToString (pb.Issuer rd) in
    let nc_publicKey :=
      if Nat.ltb 0 len_publicKey then publicKey else nc_publicKey in
    let w := saveBytes w nc_publicKey
               (copied (loadBytes w nc_publicKey) (pb.PublicKey rd)) in
    let '(nets, ip) :=
      decodeNetworks 0 (pb.Ips rd) AddrZero (loadPrefixes w nc_networks) in
    let w := savePrefixes w nc_networks nets in
    let '(unets, _) :=
      decodeNetworks 0 (pb.Subnets rd) ip (loadPrefixes w nc_unsafeNetworks) in
    let w := savePrefixes w nc_unsafeNetworks unets in
    (Ok (mkCertificateV1
           {| name := pb.Name rd;
              groups := nc_groups;
              networks := nc_networks;
              unsafeNetworks := nc_unsafeNetworks;
              notBefore := time_Unix (pb.NotBefore rd);
              notAfter := time_Unix (pb.NotAfter rd);
              publicKey := nc_publicKey;
              isCA := pb.IsCA rd;
              issuer := nc_issuer;
              curve := pb.Curve rd |}
           nc_signature), w)
  end
  end.

(** [bytes.Equal], also what [ed25519.PublicKey.Equal] computes. *)
Definition bytes_Equal (a b : bytes) : bool := bool_decide (a = b).

Definition VerifyPrivateKey (w : World) (c : certificateV1)
  : Curve → bytes → result unit :=
  let d := details c in
  let details_curve := curve d in
  fun curve key =>
  if negb (curve =? details_curve) then
    Err (Errorf "curve in cert and private key supplied don't match")
  else if isCA d then
    if curve =? Curve_CURVE25519 then
      if negb (Z.of_nat (length key) =? ed25519_PrivateKeySize) then
        Err (Errorf "key was not 64 bytes, is invalid ed25519 private key")
      else if negb (bytes_Equal (loadBytes w (publicKey d)) (ed25519_Public key)) then
        Err (Errorf "public key in cert and private key supplied don't match")
      else Ok ()
    else if curve =? Curve_P256 then
      match P256_PublicKey key with
      | Failed msg =>
          Err (ErrorfErr "cannot parse private key as P256: %w"
                 (LibError "crypto/ecdh" msg))
      | Done pub =>
          if negb (bytes_Equal pub (loadBytes w (publicKey d))) then
            Err (Errorf "public key in cert and private key supplied don't match")
          else Ok ()
      end
    else Err (ErrorfInt "invalid curve: %s" curve)
  else
    pub ← (if curve =? Curve_CURVE25519 then
             fromLib "x/crypto/curve25519" (X25519_Basepoint key)
           else if curve =? Curve_P256 then
             fromLib "crypto/ecdh" (P256_PublicKey key)
           else Err (ErrorfInt "invalid curve: %s" curve));
    if negb (bytes_Equal pub (loadBytes w (publicKey d))) then
      Err (Errorf "public key in cert and private key supplied don't match")
    else Ok ().

(** The public key that belongs to a private key, as the specification
    words it: for a CA the Ed25519 or P-256 public key, for any other
    certificate the X25519 or P-256 key-agreement value; none when the
    key is malformed or the curve unknown. *)
Definition correspondingPublicKey (curve : Curve) (isCA : bool) (key : bytes)
  : option bytes :=
  if curve =? Curve_CURVE25519 then
    if isCA then
      if Z.of_nat (length key) =? ed25519_PrivateKeySize
      then Some (ed25519_Public key) else None
    else match X25519_Basepoint key with Done pub => Some pub | Failed _ => None end
  else if curve =? Curve_P256 then
    match P256_PublicKey key with Done pub => Some pub | Failed _ => None end
  else None.

(** The three kinds of failure a caller of [VerifyPrivateKey] tells
    apart. *)
Definition curveMismatch : error :=
  Errorf "curve in cert and private key supplied don't match".
Definition publicKeyMismatch : error :=
  Errorf "public key in cert and private key supplied don't match".
Definition malformedKey (e : error) : Prop :=
  e = Errorf "key was not 64 bytes, is invalid ed25519 private key" ∨
  (∃ msg, e = ErrorfErr "cannot parse private key as P256: %w"
                (LibError "crypto/ecdh" msg)) ∨
  (∃ pkg msg, e = LibError pkg msg).

(** *** [sign.go] *)

Definition comparePrefix (a b : Prefix) : Z :=
  let addr := Compare (Prefix_Addr a) (Prefix_Addr b) in
  if addr =? 0 then Bits a - Bits b else addr.

(** The order [comparePrefix] sorts by. *)
Definition prefix_le (a b : Prefix) : Prop := comparePrefix a b <= 0.

#[global] Instance prefix_le_dec a b : Decision (prefix_le a b).
Proof. unfold prefix_le. apply _. Defined.

(** [slices.SortFunc(x, comparePrefix)], in place.  [comparePrefix] is
    a total order (see [sorted_by_comparePrefix_unique]), so every
    sorting algorithm leaves the same array. *)
Definition SortFunc (w : World) (x : slice Prefix) : World :=
  savePrefixes w x (merge_sort prefix_le (loadPrefixes w x)).

Definition Fingerprint_of (w : World) (s : Certificate) : result string :=
  match s with
  | CertV1 c => Fingerprint w c
  | CertV2 c => v2_Fingerprint w c
  end.

(** The outcome of a method with receiver [t *TBSCertificate]: what it
    returns, the receiver and the store as the call leaves them. *)
Abbreviation signed := (result Certificate * TBSCertificate * World)%type.

(** [SignWithPredicate] from the two sorts on.  The type assertion
    [c.(Certificate)] that ends it holds of both versions. *)
Definition seal (t : TBSCertificate) (sp : SignerPredicate) (w : World) : signed :=
  let w := SortFunc w (TBS.Networks t) in
  let w := SortFunc w (TBS.UnsafeNetworks t) in
  if TBS.Version t =? Version1 then
    match fromTBSCertificate t with
    | Err err => (Err err, t, w)
    | Panic msg => (Panic msg, t, w)
    | Ok c =>
    match marshalForSigning w c with
    | Err err => (Err err, t, w)
    | Panic msg => (Panic msg, t, w)
    | Ok certBytes =>
    let w := logSignerCall w certBytes in
    match sp certBytes with
    | Err err => (Err err, t, w)
    | Panic msg => (Panic msg, t, w)
    | Ok sig =>
    let '(sig, w) := allocBytes w sig in
    match setSignature c sig with
    | Err err => (Err err, t, w)
    | Panic msg => (Panic msg, t, w)
    | Ok c => (Ok (CertV1 c), t, w)
    end end end end
  else if TBS.Version t =? Version2 then
    match v2_fromTBSCertificate t with
    | Err err => (Err err, t, w)
    | Panic msg => (Panic msg, t, w)
    | Ok c =>
    match v2_marshalForSigning w c with
    | Err err => (Err err, t, w)
    | Panic msg => (Panic msg, t, w)
    | Ok certBytes =>
    let w := logSignerCall w certBytes in
    match sp certBytes with
    | Err err => (Err err, t, w)
    | Panic msg => (Panic msg, t, w)
    | Ok sig =>
    let '(sig, w) := allocBytes w sig in
    match v2_setSignature c sig with
    | Err err => (Err err, t, w)
    | Panic msg => (Panic msg, t, w)
    | Ok c => (Ok (CertV2 c), t, w)
    end end end end
  else (Err (ErrorfInt "unknown cert version %d" (TBS.Version t)), t, w).

Definition SignWithPredicate (t : TBSCertificate) (signer : option Certificate)
  (curve : Curve) (sp : SignerPredicate) (w : World) : signed :=
  if negb (curve =? TBS.Curve t) then
    (Err (Errorf "curve in cert and private key supplied don't match"), t, w)
  else
  match signer with
  | Some signer =>
      if TBS.IsCA t then
        (Err (Errorf "can not sign a CA certificate with another"), t, w)
      else
      match checkCAConstraints w (asSum signer) (TBS.NotBefore t) (TBS.NotAfter t)
              (TBS.Groups t) (TBS.Networks t) (TBS.UnsafeNetworks t) with
      | Some err => (Err err, t, w)
      | None =>
      match Fingerprint_of w signer with
      | Err err => (Err (ErrorfErr "error computing issuer: %v" err), t, w)
      | Panic msg => (Panic msg, t, w)
      | Ok issuer => seal (TBS.set_issuer t issuer) sp w
      end end
  | None =>
      if negb (TBS.IsCA t) then
        (Err (Errorf "self signed certificates must have IsCA set to true"), t, w)
      else seal t sp w
  end.

Definition Sign (t : TBSCertificate) (signWith : option Certificate)
  (curve : Curve) (key : bytes) (w : World) : signed :=
  if TBS.Curve t =? Curve_CURVE25519 then
    let sp := fun certBytes => ed25519_Sign key certBytes in
    SignWithPredicate t signWith curve sp w
  else if TBS.Curve t =? Curve_P256 then
    let sp := fun certBytes => ecdsa_SignASN1 key (sha256_Sum256 certBytes) in
    SignWithPredicate t signWith curve sp w
  else (Err (ErrorfInt "invalid curve: %s" (TBS.Curve t)), t, w).

Definition SignPkcs11 (t : TBSCertificate) (signer : option Certificate)
  (curve : Curve) (client : option PKClient) (w : World) : signed :=
  match client with
  | None => (Err (Errorf "pkclient must be non-nil"), t, w)
  | Some client =>
      if TBS.Curve t =? Curve_CURVE25519 then
        (Err (Errorf "only P256 is supported by PKCS#11"), t, w)
      else if TBS.Curve t =? Curve_P256 then
        SignWithPredicate t signer curve (SignASN1 client) w
      else (Err (ErrorfInt "invalid curve: %s" (TBS.Curve t)), t, w)
  end.

(** *** What a caller can observe of a certificate *)

(** The results of the accessor methods of a [certificateV1], slices
    read through the store. *)
Record observed : Type := mkObserved {
  o_version : Version;
  o_curve : Curve;
  o_name : string;
  o_networks : list Prefix;
  o_unsafeNetworks : list Prefix;
  o_groups : list string;
  o_isCA : bool;
  o_issuer : string;
  o_notBefore : Time;
  o_notAfter : Time;
  o_publicKey : bytes;
  o_signature : bytes
}.

Definition observe (w : World) (c : certificateV1) : observed :=
  let d := details c in
  {| o_version := Version1;
     o_curve := curve d;
     o_name := name d;
     o_networks := loadPrefixes w (networks d);
     o_unsafeNetworks := loadPrefixes w (unsafeNetworks d);
     o_groups := loadStrings w (groups d);
     o_isCA := isCA d;
     o_issuer := issuer d;
     o_notBefore := notBefore d;
     o_notAfter := notAfter d;
     o_publicKey := loadBytes w (publicKey d);
     o_signature := loadBytes w (signature c) |}.

(** The same, with the two times at the resolution of the encoding,
    Unix seconds. *)
Definition atSeconds (o : observed) : observed :=
  mkObserved (o_version o) (o_curve o) (o_name o) (o_networks o)
    (o_unsafeNetworks o) (o_groups o) (o_isCA o) (o_issuer o)
    (time_Unix (Unix (o_notBefore o))) (time_Unix (Unix (o_notAfter o)))
    (o_publicKey o) (o_signature o).

End Cert.

(** ** A protobuf codec

    The wire format of protocol buffers for the two messages, as an
    instance of [ProtoCodec]: fields in tag order, scalar fields at
    their zero value left out, repeated integers packed.  The decoder
    takes the fields in any order, repeated integers packed or not,
    the last value of a scalar field, and skips what it does not know;
    groups (wire types 3 and 4) are refused. *)
Module wire.

(** Modelled from the spec: the field numbers of the envelope are in
    the generated code, which is not among the sources; these are the
    numbers of the certificate format as deployed. *)
Definition f_Name : Z := 1.
Definition f_Ips : Z := 2.
Definition f_Subnets : Z := 3.
Definition f_Groups : Z := 4.
Definition f_NotBefore : Z := 5.
Definition f_NotAfter : Z := 6.
Definition f_PublicKey : Z := 7.
Definition f_IsCA : Z := 8.
Definition f_Issuer : Z := 9.
Definition f_Curve : Z := 100.
Definition f_Details : Z := 1.
Definition f_Signature : Z := 2.

Inductive wireValue : Type :=
  | VarintV (n : Z)
  | Fixed64V (b : bytes)
  | LenV (b : bytes)
  | Fixed32V (b : bytes).

Abbreviation field := (Z * wireValue)%type.

(** Base 128 varints of an unsigned 64-bit value, at most ten bytes. *)
Fixpoint putVarint (fuel : nat) (n : Z) : bytes :=
  match fuel with
  | O => []
  | S fuel' =>
      if n <? 128 then [byte_of_Z n]
      else byte_of_Z (Z.lor (Z.land n 127) 128) :: putVarint fuel' (Z.shiftr n 7)
  end.
Definition appendVarint (n : Z) : bytes := putVarint 10 n.

Fixpoint getVarint (fuel : nat) (b : bytes) : option (Z * bytes) :=
  match fuel, b with
  | S fuel', v :: rest =>
      let x := byte_to_Z v in
      if x <? 128 then
        if Nat.eqb fuel' 0 && (1 <? x) then None else Some (x, rest)
      else
        '(y, rest') ← getVarint fuel' rest;
        Some (Z.land x 127 + Z.shiftl y 7, rest')
  | _, _ => None
  end.
Definition consumeVarint (b : bytes) : option (Z * bytes) := getVarint 10 b.

Definition wireType (v : wireValue) : Z :=
  match v with VarintV _ => 0 | Fixed64V _ => 1 | LenV _ => 2 | Fixed32V _ => 5 end.

Definition appendField (f : field) : bytes :=
  let '(num, v) := f in
  appendVarint (Z.lor (Z.shiftl num 3) (wireType v)) ++
  match v with
  | VarintV n => appendVarint n
  | Fixed64V b => b
  | LenV b => appendVarint (Z.of_nat (length b)) ++ b
  | Fixed32V b => b
  end.

Definition appendFields (fs : list field) : bytes := concat (map appendField fs).

Definition splitAt (n : nat) (b : bytes) : option (bytes * bytes) :=
  if Nat.leb n (length b) then Some (take n b, drop n b) else None.

Fixpoint consumeFields (fuel : nat) (b : bytes) : option (list field) :=
  match b with
  | [] => Some []
  | _ =>
      match fuel with
      | O => None
      | S fuel' =>
          '(tg, r) ← consumeVarint b;
          let num := Z.shiftr tg 3 in
          let wt := Z.land tg 7 in
          if (num <? 1) || (2 ^ 29 <=? num) then None
          else if wt =? 0 then
            '(n, r) ← consumeVarint r;
            fs ← consumeFields fuel' r; Some ((num, VarintV n) :: fs)
          else if wt =? 1 then
            '(v, r) ← splitAt 8 r;
            fs ← consumeFields fuel' r; Some ((num, Fixed64V v) :: fs)
          else if wt =? 2 then
            '(n, r) ← consumeVarint r;
            '(v, r) ← splitAt (Z.to_nat n) r;
            fs ← consumeFields fuel' r; Some ((num, LenV v) :: fs)
          else if wt =? 5 then
            '(v, r) ← splitAt 4 r;
            fs ← consumeFields fuel' r; Some ((num, Fixed32V v) :: fs)
          else None
      end
  end.

Definition parse (b : bytes) : option (list field) := consumeFields (length b) b.

(** A field the encoder can write: a field number of 29 bits, a value
    of 64 bits, a length of 64 bits, fixed values of their size. *)
Definition fieldOk (f : field) : Prop :=
  1 <= f.1 < 2 ^ 29 ∧
  match f.2 with
  | VarintV n => 0 <= n < 2 ^ 64
  | Fixed64V b => length b = 8%nat
  | LenV b => Z.of_nat (length b) < 2 ^ 64
  | Fixed32V b => length b = 4%nat
  end.

(** Packed repeated [uint32]. *)
Definition appendPacked (l : list Z) : bytes := concat (map appendVarint l).

Fixpoint consumePacked (fuel : nat) (b : bytes) : option (list Z) :=
  match b with
  | [] => Some []
  | _ =>
      match fuel with
      | O => None
      | S fuel' =>
          '(n, r) ← consumeVarint b;
          l ← consumePacked fuel' r; Some (n mod 2 ^ 32 :: l)
      end
  end.

(** [utf8.Valid] *)
Definition cont (b : byte) : bool :=
  (0x80 <=? byte_to_Z b) && (byte_to_Z b <=? 0xBF).
Definition between (lo hi : Z) (b : byte) : bool :=
  (lo <=? byte_to_Z b) && (byte_to_Z b <=? hi).

Fixpoint utf8_Valid (b : bytes) : bool :=
  match b with
  | [] => true
  | x :: rest =>
      let c := byte_to_Z x in
      if c <? 0x80 then utf8_Valid rest
      else if (0xC2 <=? c) && (c <=? 0xDF) then
        match rest with
        | y :: r => cont y && utf8_Valid r
        | _ => false
        end
      else if (0xE0 <=? c) && (c <=? 0xEF) then
        match rest with
        | y :: z :: r =>
            (if c =? 0xE0 then between 0xA0 0xBF y
             else if c =? 0xED then between 0x80 0x9F y
             else cont y) && cont z && utf8_Valid r
        | _ => false
        end
      else if (0xF0 <=? c) && (c <=? 0xF4) then
        match rest with
        | y :: z :: u :: r =>
            (if c =? 0xF0 then between 0x90 0xBF y
             else if c =? 0xF4 then between 0x80 0x8F y
             else cont y) && cont z && cont u && utf8_Valid r
        | _ => false
        end
      else false
  end.

Definition validString (s : string) : bool := utf8_Valid (list_byte_of_string s).

Definition wrap_int32 (z : Z) : Z := (z + 2 ^ 31) mod 2 ^ 32 - 2 ^ 31.

Definition when (c : bool) (f : field) : list field := if c then [f] else [].

Definition detailsFields (d : pb.RawNebulaCertificateDetails) : list field :=
  when (negb (String.eqb (pb.Name d) EmptyString))
    (f_Name, LenV (list_byte_of_string (pb.Name d))) ++
  when (negb (Nat.eqb (length (pb.Ips d)) 0)) (f_Ips, LenV (appendPacked (pb.Ips d))) ++
  when (negb (Nat.eqb (length (pb.Subnets d)) 0))
    (f_Subnets, LenV (appendPacked (pb.Subnets d))) ++
  map (fun g => (f_Groups, LenV (list_byte_of_string g))) (pb.Groups d) ++
  when (negb (pb.NotBefore d =? 0)) (f_NotBefore, VarintV (pb.NotBefore d mod 2 ^ 64)) ++
  when (negb (pb.NotAfter d =? 0)) (f_NotAfter, VarintV (pb.NotAfter d mod 2 ^ 64)) ++
  when (negb (Nat.eqb (length (pb.PublicKey d)) 0)) (f_PublicKey, LenV (pb.PublicKey d)) ++
  when (pb.IsCA d) (f_IsCA, VarintV 1) ++
  when (negb (Nat.eqb (length (pb.Issuer d)) 0)) (f_Issuer, LenV (pb.Issuer d)) ++
  when (negb (pb.Curve d =? 0)) (f_Curve, VarintV (pb.Curve d mod 2 ^ 64)).

Definition invalidUTF8 : error :=
  LibError "proto" "string field contains invalid UTF-8".

Definition detailsValid (d : pb.RawNebulaCertificateDetails) : bool :=
  validString (pb.Name d) && forallb validString (pb.Groups d).

Definition tooLarge : error := LibError "proto" "message size exceeds 2 GiB".

(** The size check of [proto.Marshal]. *)
Definition sized (b : bytes) : result bytes :=
  if Z.of_nat (length b) <? 2 ^ 31 then Ok b else Err tooLarge.

Definition marshalDetails (d : pb.RawNebulaCertificateDetails) : result bytes :=
  if detailsValid d then sized (appendFields (detailsFields d)) else Err invalidUTF8.

Definition certificateFields (rc : pb.RawNebulaCertificate) (details : bytes)
  : list field :=
  when (bool_decide (is_Some (pb.Details rc))) (f_Details, LenV details) ++
  when (negb (Nat.eqb (length (pb.Signature rc)) 0))
    (f_Signature, LenV (pb.Signature rc)).

Definition marshal (rc : pb.RawNebulaCertificate) : result bytes :=
  details ←
    match pb.Details rc with
    | None => Ok []
    | Some d =>
        if detailsValid d then Ok (appendFields (detailsFields d))
        else Err invalidUTF8
    end;
  sized (appendFields (certificateFields rc details)).

Definition zeroDetails : pb.RawNebulaCertificateDetails :=
  pb.mkDetails EmptyString [] [] [] 0 0 [] false [] 0.

(** Merge one field into the details. *)
Definition mergeDetails (d : pb.RawNebulaCertificateDetails) (f : field)
  : option pb.RawNebulaCertificateDetails :=
  let 'pb.mkDetails nm ips subnets grps nb na pk ca iss cv := d in
  match f with
  | (num, LenV b) =>
      if num =? f_Name then
        if utf8_Valid b
        then Some (pb.mkDetails (string_of_list_byte b) ips subnets grps nb na pk ca iss cv)
        else None
      else if num =? f_Ips then
        l ← consumePacked (length b) b;
        Some (pb.mkDetails nm (ips ++ l) subnets grps nb na pk ca iss cv)
      else if num =? f_Subnets then
        l ← consumePacked (length b) b;
        Some (pb.mkDetails nm ips (subnets ++ l) grps nb na pk ca iss cv)
      else if num =? f_Groups then
        if utf8_Valid b
        then Some (pb.mkDetails nm ips subnets (grps ++ [string_of_list_byte b]) nb na pk ca iss cv)
        else None
      else if num =? f_PublicKey then
        Some (pb.mkDetails nm ips subnets grps nb na b ca iss cv)
      else if num =? f_Issuer then
        Some (pb.mkDetails nm ips subnets grps nb na pk ca b cv)
      else Some d
  | (num, VarintV n) =>
      if num =? f_Ips then
        Some (pb.mkDetails nm (ips ++ [n mod 2 ^ 32]) subnets grps nb na pk ca iss cv)
      else if num =? f_Subnets then
        Some (pb.mkDetails nm ips (subnets ++ [n mod 2 ^ 32]) grps nb na pk ca iss cv)
      else if num =? f_NotBefore then
        Some (pb.mkDetails nm ips subnets grps (wrap_int64 n) na pk ca iss cv)
      else if num =? f_NotAfter then
        Some (pb.mkDetails nm ips subnets grps nb (wrap_int64 n) pk ca iss cv)
      else if num =? f_IsCA then
        Some (pb.mkDetails nm ips subnets grps nb na pk (negb (n =? 0)) iss cv)
      else if num =? f_Curve then
        Some (pb.mkDetails nm ips subnets grps nb na pk ca iss (wrap_int32 n))
      else Some d
  | _ => Some d
  end.

Fixpoint mergeAll {M} (step : M → field → option M) (m : M) (fs : list field)
  : option M :=
  match fs with
  | [] => Some m
  | f :: rest => m' ← step m f; mergeAll step m' rest
  end.

Definition unmarshalDetails (d : pb.RawNebulaCertificateDetails) (b : bytes)
  : option pb.RawNebulaCertificateDetails :=
  fs ← parse b; mergeAll mergeDetails d fs.

Definition mergeCertificate (rc : pb.RawNebulaCertificate) (f : field)
  : option pb.RawNebulaCertificate :=
  match f with
  | (num, LenV b) =>
      if num =? f_Details then
        d ← unmarshalDetails (default zeroDetails (pb.Details rc)) b;
        Some (pb.mkCertificate (Some d) (pb.Signature rc))
      else if num =? f_Signature then
        Some (pb.mkCertificate (pb.Details rc) b)
      else Some rc
  | _ => Some rc
  end.

Definition unmarshal (b : bytes) : result pb.RawNebulaCertificate :=
  match fs ← parse b; mergeAll mergeCertificate (pb.mkCertificate None []) fs with
  | Some rc => Ok rc
  | None => Err (LibError "proto" "cannot parse invalid wire-format data")
  end.

Definition codec : ProtoCodec := {|
  proto_Marshal_details := marshalDetails;
  proto_Marshal := marshal;
  proto_Unmarshal := unmarshal
|}.

End wire.

(** ** Stand-ins for the remaining parameters

    Functions of the right shape for the crypto primitives and the
    collaborators, to run the definitions on concrete inputs.  Nothing
    is proved about them, and no theorem below depends on them except
    by instantiation. *)
Module standin.

Definition crypto : Crypto := {|
  sha256_Sum256 := fun b => take 32 (b ++ replicate 32 x00);
  ed25519_Sign := fun key msg =>
    if Nat.eqb (length key) 64 then Ok (take 64 (msg ++ replicate 64 x00))
    else Panic "ed25519: bad private key length";
  ecdsa_SignASN1 := fun key hash => Ok (x30 :: hash);
  X25519_Basepoint := fun key =>
    if Nat.eqb (length key) 32 then Done (reverse key)
    else Failed "bad scalar length";
  P256_PublicKey := fun key =>
    if Nat.eqb (length key) 32 then Done (x04 :: key ++ key)
    else Failed "invalid private key size"
|}.

Definition collaborators : Collaborators := {|
  certificateV2 := unit;
  v2_fromTBSCertificate := fun _ => Err (LibError "cert" "no version 2 codec");
  v2_marshalForSigning := fun _ _ => Err (LibError "cert" "no version 2 codec");
  v2_setSignature := fun _ _ => Err (LibError "cert" "no version 2 codec");
  v2_Fingerprint := fun _ _ => Err (LibError "cert" "no version 2 codec");
  checkCAConstraints := fun _ _ _ _ _ _ _ => None
|}.

Definition emptyWorld : World := mkWorld ∅ ∅ ∅ [].

End standin.

(** ** Sample values *)
Module sample.

Definition t0 : Time := mkTime 100 0.
Definition t1 : Time := mkTime 200 0.

(** A store with a few arrays. *)
Definition networksAt : loc := 1%positive.
Definition unsafeAt : loc := 2%positive.
Definition mappedAt : loc := 3%positive.
Definition permutedAt : loc := 4%positive.
Definition v6At : loc := 5%positive.
Definition groupsAt : loc := 1%positive.
Definition keyAt : loc := 1%positive.
Definition sigAt : loc := 2%positive.
Definition otherKeyAt : loc := 3%positive.

Definition net_10_0_0_2 : Prefix := PrefixFrom (Addr4 x0a x00 x00 x02) 24.
Definition net_10_0_0_1 : Prefix := PrefixFrom (Addr4 x0a x00 x00 x01) 24.
Definition net_192_168 : Prefix := PrefixFrom (Addr4 xc0 xa8 x00 x00) 16.
(** [::ffff:1.2.3.4/120], an IPv4-mapped prefix. *)
Definition net_mapped : Prefix := PrefixFrom (Addr6 0 0xffff01020304 EmptyString) 120.
(** [2001:db8::/32] *)
Definition net_v6 : Prefix := PrefixFrom (Addr6 0x20010db800000000 0 EmptyString) 32.

Definition key32 : bytes := replicate 32 x07.

Definition world : World :=
  mkWorld
    (<[networksAt := [net_10_0_0_2; net_10_0_0_1]]>
       (<[unsafeAt := [net_192_168]]>
          (<[mappedAt := [net_mapped]]>
             (<[permutedAt := [net_10_0_0_1; net_10_0_0_2]]>
                (<[v6At := [net_10_0_0_1; net_v6]]> ∅)))))
    (<[groupsAt := ["ops"; "dev"]]> ∅)
    (<[keyAt := key32]> (<[sigAt := [x01; x02]]> (<[otherKeyAt := [x09]]> ∅)))
    [].

Definition ca_tbs : TBSCertificate :=
  TBS.mk Version1 "ca" (sliceAt networksAt) (sliceAt unsafeAt) (sliceAt groupsAt)
    true t0 t1 (sliceAt keyAt) Curve_CURVE25519 EmptyString.

(** [ca_tbs] with its networks in another order, in another array. *)
Definition ca_tbs_permuted : TBSCertificate :=
  TBS.mk Version1 "ca" (sliceAt permutedAt) (sliceAt unsafeAt) (sliceAt groupsAt)
    true t0 t1 (sliceAt keyAt) Curve_CURVE25519 EmptyString.

(** A CA for an IPv4-mapped network. *)
Definition mapped_tbs : TBSCertificate :=
  TBS.mk Version1 "ca" (sliceAt mappedAt) nilSlice nilSlice
    true t0 t1 (sliceAt keyAt) Curve_CURVE25519 EmptyString.

(** A request for the hardware token. *)
Definition p256_tbs : TBSCertificate :=
  TBS.mk Version1 "ca" (sliceAt networksAt) (sliceAt unsafeAt) (sliceAt groupsAt)
    true t0 t1 (sliceAt keyAt) Curve_P256 EmptyString.

Definition leaf_tbs : TBSCertificate :=
  TBS.mk Version1 "leaf" (sliceAt networksAt) (sliceAt unsafeAt) (sliceAt groupsAt)
    false t0 t1 (sliceAt keyAt) Curve_CURVE25519 EmptyString.

Definition cert : certificateV1 :=
  mkCertificateV1
    (mkDetailsV1 "ca" (sliceAt networksAt) (sliceAt unsafeAt) (sliceAt groupsAt)
       t0 t1 (sliceAt keyAt) true EmptyString Curve_CURVE25519)
    (sliceAt sigAt).

(** A certificate with an IPv6 network. *)
Definition v6_cert : certificateV1 :=
  mkCertificateV1
    (mkDetailsV1 "v6" (sliceAt v6At) nilSlice nilSlice
       t0 t1 (sliceAt keyAt) true EmptyString Curve_CURVE25519)
    (sliceAt sigAt).

(** An Ed25519 private key whose public half is [key32]. *)
Definition key64 : bytes := replicate 32 x01 ++ key32.

(** A certificate whose name is the single byte [ff], which is not
    UTF-8. *)
Definition badname_cert : certificateV1 :=
  mkCertificateV1
    (mkDetailsV1 (string_of_list_byte [xff]) nilSlice nilSlice nilSlice
       t0 t1 (sliceAt keyAt) true EmptyString Curve_CURVE25519)
    (sliceAt sigAt).

(** A signer predicate that signs with nothing. *)
Definition sp : SignerPredicate := fun certBytes => Ok (take 4 certBytes).

Definition client : PKClient := mkPKClient sp.

End sample.

(** ** Predicates of the statements *)

(** An IPv6 address that is not IPv4-mapped. *)
Definition genuineIPv6 (a : Addr) : Prop := Is6 a = true ∧ Is4In6 a = false.

(** A slice whose backing array is in the store. *)
Definition live {T} (m : gmap loc (list T)) (s : slice T) : Prop :=
  match s with nilSlice => True | sliceAt l => is_Some (m !! l) end.

(** The prefixes the decoder reads from a flattened list of address
    and mask pairs. *)
Fixpoint pairUp (raw : list Z) : list Prefix :=
  match raw with
  | a :: m :: rest => PrefixFrom (int2addr a) (Size (int2ip m)).1 :: pairUp rest
  | _ => []
  end.

(** A valid prefix of an IPv4 address (and not of an IPv4-mapped IPv6
    address). *)
Definition validIPv4Prefix (p : Prefix) : Prop :=
  Is4 (Prefix_Addr p) = true ∧ 0 <= Bits p <= 32.

(** A string [hex.EncodeToString] can have written: an even number of
    lower-case hexadecimal digits. *)
Definition canonicalHex (s : string) : Prop :=
  EncodeToString (DecodeString s).1 = s.

Section Representable.
Context {PC : ProtoCodec} {CR : Crypto} {CO : Collaborators}.

(** What the version 1 encoding can hold of a certificate: networks
    that are valid IPv4 prefixes, an issuer that is a fingerprint or
    empty, and a curve within the [int32] of its Go type. *)
Definition representable (w : World) (c : certificateV1) : Prop :=
  Forall validIPv4Prefix (loadPrefixes w (networks (details c))) ∧
  Forall validIPv4Prefix (loadPrefixes w (unsafeNetworks (details c))) ∧
  canonicalHex (issuer (details c)) ∧
  int32_ok (curve (details c)).

(** A certificate as the package makes one, in the store the call
    leaves: decoded by [unmarshalCertificateV1], or sealed by
    [SignWithPredicate] from what the encoding can hold. *)
Inductive produced (w : World) (c : certificateV1) : Prop :=
  | produced_by_unmarshal b publicKey w0 :
      unmarshalCertificateV1 b publicKey w0 = (Ok c, w) → produced w c
  | produced_by_signing t signer keyCurve sp w0 t' :
      SignWithPredicate t signer keyCurve sp w0 = (Ok (CertV1 c), t', w) →
      representable w c →
      produced w c.

(** An observation with another public key. *)
Definition withPublicKey (o : observed) (k : bytes) : observed :=
  mkObserved (o_version o) (o_curve o) (o_name o) (o_networks o)
    (o_unsafeNetworks o) (o_groups o) (o_isCA o) (o_issuer o)
    (o_notBefore o) (o_notAfter o) k (o_signature o).

End Representable.

(** The order of the specification: ascending address, then ascending
    prefix length. *)
Definition byAddressThenLength (a b : Prefix) : Prop :=
  Compare (Prefix_Addr a) (Prefix_Addr b) < 0 ∨
  (Prefix_Addr a = Prefix_Addr b ∧ Bits a <= Bits b).

(** [s[i] = v] on a slice of strings. *)
Definition setString (w : World) (s : slice string) (i : nat) (v : string) : World :=
  mkWorld (prefixArrays w)
    (save (stringArrays w) s (<[i := v]> (loadStrings w s)))
    (byteArrays w) (signerCalls w).

(** ** Further methods of [cert_v1.go] *)

(** The verification primitives of [crypto/ed25519] and [crypto/ecdsa]
    that [CheckSignature] calls; either may panic on a malformed key. *)
Class Verifier : Type := {
  (** [ed25519.Verify(key, message, sig)] *)
  ed25519_Verify : bytes → bytes → bytes → result bool;
  (** [elliptic.Unmarshal(elliptic.P256(), key)] into a public key,
      then [ecdsa.VerifyASN1(pubKey, hash, sig)] *)
  ecdsa_VerifyASN1 : bytes → bytes → bytes → result bool
}.

Section Checking.
Context {PC : ProtoCodec} {CR : Crypto} {VF : Verifier}.

Definition CheckSignature (w : World) (c : certificateV1) (key : bytes)
  : result bool :=
  rd ← getRawDetails w c;
  match proto_Marshal_details rd with
  | Err err => Ok false
  | Panic msg => Panic msg
  | Ok b =>
      if curve (details c) =? Curve_CURVE25519 then
        ed25519_Verify key b (loadBytes w (signature c))
      else if curve (details c) =? Curve_P256 then
        let hashed := sha256_Sum256 b in
        ecdsa_VerifyASN1 key hashed (loadBytes w (signature c))
      else Ok false
  end.

End Checking.

(** [c.Copy()]: the new certificate and the store with its five
    arrays. *)
Definition Copy (w : World) (c : certificateV1) : certificateV1 * World :=
  let d := details c in
  let '(nc_groups, w) :=
    allocStrings w (replicate (length (loadStrings w (groups d))) EmptyString) in
  let '(nc_networks, w) :=
    allocPrefixes w (replicate (length (loadPrefixes w (networks d))) zeroPrefix) in
  let '(nc_unsafeNetworks, w) :=
    allocPrefixes w
      (replicate (length (loadPrefixes w (unsafeNetworks d))) zeroPrefix) in
  let '(nc_publicKey, w) :=
    allocBytes w (replicate (length (loadBytes w (publicKey d))) x00) in
  let '(nc_signature, w) :=
    allocBytes w (replicate (length (loadBytes w (signature c))) x00) in
  let w := saveBytes w nc_signature
             (copied (loadBytes w nc_signature) (loadBytes w (signature c))) in
  let w := mkWorld (prefixArrays w)
             (save (stringArrays w) nc_groups
                (copied (loadStrings w nc_groups) (loadStrings w (groups d))))
             (byteArrays w) (signerCalls w) in
  let w := saveBytes w nc_publicKey
             (copied (loadBytes w nc_publicKey) (loadBytes w (publicKey d))) in
  let w := savePrefixes w nc_networks
             (copied (loadPrefixes w nc_networks) (loadPrefixes w (networks d))) in
  let w := savePrefixes w nc_unsafeNetworks
             (copied (loadPrefixes w nc_unsafeNetworks)
                (loadPrefixes w (unsafeNetworks d))) in
  (mkCertificateV1
     {| name := name d;
        groups := nc_groups;
        networks := nc_networks;
        unsafeNetworks := nc_unsafeNetworks;
        notBefore := notBefore d;
        notAfter := notAfter d;
        publicKey := nc_publicKey;
        isCA := isCA d;
        issuer := issuer d;
        curve := curve d |}
     nc_signature, w).

(** A certificate whose five slices have their arrays in the store. *)
Definition stored (w : World) (c : certificateV1) : Prop :=
  live (prefixArrays w) (networks (details c)) ∧
  live (prefixArrays w) (unsafeNetworks (details c)) ∧
  live (stringArrays w) (groups (details c)) ∧
  live (byteArrays w) (publicKey (details c)) ∧
  live (byteArrays w) (signature c).

(** A slice on an array that the store does not hold yet. *)
Definition unallocated {T} (m : gmap loc (list T)) (s : slice T) : Prop :=
  match s with nilSlice => False | sliceAt l => m !! l = None end.

(** A prefix [getRawDetails] can flatten: of an IPv4 or an IPv4-mapped
    address, with a length that [net.CIDRMask] has a mask for. *)
Definition encodable (p : Prefix) : Prop :=
  (Is4 (Prefix_Addr p) = true ∨ Is4In6 (Prefix_Addr p) = true) ∧
  0 <= Bits p <= BitLen (Prefix_Addr p).

(** Stand-ins for the two verification primitives, that accept what
    the stand-ins for the signing primitives produce. *)
Definition standin_verifier : Verifier := {|
  ed25519_Verify := fun key msg sig =>
    if Nat.eqb (length key) 32
    then Ok (bool_decide (sig = take 64 (msg ++ replicate 64 x00)))
    else Panic "ed25519: bad public key length";
  ecdsa_VerifyASN1 := fun key hash sig => Ok (bool_decide (sig = x30 :: hash))
|}.

(** Flattened pairs in which every mask is one [Size] reads a prefix
    length from. *)
Fixpoint canonicalMasks (raw : list Z) : Prop :=
  match raw with
  | a :: m :: rest => Size (int2ip m) ≠ (0, 0) ∧ canonicalMasks rest
  | _ => True
  end.

(** ** The JSON form *)

(** The value [marshalJSON] builds, a map with fixed keys: a field for
    each key, slices read through the store. *)
Record jsonDetails : Type := mkJsonDetails {
  j_name : string;
  j_networks : list Prefix;
  j_unsafeNetworks : list Prefix;
  j_groups : list string;
  j_notBefore : Time;
  j_notAfter : Time;
  j_publicKey : string;
  j_isCa : bool;
  j_issuer : string;
  j_curve : string
}.
Record jsonCertificate : Type := mkJsonCertificate {
  j_version : Z;
  j_details : jsonDetails;
  j_fingerprint : string;
  j_signature : string
}.

(** What the JSON form calls into: [Curve.String] of the generated
    code, [json.Marshal] and [json.MarshalIndent] on the map. *)
Class Printing : Type := {
  Curve_String : Z → string;
  json_Marshal : jsonCertificate → result bytes;
  json_MarshalIndent : jsonCertificate → string → string → result string
}.

Section Json.
Context {PC : ProtoCodec} {CR : Crypto} {PR : Printing}.

(** [fmt.Sprintf("%x", b)] on a byte slice: its lower-case hexadecimal
    digits, as [hex.EncodeToString] writes them. *)
Definition Sprintf_x (b : bytes) : string := EncodeToString b.

Definition marshalJSON (w : World) (c : certificateV1) : result jsonCertificate :=
  let d := details c in
  match Fingerprint w c with
  | Panic msg => Panic msg
  | r =>
      let fp := match r with Ok fp => fp | _ => EmptyString end in
      Ok {| j_version := Version1;
            j_details :=
              {| j_name := name d;
                 j_networks := loadPrefixes w (networks d);
                 j_unsafeNetworks := loadPrefixes w (unsafeNetworks d);
                 j_groups := loadStrings w (groups d);
                 j_notBefore := notBefore d;
                 j_notAfter := notAfter d;
                 j_publicKey := Sprintf_x (loadBytes w (publicKey d));
                 j_isCa := isCA d;
                 j_issuer := issuer d;
                 j_curve := Curve_String (curve d) |};
            j_fingerprint := fp;
            j_signature := Sprintf_x (loadBytes w (signature c)) |}
  end.

Definition MarshalJSON (w : World) (c : certificateV1) : result bytes :=
  j ← marshalJSON w c; json_Marshal j.

(** [c.String()] *)
Definition certificateV1_String (w : World) (c : certificateV1) : result string :=
  j ← marshalJSON w c;
  match json_MarshalIndent j EmptyString (string_of_list_byte [x09]) with
  | Err err => Ok "<error marshalling certificate>"%string
  | r => r
  end.

End Json.

(** Stand-ins for the printing functions. *)
Definition standin_printing : Printing := {|
  Curve_String := fun z =>
    if z =? 0 then "CURVE25519"%string else if z =? 1 then "P256"%string
    else "?"%string;
  json_Marshal := fun j => Ok (list_byte_of_string (j_fingerprint j));
  json_MarshalIndent := fun j _ _ => Ok (j_fingerprint j)
|}.

(** * Properties *)

(** ** Bytes and big-endian words *)

Lemma byte_to_Z_range b : 0 <= byte_to_Z b < 256.
Proof.
  unfold byte_to_Z. pose proof (Byte.to_N_bounded b) as H. lia.
Qed.

Lemma byte_of_to_Z b : byte_of_Z (byte_to_Z b) = b.
Proof.
  unfold byte_of_Z. rewrite Z.mod_small by apply byte_to_Z_range.
  unfold byte_to_Z. rewrite N2Z.id, Byte.of_to_N. reflexivity.
Qed.

Lemma byte_to_of_Z z : byte_to_Z (byte_of_Z z) = z mod 256.
Proof.
  unfold byte_of_Z, byte_to_Z.
  pose proof (Z.mod_pos_bound z 256 ltac:(lia)) as Hr.
  destruct (Byte.of_N (Z.to_N (z mod 256))) as [y|] eqn:E.
  - apply Byte.to_of_N in E. simpl. rewrite E. lia.
  - apply Byte.of_N_None_iff in E. lia.
Qed.

Lemma lor_mul_add a b k :
  0 <= k → 0 <= b < 2 ^ k → Z.lor (a * 2 ^ k) b = a * 2 ^ k + b.
Proof.
  intros Hk Hb.
  assert (Hland : Z.land (a * 2 ^ k) b = 0).
  { destruct (Z.eq_dec b 0) as [->|Hb0]; [apply Z.land_0_r|].
    apply Z.bits_inj'; intros n Hn. rewrite Z.land_spec, Z.bits_0.
    destruct (Z.lt_ge_cases n k).
    - rewrite Z.mul_pow2_bits_low by lia. reflexivity.
    - rewrite (Z.bits_above_log2 b n), andb_false_r; [reflexivity|lia|].
      apply Z.lt_le_trans with k; [apply Z.log2_lt_pow2|]; lia. }
  rewrite <- Z.lxor_lor, <- Z.add_nocarry_lxor; auto.
Qed.

Lemma be32_sum b0 b1 b2 b3 :
  be32 b0 b1 b2 b3 =
  byte_to_Z b0 * 2 ^ 24 + byte_to_Z b1 * 2 ^ 16 + byte_to_Z b2 * 2 ^ 8 + byte_to_Z b3.
Proof.
  unfold be32.
  pose proof (byte_to_Z_range b0). pose proof (byte_to_Z_range b1).
  pose proof (byte_to_Z_range b2). pose proof (byte_to_Z_range b3).
  rewrite !Z.shiftl_mul_pow2 by lia.
  rewrite (lor_mul_add _ (byte_to_Z b1 * 2 ^ 16)) by lia.
  replace (byte_to_Z b0 * 2 ^ 24 + byte_to_Z b1 * 2 ^ 16)
    with ((byte_to_Z b0 * 2 ^ 8 + byte_to_Z b1) * 2 ^ 16) by lia.
  rewrite (lor_mul_add _ (byte_to_Z b2 * 2 ^ 8)) by lia.
  replace ((byte_to_Z b0 * 2 ^ 8 + byte_to_Z b1) * 2 ^ 16 + byte_to_Z b2 * 2 ^ 8)
    with (((byte_to_Z b0 * 2 ^ 8 + byte_to_Z b1) * 2 ^ 8 + byte_to_Z b2) * 2 ^ 8) by lia.
  rewrite lor_mul_add by lia. lia.
Qed.

Lemma be32_range b0 b1 b2 b3 : uint32_ok (be32 b0 b1 b2 b3).
Proof.
  rewrite be32_sum. unfold uint32_ok.
  pose proof (byte_to_Z_range b0). pose proof (byte_to_Z_range b1).
  pose proof (byte_to_Z_range b2). pose proof (byte_to_Z_range b3). lia.
Qed.

Lemma byte_of_Z_eq x y : x mod 256 = y mod 256 → byte_of_Z x = byte_of_Z y.
Proof. unfold byte_of_Z. intros ->. reflexivity. Qed.

Lemma byte_of_Z_is z b : z mod 256 = byte_to_Z b → byte_of_Z z = b.
Proof.
  intros H. rewrite <- (byte_of_to_Z b). apply byte_of_Z_eq.
  rewrite H. symmetry. apply Z.mod_small, byte_to_Z_range.
Qed.

Lemma PutUint32_be32 b0 b1 b2 b3 : PutUint32 (be32 b0 b1 b2 b3) = [b0; b1; b2; b3].
Proof.
  unfold PutUint32. rewrite be32_sum.
  pose proof (byte_to_Z_range b0). pose proof (byte_to_Z_range b1).
  pose proof (byte_to_Z_range b2). pose proof (byte_to_Z_range b3).
  rewrite !Z.shiftr_div_pow2 by lia.
  rewrite (byte_of_Z_is _ b0), (byte_of_Z_is _ b1), (byte_of_Z_is _ b2),
    (byte_of_Z_is _ b3); [reflexivity|..]; Z.div_mod_to_equations; lia.
Qed.

Lemma byte_of_Z_mod z : byte_of_Z (z mod 256) = byte_of_Z z.
Proof. unfold byte_of_Z. rewrite Z.mod_mod by lia. reflexivity. Qed.

Lemma Uint32_PutUint32 nn : uint32_ok nn → Uint32 (PutUint32 nn) = Ok nn.
Proof.
  unfold uint32_ok. intros Hn. unfold PutUint32, Uint32.
  f_equal. fold (be32 (byte_of_Z (Z.shiftr nn 24)) (byte_of_Z (Z.shiftr nn 16))
                   (byte_of_Z (Z.shiftr nn 8)) (byte_of_Z nn)).
  rewrite be32_sum, !byte_to_of_Z, !Z.shiftr_div_pow2 by lia.
  Z.div_mod_to_equations; lia.
Qed.

(** ** Hexadecimal strings *)

Lemma fromHexChar_hextable n : 0 <= n < 16 → fromHexChar (hextable n) = Some n.
Proof.
  intros Hn.
  assert (n = 0 ∨ n = 1 ∨ n = 2 ∨ n = 3 ∨ n = 4 ∨ n = 5 ∨ n = 6 ∨ n = 7 ∨
          n = 8 ∨ n = 9 ∨ n = 10 ∨ n = 11 ∨ n = 12 ∨ n = 13 ∨ n = 14 ∨ n = 15)
    as H by lia.
  repeat (destruct H as [->|H]; [reflexivity|]). subst. reflexivity.
Qed.

Lemma nibbles v :
  byte_of_Z (Z.lor (Z.shiftl (Z.shiftr (byte_to_Z v) 4) 4) (Z.land (byte_to_Z v) 15)) = v.
Proof.
  pose proof (byte_to_Z_range v) as Hv.
  change 15 with (Z.ones 4). rewrite Z.land_ones by lia.
  rewrite Z.shiftl_mul_pow2, Z.shiftr_div_pow2 by lia.
  rewrite lor_mul_add by (try apply Z.mod_pos_bound; lia).
  apply byte_of_Z_is. rewrite Z.mod_small; [|Z.div_mod_to_equations; lia].
  Z.div_mod_to_equations; lia.
Qed.

(** Decoding what [EncodeToString] wrote gives the bytes back, without
    a defect. *)
Lemma DecodeString_EncodeToString src :
  DecodeString (EncodeToString src) = (src, true).
Proof.
  induction src as [|v rest IH]; [reflexivity|].
  pose proof (byte_to_Z_range v) as Hv.
  cbn [EncodeToString DecodeString].
  rewrite !fromHexChar_hextable, IH, nibbles; [reflexivity|..].
  - change 15 with (Z.ones 4). rewrite Z.land_ones by lia.
    apply Z.mod_pos_bound. lia.
  - rewrite Z.shiftr_div_pow2 by lia. Z.div_mod_to_equations; lia.
Qed.

(** ** Masks *)

Lemma leadingOnes_clears v n :
  0 <= v < 255 → Z.land (fst (leadingOnes 8 v n)) 0x80 = 0.
Proof.
  intros Hv.
  assert (Hall : forallb (fun v => Z.land (fst (leadingOnes 8 v 0)) 0x80 =? 0)
                   (map Z.of_nat (seq 0 255)) = true) by (vm_compute; reflexivity).
  rewrite forallb_forall in Hall.
  assert (Hn : ∀ f v n, fst (leadingOnes f v n) = fst (leadingOnes f v 0)).
  { clear. induction f as [|f IH]; intros v n; [reflexivity|]. simpl.
    destruct (Z.land v 128 =? 0); [reflexivity|]. rewrite IH, (IH _ (0 + 1)). reflexivity. }
  rewrite Hn. apply Z.eqb_eq, Hall. apply in_map_iff. exists (Z.to_nat v).
  split; [lia|]. apply in_seq. lia.
Qed.

(** The prefix length read back from the mask written for it. *)
Lemma Size_CIDRMask ones m :
  0 <= ones <= 32 → ip2int (CIDRMask ones 32) = Ok m →
  Size (int2ip m) = (ones, 32).
Proof.
  intros Hn.
  assert (Hall : forallb (fun n =>
            match ip2int (CIDRMask n 32) with
            | Ok m => bool_decide (Size (int2ip m) = (n, 32))
            | _ => false
            end) (map Z.of_nat (seq 0 33)) = true) by (vm_compute; reflexivity).
  rewrite forallb_forall in Hall.
  specialize (Hall ones). intros Hm. rewrite Hm in Hall.
  eapply bool_decide_eq_true_1. apply Hall.
  apply in_map_iff. exists (Z.to_nat ones). split; [lia|]. apply in_seq. lia.
Qed.

Lemma ip2int_CIDRMask_Ok ones :
  0 <= ones <= 32 → ∃ m, ip2int (CIDRMask ones 32) = Ok m ∧ uint32_ok m.
Proof.
  intros Hn.
  assert (Hall : forallb (fun n =>
            match ip2int (CIDRMask n 32) with
            | Ok m => (0 <=? m) && (m <? 2 ^ 32)
            | _ => false
            end) (map Z.of_nat (seq 0 33)) = true) by (vm_compute; reflexivity).
  rewrite forallb_forall in Hall.
  specialize (Hall ones).
  destruct (ip2int (CIDRMask ones 32)) as [m| |].
  - exists m. split; [reflexivity|]. unfold uint32_ok.
    assert ((0 <=? m) && (m <? 2 ^ 32) = true) as H; [|lia].
    apply Hall. apply in_map_iff. exists (Z.to_nat ones). split; [lia|].
    apply in_seq. lia.
  - exfalso. assert (false = true); [|discriminate]. apply Hall.
    apply in_map_iff. exists (Z.to_nat ones). split; [lia|]. apply in_seq. lia.
  - exfalso. assert (false = true); [|discriminate]. apply Hall.
    apply in_map_iff. exists (Z.to_nat ones). split; [lia|]. apply in_seq. lia.
Qed.

Lemma leadingOnes_bound fuel v n :
  n <= snd (leadingOnes fuel v n) <= n + Z.of_nat fuel.
Proof.
  revert v n. induction fuel as [|fuel IH]; intros v n; [simpl; lia|].
  cbn [leadingOnes]. destruct (Z.land v 128 =? 0); [simpl; lia|].
  specialize (IH (Z.shiftl v 1 mod 256) (n + 1)). lia.
Qed.

Lemma simpleMaskLength_from_range mask n :
  0 <= n →
  simpleMaskLength_from mask n = -1 ∨
  n <= simpleMaskLength_from mask n <= n + 8 * Z.of_nat (length mask).
Proof.
  revert n. induction mask as [|v rest IH]; intros n Hn; [simpl; lia|].
  cbn [simpleMaskLength_from length].
  destruct (byte_to_Z v =? 255).
  - destruct (IH (n + 8)) as [->|H]; [lia| |]; lia.
  - pose proof (leadingOnes_bound 8 (byte_to_Z v) n) as Hb.
    destruct (leadingOnes 8 (byte_to_Z v) n) as [v' n']. simpl in Hb.
    destruct (negb (v' =? 0)); [lia|].
    destruct (forallb _ rest); lia.
Qed.

(** Whatever the mask, the decoder reads a prefix length within
    [0..32]. *)
Lemma Size_int2ip_range m : 0 <= fst (Size (int2ip m)) <= 32.
Proof.
  unfold Size, simpleMaskLength.
  pose proof (simpleMaskLength_from_range (int2ip m) 0 ltac:(lia)) as H.
  change (length (int2ip m)) with 4%nat in *.
  destruct (simpleMaskLength_from (int2ip m) 0 =? -1) eqn:E; cbn [fst]; lia.
Qed.

(** ** Addresses *)

Lemma int2addr_eq nn :
  int2addr nn = Addr4 (byte_of_Z (Z.shiftr nn 24)) (byte_of_Z (Z.shiftr nn 16))
                  (byte_of_Z (Z.shiftr nn 8)) (byte_of_Z nn).
Proof. reflexivity. Qed.

Lemma low4_Addr4 b0 b1 b2 b3 : low4 (Addr4 b0 b1 b2 b3) = [b0; b1; b2; b3].
Proof.
  unfold low4, addr_lo. pose proof (be32_range b0 b1 b2 b3) as Hr.
  unfold uint32_ok in Hr.
  change 0xffff00000000 with (0xffff * 2 ^ 32).
  rewrite lor_mul_add by lia.
  rewrite Z.add_comm, Z.mod_add, Z.mod_small by lia.
  apply PutUint32_be32.
Qed.

Lemma addr2int_Addr4 b0 b1 b2 b3 :
  addr2int (Addr4 b0 b1 b2 b3) = Ok (be32 b0 b1 b2 b3).
Proof.
  unfold addr2int, Unmap, As4. cbn [Is4In6 Is6 Is4 andb orb].
  rewrite low4_Addr4. reflexivity.
Qed.

(** An address read from the wire converts back to the same integer. *)
Lemma addr2int_int2addr nn : uint32_ok nn → addr2int (int2addr nn) = Ok nn.
Proof.
  intros Hn. rewrite int2addr_eq, addr2int_Addr4.
  pose proof (Uint32_PutUint32 nn Hn) as H. unfold Uint32, PutUint32 in H.
  exact H.
Qed.

Lemma int2addr_addr2int_Addr4 b0 b1 b2 b3 :
  int2addr (be32 b0 b1 b2 b3) = Addr4 b0 b1 b2 b3.
Proof. unfold int2addr. rewrite PutUint32_be32. reflexivity. Qed.

Lemma addr2int_range a n : addr2int a = Ok n → uint32_ok n.
Proof.
  unfold addr2int. destruct (As4 (Unmap a)) as [b| |] eqn:E; try discriminate.
  cbn. unfold As4 in E. destruct (_ || _); [|destruct (isZero _); discriminate].
  injection E as <-. unfold low4, PutUint32, Uint32. intros [= <-].
  apply be32_range.
Qed.

Lemma ip2int_range b n : ip2int b = Ok n → uint32_ok n.
Proof.
  unfold ip2int. destruct (_ =? 16).
  - unfold Uint32. destruct (drop 12 b) as [|b0 [|b1 [|b2 [|b3 r]]]]; try discriminate.
    intros [= <-]. apply be32_range.
  - unfold Uint32. destruct b as [|b0 [|b1 [|b2 [|b3 r]]]]; try discriminate.
    intros [= <-]. apply be32_range.
Qed.

(** ** The order of addresses and of prefixes *)

Lemma ascii_compare_lt_trans a b c :
  Ascii.compare a b = Lt → Ascii.compare b c = Lt → Ascii.compare a c = Lt.
Proof.
  unfold Ascii.compare. rewrite !N.compare_lt_iff. apply N.lt_trans.
Qed.

Lemma string_compare_lt_trans s1 s2 s3 :
  String.compare s1 s2 = Lt → String.compare s2 s3 = Lt → String.compare s1 s3 = Lt.
Proof.
  revert s2 s3. induction s1 as [|a s1 IH]; intros [|b s2] [|c s3]; simpl;
    try discriminate; auto.
  destruct (Ascii.compare a b) eqn:Eab; try discriminate;
    destruct (Ascii.compare b c) eqn:Ebc; try discriminate; intros H1 H2.
  - apply Ascii.compare_eq_iff in Eab, Ebc. subst.
    rewrite (proj2 (N.compare_eq_iff _ _) eq_refl : Ascii.compare c c = Eq).
    eauto.
  - apply Ascii.compare_eq_iff in Eab. subst. rewrite Ebc. reflexivity.
  - apply Ascii.compare_eq_iff in Ebc. subst. rewrite Eab. reflexivity.
  - rewrite (ascii_compare_lt_trans _ _ _ Eab Ebc). reflexivity.
Qed.

Lemma string_compare_refl s : String.compare s s = Eq.
Proof.
  induction s as [|a s IH]; [reflexivity|]. simpl.
  rewrite (proj2 (N.compare_eq_iff _ _) eq_refl : Ascii.compare a a = Eq). exact IH.
Qed.

Lemma be32_inj b0 b1 b2 b3 c0 c1 c2 c3 :
  be32 b0 b1 b2 b3 = be32 c0 c1 c2 c3 → [b0; b1; b2; b3] = [c0; c1; c2; c3].
Proof. intros H. rewrite <- !PutUint32_be32, H. reflexivity. Qed.

Lemma addr_lo_Addr4 b0 b1 b2 b3 :
  addr_lo (Addr4 b0 b1 b2 b3) = 0xffff * 2 ^ 32 + be32 b0 b1 b2 b3.
Proof.
  unfold addr_lo. pose proof (be32_range b0 b1 b2 b3) as Hr. unfold uint32_ok in Hr.
  change 0xffff00000000 with (0xffff * 2 ^ 32). apply lor_mul_add; lia.
Qed.

Lemma Compare_compareAddr a b : Compare a b = compare_to_Z (compareAddr a b).
Proof.
  unfold Compare, compareAddr.
  destruct (Z.compare_spec (BitLen a) (BitLen b)) as [E|E|E].
  2:{ rewrite (proj2 (Z.ltb_lt _ _) E). reflexivity. }
  2:{ rewrite (proj2 (Z.ltb_ge _ _)) by lia. rewrite (proj2 (Z.ltb_lt _ _) E). reflexivity. }
  rewrite !(proj2 (Z.ltb_ge (BitLen _) (BitLen _))) by lia.
  destruct (Z.compare_spec (addr_hi a) (addr_hi b)) as [E1|E1|E1].
  2:{ rewrite (proj2 (Z.ltb_lt _ _) E1). reflexivity. }
  2:{ rewrite (proj2 (Z.ltb_ge _ _)) by lia. rewrite (proj2 (Z.ltb_lt _ _) E1). reflexivity. }
  rewrite !(proj2 (Z.ltb_ge (addr_hi _) (addr_hi _))) by lia.
  destruct (Z.compare_spec (addr_lo a) (addr_lo b)) as [E2|E2|E2].
  2:{ rewrite (proj2 (Z.ltb_lt _ _) E2). reflexivity. }
  2:{ rewrite (proj2 (Z.ltb_ge _ _)) by lia. rewrite (proj2 (Z.ltb_lt _ _) E2). reflexivity. }
  rewrite !(proj2 (Z.ltb_ge (addr_lo _) (addr_lo _))) by lia.
  destruct (Is6 a); reflexivity.
Qed.

Lemma compareAddr_antisym a b : compareAddr b a = CompOpp (compareAddr a b).
Proof.
  unfold compareAddr.
  rewrite (Z.compare_antisym (BitLen a)), (Z.compare_antisym (addr_hi a)),
    (Z.compare_antisym (addr_lo a)).
  destruct (BitLen a ?= BitLen b) eqn:E; simpl; try reflexivity.
  destruct (addr_hi a ?= addr_hi b); simpl; try reflexivity.
  destruct (addr_lo a ?= addr_lo b); simpl; try reflexivity.
  apply Z.compare_eq in E.
  destruct a, b; simpl in *; try reflexivity; try discriminate.
  apply String.compare_antisym.
Qed.

Lemma compareAddr_eq a b : compareAddr a b = Eq → a = b.
Proof.
  unfold compareAddr.
  destruct (Z.compare_spec (BitLen a) (BitLen b)) as [E|E|E]; try discriminate.
  destruct (Z.compare_spec (addr_hi a) (addr_hi b)) as [E1|E1|E1]; try discriminate.
  destruct (Z.compare_spec (addr_lo a) (addr_lo b)) as [E2|E2|E2]; try discriminate.
  destruct a as [|b0 b1 b2 b3|hi lo z], b as [|c0 c1 c2 c3|hi' lo' z'];
    simpl in E; try discriminate; try reflexivity.
  - rewrite !addr_lo_Addr4 in E2. intros _.
    assert (be32 b0 b1 b2 b3 = be32 c0 c1 c2 c3) as H by lia.
    apply be32_inj in H. congruence.
  - simpl in *. intros H. apply String.compare_eq_iff in H. congruence.
Qed.

Lemma compareAddr_refl a : compareAddr a a = Eq.
Proof.
  unfold compareAddr. rewrite !Z.compare_refl.
  destruct (Is6 a); [apply string_compare_refl|reflexivity].
Qed.

Lemma compareAddr_lt_trans a b c :
  compareAddr a b = Lt → compareAddr b c = Lt → compareAddr a c = Lt.
Proof.
  unfold compareAddr.
  destruct (Z.compare_spec (BitLen a) (BitLen b)) as [E|E|E]; try discriminate;
  destruct (Z.compare_spec (BitLen b) (BitLen c)) as [F|F|F]; try discriminate;
  try (intros _ _; rewrite (proj2 (Z.compare_lt_iff (BitLen a) (BitLen c))) by lia;
       reflexivity);
  try (intros _; rewrite (proj2 (Z.compare_lt_iff (BitLen a) (BitLen c))) by lia;
       reflexivity).
  rewrite (proj2 (Z.compare_eq_iff (BitLen a) (BitLen c))) by lia.
  destruct (Z.compare_spec (addr_hi a) (addr_hi b)) as [E1|E1|E1]; try discriminate;
  destruct (Z.compare_spec (addr_hi b) (addr_hi c)) as [F1|F1|F1]; try discriminate;
  try (intros _ _; rewrite (proj2 (Z.compare_lt_iff (addr_hi a) (addr_hi c))) by lia;
       reflexivity);
  try (intros _; rewrite (proj2 (Z.compare_lt_iff (addr_hi a) (addr_hi c))) by lia;
       reflexivity).
  rewrite (proj2 (Z.compare_eq_iff (addr_hi a) (addr_hi c))) by lia.
  destruct (Z.compare_spec (addr_lo a) (addr_lo b)) as [E2|E2|E2]; try discriminate;
  destruct (Z.compare_spec (addr_lo b) (addr_lo c)) as [F2|F2|F2]; try discriminate;
  try (intros _ _; rewrite (proj2 (Z.compare_lt_iff (addr_lo a) (addr_lo c))) by lia;
       reflexivity);
  try (intros _; rewrite (proj2 (Z.compare_lt_iff (addr_lo a) (addr_lo c))) by lia;
       reflexivity).
  rewrite (proj2 (Z.compare_eq_iff (addr_lo a) (addr_lo c))) by lia.
  assert (Is6 b = Is6 a) as ->.
  { destruct a, b; simpl in E; try discriminate; reflexivity. }
  destruct (Is6 a); [apply string_compare_lt_trans|discriminate].
Qed.

Lemma prefix_le_alt a b :
  prefix_le a b ↔
  compareAddr (ip a) (ip b) = Lt ∨
  (compareAddr (ip a) (ip b) = Eq ∧ bitsPlusOne a <= bitsPlusOne b).
Proof.
  unfold prefix_le, comparePrefix, Prefix_Addr, Bits.
  rewrite Compare_compareAddr.
  destruct (compareAddr (ip a) (ip b)); simpl; split; intros H;
    try lia; try (destruct H as [H|[H ?]]; (discriminate || lia)); auto.
  all: try (right; split; [reflexivity|lia]).
Qed.

#[global] Instance prefix_le_total : Total prefix_le.
Proof.
  intros a b. rewrite !prefix_le_alt, (compareAddr_antisym (ip a) (ip b)).
  destruct (compareAddr (ip a) (ip b)); simpl; auto.
  destruct (Z.le_ge_cases (bitsPlusOne a) (bitsPlusOne b));
    [left|right]; right; (split; [reflexivity|lia]).
Qed.

#[global] Instance prefix_le_trans : Transitive prefix_le.
Proof.
  intros a b c. rewrite !prefix_le_alt.
  intros [H1|[H1 L1]] [H2|[H2 L2]].
  - left. eapply compareAddr_lt_trans; eauto.
  - apply compareAddr_eq in H2. rewrite <- H2. auto.
  - apply compareAddr_eq in H1. rewrite H1. auto.
  - apply compareAddr_eq in H1, H2. rewrite H1, H2, compareAddr_refl.
    right. split; [reflexivity|lia].
Qed.

#[global] Instance prefix_le_antisym : AntiSymm (=) prefix_le.
Proof.
  intros a b. rewrite !prefix_le_alt, (compareAddr_antisym (ip a) (ip b)).
  destruct (compareAddr (ip a) (ip b)) eqn:E; simpl;
    intros [H1|[H1 L1]] [H2|[H2 L2]]; try discriminate.
  apply compareAddr_eq in E. destruct a, b; simpl in *. f_equal; [exact E|lia].
Qed.

(** A sorted array is determined by its elements: whatever algorithm
    [slices.SortFunc] runs, it leaves what [merge_sort] computes. *)
Lemma sorted_by_comparePrefix_unique (l l' : list Prefix) :
  l' ≡ₚ l → Sorted prefix_le l' → l' = merge_sort prefix_le l.
Proof.
  intros Hp Hs. apply (Sorted_unique prefix_le); auto.
  - apply Sorted_merge_sort; apply _.
  - rewrite merge_sort_Permutation. exact Hp.
Qed.

Lemma merge_sort_perm_eq (l l' : list Prefix) :
  l ≡ₚ l' → merge_sort prefix_le l = merge_sort prefix_le l'.
Proof.
  intros Hp. apply sorted_by_comparePrefix_unique.
  - rewrite merge_sort_Permutation. exact Hp.
  - apply Sorted_merge_sort; apply _.
Qed.

Lemma merge_sort_idem (l : list Prefix) :
  merge_sort prefix_le (merge_sort prefix_le l) = merge_sort prefix_le l.
Proof. apply merge_sort_perm_eq, merge_sort_Permutation. Qed.

(** ** Validity in time *)

Lemma After_lt t u : After t u = true ↔ time_lt u t.
Proof. unfold After, time_lt. destruct t, u; simpl. lia. Qed.

Lemma Before_lt t u : Before t u = true ↔ time_lt t u.
Proof. unfold Before, time_lt. destruct t, u; simpl. lia. Qed.

Lemma time_lt_irrefl t : ¬ time_lt t t.
Proof. unfold time_lt. lia. Qed.

Lemma time_le_not_lt t u : time_le t u → ¬ time_lt u t.
Proof. unfold time_le, time_lt. intros [H| ->]; lia. Qed.

(** C4.  A certificate valid from [T0] to [T1], with [T0] not after
    [T1], is expired at [t] exactly when [t] is strictly before [T0] or
    strictly after [T1]: it is not expired at [T0] nor at [T1], and it
    is expired one second before [T0] and one second after [T1]. *)
Theorem Expired_boundaries (c : certificateV1) (t : Time) :
  let T0 := notBefore (details c) in
  let T1 := notAfter (details c) in
  time_le T0 T1 →
  (Expired c t = true ↔ time_lt t T0 ∨ time_lt T1 t) ∧
  Expired c T0 = false ∧
  Expired c T1 = false ∧
  Expired c (AddSeconds T0 (-1)) = true ∧
  Expired c (AddSeconds T1 1) = true.
Proof.
  intros T0 T1 Hle.
  assert (Hiff : ∀ u, Expired c u = true ↔ time_lt u T0 ∨ time_lt T1 u).
  { intros u. unfold Expired. fold T0 T1.
    rewrite orb_true_iff, After_lt, Before_lt. reflexivity. }
  split; [apply Hiff|].
  repeat split.
  - apply not_true_is_false. rewrite Hiff. intros [H|H].
    + exact (time_lt_irrefl _ H).
    + exact (time_le_not_lt _ _ Hle H).
  - apply not_true_is_false. rewrite Hiff. intros [H|H].
    + exact (time_le_not_lt _ _ Hle H).
    + exact (time_lt_irrefl _ H).
  - apply Hiff. left. unfold time_lt, AddSeconds. simpl. lia.
  - apply Hiff. right. unfold time_lt, AddSeconds. simpl. lia.
Qed.

Lemma Expired_boundaries_witness :
  (Expired sample.cert (mkTime 150 0) = true ↔
     time_lt (mkTime 150 0) sample.t0 ∨ time_lt sample.t1 (mkTime 150 0)) ∧
  Expired sample.cert sample.t0 = false ∧
  Expired sample.cert sample.t1 = false ∧
  Expired sample.cert (AddSeconds sample.t0 (-1)) = true ∧
  Expired sample.cert (AddSeconds sample.t1 1) = true.
Proof.
  apply (Expired_boundaries sample.cert (mkTime 150 0)).
  left. left. simpl. lia.
Defined.

(** ** Who may sign what *)

Section Issuance.
Context {PC : ProtoCodec} {CR : Crypto} {CO : Collaborators}.

(** [Sign] is [SignWithPredicate] for the signer of the curve, or the
    refusal of an unknown curve. *)
Lemma Sign_cases t signWith curve key w :
  (∃ sp, Sign t signWith curve key w = SignWithPredicate t signWith curve sp w) ∨
  Sign t signWith curve key w =
    (Err (ErrorfInt "invalid curve: %s" (TBS.Curve t)), t, w).
Proof.
  unfold Sign. destruct (TBS.Curve t =? Curve_CURVE25519); [left; eauto|].
  destruct (TBS.Curve t =? Curve_P256); [left; eauto|right; reflexivity].
Qed.

(** C3.  With the curve of the certificate: signing without an issuer
    is refused unless the certificate is a CA, signing with an issuer
    is refused if it is one; the call returns the error and no
    certificate, and leaves its receiver and the store as they were. *)
Theorem self_signing_rule (t : TBSCertificate) (curve : Curve)
  (sp : SignerPredicate) (key : bytes) (w : World) :
  curve = TBS.Curve t →
  (TBS.IsCA t = false →
     SignWithPredicate t None curve sp w =
       (Err (Errorf "self signed certificates must have IsCA set to true"), t, w) ∧
     ∃ e, Sign t None curve key w = (Err e, t, w)) ∧
  (∀ signer, TBS.IsCA t = true →
     SignWithPredicate t (Some signer) curve sp w =
       (Err (Errorf "can not sign a CA certificate with another"), t, w) ∧
     ∃ e, Sign t (Some signer) curve key w = (Err e, t, w)).
Proof.
  intros ->.
  assert (H1 : ∀ sp, TBS.IsCA t = false →
     SignWithPredicate t None (TBS.Curve t) sp w =
       (Err (Errorf "self signed certificates must have IsCA set to true"), t, w)).
  { intros sp' Hca. unfold SignWithPredicate. rewrite Z.eqb_refl, Hca. reflexivity. }
  assert (H2 : ∀ sp signer, TBS.IsCA t = true →
     SignWithPredicate t (Some signer) (TBS.Curve t) sp w =
       (Err (Errorf "can not sign a CA certificate with another"), t, w)).
  { intros sp' signer Hca. unfold SignWithPredicate. rewrite Z.eqb_refl, Hca. reflexivity. }
  split.
  - intros Hca. split; [auto|].
    destruct (Sign_cases t None (TBS.Curve t) key w) as [[sp' ->]| ->]; eauto.
  - intros signer Hca. split; [auto|].
    destruct (Sign_cases t (Some signer) (TBS.Curve t) key w) as [[sp' ->]| ->]; eauto.
Qed.

(** *** The hardware token *)

Lemma seal_calls t sp w r t' w' :
  seal t sp w = (r, t', w') →
  signerCalls w' = signerCalls w ∨ ∃ b, signerCalls w' = b :: signerCalls w.
Proof.
  unfold seal, fromTBSCertificate, setSignature, allocBytes, alloc.
  repeat match goal with
         | |- context [match ?x with _ => _ end] => destruct x
         end;
    intros [= <- <- <-]; simpl; eauto.
Qed.

(** C7.  [SignPkcs11] without a client, or for a [Curve_CURVE25519]
    certificate, returns an error and leaves the receiver, the store
    and the record of signer invocations as they were; whenever a call
    does invoke the signer there is a client and the certificate is on
    [Curve_P256]. *)
Theorem SignPkcs11_restriction (t : TBSCertificate) (signer : option Certificate)
  (curve : Curve) (w : World) :
  SignPkcs11 t signer curve None w =
    (Err (Errorf "pkclient must be non-nil"), t, w) ∧
  (∀ client, TBS.Curve t = Curve_CURVE25519 →
     SignPkcs11 t signer curve (Some client) w =
       (Err (Errorf "only P256 is supported by PKCS#11"), t, w)) ∧
  (∀ client r t' w',
     SignPkcs11 t signer curve client w = (r, t', w') →
     signerCalls w' ≠ signerCalls w →
     is_Some client ∧ TBS.Curve t = Curve_P256).
Proof.
  split; [reflexivity|]. split.
  - intros client Hc. unfold SignPkcs11. rewrite Hc. reflexivity.
  - intros client r t' w'. unfold SignPkcs11.
    destruct client as [client|]; [|intros [= <- <- <-]; congruence].
    destruct (TBS.Curve t =? Curve_CURVE25519); [intros [= <- <- <-]; congruence|].
    destruct (TBS.Curve t =? Curve_P256) eqn:E; [|intros [= <- <- <-]; congruence].
    intros _ _. split; [eauto|]. apply Z.eqb_eq, E.
Qed.

End Issuance.

Lemma self_signing_rule_witness :
  (TBS.IsCA sample.leaf_tbs = false →
     SignWithPredicate (PC := wire.codec) (CR := standin.crypto)
       (CO := standin.collaborators)
       sample.leaf_tbs None Curve_CURVE25519 sample.sp sample.world =
       (Err (Errorf "self signed certificates must have IsCA set to true"),
        sample.leaf_tbs, sample.world) ∧
     ∃ e, Sign (PC := wire.codec) (CR := standin.crypto)
            (CO := standin.collaborators)
            sample.leaf_tbs None Curve_CURVE25519 sample.key32 sample.world =
          (Err e, sample.leaf_tbs, sample.world)) ∧
  (∀ signer, TBS.IsCA sample.leaf_tbs = true →
     SignWithPredicate (PC := wire.codec) (CR := standin.crypto)
       (CO := standin.collaborators)
       sample.leaf_tbs (Some signer) Curve_CURVE25519 sample.sp sample.world =
       (Err (Errorf "can not sign a CA certificate with another"),
        sample.leaf_tbs, sample.world) ∧
     ∃ e, Sign (PC := wire.codec) (CR := standin.crypto)
            (CO := standin.collaborators)
            sample.leaf_tbs (Some signer) Curve_CURVE25519 sample.key32 sample.world =
          (Err e, sample.leaf_tbs, sample.world)).
Proof.
  apply (self_signing_rule (PC := wire.codec) (CR := standin.crypto)
           (CO := standin.collaborators)
           sample.leaf_tbs Curve_CURVE25519 sample.sp sample.key32 sample.world).
  reflexivity.
Defined.

(** ** Private keys *)

Section Keys.
Context {PC : ProtoCodec} {CR : Crypto} {CO : Collaborators}.

Lemma bytes_Equal_true a b : bytes_Equal a b = true ↔ a = b.
Proof. unfold bytes_Equal. apply bool_decide_eq_true. Qed.

Lemma bytes_Equal_false a b : bytes_Equal a b = false ↔ a ≠ b.
Proof. unfold bytes_Equal. apply bool_decide_eq_false. Qed.

Lemma malformedKey_distinct e :
  malformedKey e → e ≠ curveMismatch ∧ e ≠ publicKeyMismatch.
Proof.
  intros [->|[[msg ->]|[pkg [msg ->]]]]; split; discriminate.
Qed.

(** C8.  [VerifyPrivateKey] succeeds exactly when the curve is that of
    the certificate and the public key that corresponds to the private
    key is the stored one.  A curve other than the certificate's gives
    the curve mismatch error, whatever the key; on a known curve a
    malformed key gives a malformed-key error and a well-formed key of
    another pair the public key mismatch error; the three kinds of
    error differ. *)
Theorem VerifyPrivateKey_spec (w : World) (c : certificateV1) (keyCurve : Z)
  (key : bytes) :
  let d := details c in
  let stored := loadBytes w (publicKey d) in
  (VerifyPrivateKey w c keyCurve key = Ok () ↔
     keyCurve = curve d ∧
     correspondingPublicKey keyCurve (isCA d) key = Some stored) ∧
  (keyCurve ≠ curve d →
     VerifyPrivateKey w c keyCurve key = Err curveMismatch) ∧
  (keyCurve = curve d →
   keyCurve = Curve_CURVE25519 ∨ keyCurve = Curve_P256 →
   correspondingPublicKey keyCurve (isCA d) key = None →
     ∃ e, VerifyPrivateKey w c keyCurve key = Err e ∧ malformedKey e) ∧
  (keyCurve = curve d →
   ∀ pub, correspondingPublicKey keyCurve (isCA d) key = Some pub → pub ≠ stored →
     VerifyPrivateKey w c keyCurve key = Err publicKeyMismatch) ∧
  curveMismatch ≠ publicKeyMismatch ∧
  (∀ e, malformedKey e → e ≠ curveMismatch ∧ e ≠ publicKeyMismatch).
Proof.
  intros d stored.
  assert (Hne : keyCurve ≠ curve d →
                VerifyPrivateKey w c keyCurve key = Err curveMismatch).
  { intros H. unfold VerifyPrivateKey. fold d.
    rewrite (proj2 (Z.eqb_neq _ _) H). reflexivity. }
  assert (Heq : keyCurve = curve d →
     VerifyPrivateKey w c keyCurve key =
       match correspondingPublicKey keyCurve (isCA d) key with
       | Some pub => if bytes_Equal pub stored then Ok () else Err publicKeyMismatch
       | None =>
           if keyCurve =? Curve_CURVE25519 then
             if isCA d
             then Err (Errorf "key was not 64 bytes, is invalid ed25519 private key")
             else match X25519_Basepoint key with
                  | Failed msg => Err (LibError "x/crypto/curve25519" msg)
                  | Done _ => Ok ()
                  end
           else if keyCurve =? Curve_P256 then
             match P256_PublicKey key with
             | Failed msg =>
                 if isCA d
                 then Err (ErrorfErr "cannot parse private key as P256: %w"
                             (LibError "crypto/ecdh" msg))
                 else Err (LibError "crypto/ecdh" msg)
             | Done _ => Ok ()
             end
           else Err (ErrorfInt "invalid curve: %s" keyCurve)
       end).
  { intros H. unfold VerifyPrivateKey, correspondingPublicKey. fold d. fold stored.
    rewrite (proj2 (Z.eqb_eq _ _) H). cbn [negb].
    destruct (keyCurve =? Curve_CURVE25519) eqn:E1.
    - destruct (isCA d).
      + destruct (Z.of_nat (length key) =? ed25519_PrivateKeySize); cbn [negb]; [|reflexivity].
        destruct (bytes_Equal stored (ed25519_Public key)) eqn:E2.
        * apply bytes_Equal_true in E2. rewrite <- E2.
          rewrite (proj2 (bytes_Equal_true _ _) eq_refl). reflexivity.
        * apply bytes_Equal_false in E2.
          rewrite (proj2 (bytes_Equal_false (ed25519_Public key) stored)) by congruence.
          reflexivity.
      + destruct (X25519_Basepoint key) as [pub|msg]; cbn; [|reflexivity].
        destruct (bytes_Equal pub stored); reflexivity.
    - destruct (keyCurve =? Curve_P256) eqn:E2.
      + destruct (isCA d); destruct (P256_PublicKey key) as [pub|msg]; cbn; try reflexivity;
          destruct (bytes_Equal pub stored); reflexivity.
      + destruct (isCA d); reflexivity. }
  split; [|split; [exact Hne|split; [|split; [|split]]]].
  - split.
    + intros Hok. destruct (Z.eq_dec keyCurve (curve d)) as [E|E].
      2:{ rewrite Hne in Hok by exact E. discriminate. }
      split; [exact E|]. rewrite Heq in Hok by exact E.
      destruct (correspondingPublicKey keyCurve (isCA d) key) as [pub|] eqn:Ec.
      * destruct (bytes_Equal pub stored) eqn:Eb; [|discriminate].
        apply bytes_Equal_true in Eb. congruence.
      * exfalso. unfold correspondingPublicKey in Ec.
        destruct (keyCurve =? Curve_CURVE25519).
        { destruct (isCA d); [discriminate|].
          destruct (X25519_Basepoint key); discriminate. }
        destruct (keyCurve =? Curve_P256); [|discriminate].
        destruct (P256_PublicKey key); [discriminate|].
        destruct (isCA d); discriminate.
    + intros [E Ec]. rewrite Heq, Ec by exact E.
      rewrite (proj2 (bytes_Equal_true _ _) eq_refl). reflexivity.
  - intros E Hcurve Ec. rewrite Heq, Ec by exact E.
    unfold correspondingPublicKey in Ec.
    destruct (keyCurve =? Curve_CURVE25519) eqn:E1.
    { destruct (isCA d).
      - eexists. split; [reflexivity|]. left. reflexivity.
      - destruct (X25519_Basepoint key); [discriminate|].
        eexists. split; [reflexivity|]. right. right. eauto. }
    destruct (keyCurve =? Curve_P256) eqn:E2.
    { destruct (P256_PublicKey key); [discriminate|].
      destruct (isCA d); eexists; (split; [reflexivity|]).
      - right. left. eauto.
      - right. right. eauto. }
    exfalso. apply Z.eqb_neq in E1, E2. tauto.
  - intros E pub Ec Hpub. rewrite Heq, Ec by exact E.
    rewrite (proj2 (bytes_Equal_false _ _) Hpub). reflexivity.
  - discriminate.
  - apply malformedKey_distinct.
Qed.

End Keys.

(** ** The domain of the address conversion *)

Section Domain.
Context {PC : ProtoCodec} {CR : Crypto} {CO : Collaborators}.

Lemma addr2int_genuineIPv6 a :
  genuineIPv6 a → addr2int a = Panic "As4 called on IPv6 address".
Proof.
  intros [H6 H46]. unfold addr2int, Unmap. rewrite H46.
  unfold As4. rewrite H46. destruct a; try discriminate. reflexivity.
Qed.

Lemma Unmap_Is4In6 a :
  Is4In6 a = true → ∃ b0 b1 b2 b3, Unmap a = Addr4 b0 b1 b2 b3.
Proof.
  intros H. unfold Unmap. rewrite H. unfold low4, PutUint32, AddrFrom4. eauto.
Qed.

Lemma addr2int_not_Err a e : addr2int a ≠ Err e.
Proof.
  unfold addr2int. destruct (As4 (Unmap a)) as [b| |] eqn:E; cbn.
  - unfold Uint32. destruct b as [|? [|? [|? [|? ?]]]]; discriminate.
  - unfold As4 in E. destruct (_ || _); [discriminate|].
    destruct (isZero _); discriminate.
  - discriminate.
Qed.

Lemma ip2int_not_Err b e : ip2int b ≠ Err e.
Proof.
  unfold ip2int, Uint32. destruct (_ =? 16).
  - destruct (drop 12 b) as [|? [|? [|? [|? ?]]]]; discriminate.
  - destruct b as [|? [|? [|? [|? ?]]]]; discriminate.
Qed.

Lemma appendNetworks_not_Err nets acc e : appendNetworks acc nets ≠ Err e.
Proof.
  revert acc. induction nets as [|p rest IH]; intros acc; [discriminate|].
  cbn [appendNetworks].
  destruct (addr2int (Prefix_Addr p)) as [a| |] eqn:Ea; cbn; try discriminate.
  - destruct (ip2int _) as [m| |] eqn:Em; cbn; try discriminate.
    + apply IH.
    + intros _. exact (ip2int_not_Err _ _ Em).
  - intros _. exact (addr2int_not_Err _ _ Ea).
Qed.

Lemma appendNetworks_genuineIPv6 nets acc :
  Exists (fun p => genuineIPv6 (Prefix_Addr p)) nets →
  ∃ msg, appendNetworks acc nets = Panic msg.
Proof.
  intros H. revert acc. induction H as [p rest Hp|p rest _ IH]; intros acc.
  - cbn [appendNetworks]. rewrite addr2int_genuineIPv6 by exact Hp. cbn. eauto.
  - cbn [appendNetworks].
    destruct (addr2int (Prefix_Addr p)) as [a| |] eqn:Ea; cbn; eauto.
    + destruct (ip2int _) as [m| |] eqn:Em; cbn; eauto.
      exfalso. exact (ip2int_not_Err _ _ Em).
    + exfalso. exact (addr2int_not_Err _ _ Ea).
Qed.

Lemma getRawDetails_genuineIPv6 w c :
  Exists (fun p => genuineIPv6 (Prefix_Addr p))
    (loadPrefixes w (networks (details c)) ++
     loadPrefixes w (unsafeNetworks (details c))) →
  ∃ msg, getRawDetails w c = Panic msg.
Proof.
  rewrite Exists_app. intros [H|H]; unfold getRawDetails.
  - destruct (appendNetworks_genuineIPv6 _ [] H) as [msg ->]. cbn. eauto.
  - destruct (appendNetworks [] (loadPrefixes w (networks (details c))))
      as [ips| |] eqn:E; cbn; eauto.
    + destruct (appendNetworks_genuineIPv6 _ [] H) as [msg ->]. cbn. eauto.
    + exfalso. exact (appendNetworks_not_Err _ _ _ E).
Qed.

(** C10.  The conversion of version 1 is defined on IPv4 addresses
    only: marshalling a certificate one of whose networks or unsafe
    networks has an IPv6 address that is not IPv4-mapped panics, be it
    through [Marshal], [marshalForSigning] or [Fingerprint]; every IPv4
    address converts to an integer that converts back to it; and an
    IPv4-mapped address converts to the integer of the IPv4 address it
    maps. *)
Theorem conversion_domain :
  (∀ w c,
     Exists (fun p => genuineIPv6 (Prefix_Addr p))
       (loadPrefixes w (networks (details c)) ++
        loadPrefixes w (unsafeNetworks (details c))) →
     (∃ msg, Marshal w c = Panic msg) ∧
     (∃ msg, marshalForSigning w c = Panic msg) ∧
     (∃ msg, Fingerprint w c = Panic msg)) ∧
  (∀ a, Is4 a = true → ∃ n, addr2int a = Ok n ∧ int2addr n = a) ∧
  (∀ a, Is4In6 a = true → ∃ n, addr2int a = Ok n ∧ int2addr n = Unmap a).
Proof.
  split; [|split].
  - intros w c H. destruct (getRawDetails_genuineIPv6 w c H) as [msg E].
    unfold Fingerprint, Marshal, marshalForSigning. rewrite E. cbn. repeat split; eauto.
  - intros [|b0 b1 b2 b3|] H; try discriminate.
    exists (be32 b0 b1 b2 b3). split.
    + apply addr2int_Addr4.
    + apply int2addr_addr2int_Addr4.
  - intros a H. destruct (Unmap_Is4In6 a H) as (b0 & b1 & b2 & b3 & E).
    exists (be32 b0 b1 b2 b3). split.
    + unfold addr2int. rewrite E. exact (addr2int_Addr4 b0 b1 b2 b3).
    + rewrite E. apply int2addr_addr2int_Addr4.
Qed.

End Domain.

(** ** The store *)

Section Store.
Context {T : Type}.
Implicit Types (m : gmap loc (list T)) (s : slice T) (v : list T).

Lemma load_save m s s' v :
  load (save m s v) s' =
  match s, s' with
  | sliceAt l, sliceAt l' =>
      if decide (l = l' ∧ is_Some (m !! l)) then v else load m s'
  | _, _ => load m s'
  end.
Proof.
  destruct s as [|l], s' as [|l']; try reflexivity.
  unfold save, load.
  destruct (decide (is_Some (m !! l))) as [Hs|Hs].
  - destruct (decide (l = l')) as [->|Hne].
    + rewrite lookup_insert_eq, decide_True by auto. reflexivity.
    + rewrite lookup_insert_ne, decide_False by tauto. reflexivity.
  - rewrite decide_False by tauto. reflexivity.
Qed.

Lemma load_save_same m s v : live m s → length v = length (load m s) →
  load (save m s v) s = v.
Proof.
  intros Hl Hlen. rewrite load_save. destruct s as [|l].
  - simpl in *. destruct v; [reflexivity|discriminate].
  - rewrite decide_True; [reflexivity|]. split; [reflexivity|exact Hl].
Qed.

Lemma load_save_other m l l' v :
  l ≠ l' → load (save m (sliceAt l) v) (sliceAt l') = load m (sliceAt l').
Proof. intros H. rewrite load_save, decide_False by tauto. reflexivity. Qed.

Lemma load_save_nil m s v : load (save m s v) nilSlice = [].
Proof. reflexivity. Qed.

Lemma dom_save m s v : dom (save m s v) = dom m.
Proof.
  destruct s as [|l]; [reflexivity|]. unfold save.
  destruct (decide (is_Some (m !! l))) as [Hs|]; [|reflexivity].
  rewrite dom_insert_L. apply subseteq_union_1_L, singleton_subseteq_l, elem_of_dom.
  exact Hs.
Qed.

Lemma live_save m s v s' : live (save m s v) s' ↔ live m s'.
Proof.
  destruct s' as [|l']; [reflexivity|]. unfold live.
  rewrite <- !elem_of_dom, dom_save. reflexivity.
Qed.

Lemma alloc_fresh m v : m !! fresh (dom m) = None.
Proof. apply not_elem_of_dom, is_fresh. Qed.

Lemma load_alloc_new m v : load (alloc m v).2 (alloc m v).1 = v.
Proof. unfold alloc, load. simpl. rewrite lookup_insert_eq. reflexivity. Qed.

Lemma load_alloc_old m v s : live m s → load (alloc m v).2 s = load m s.
Proof.
  destruct s as [|l]; [reflexivity|]. intros [x Hx]. unfold alloc, load. simpl.
  rewrite lookup_insert_ne; [reflexivity|].
  intros <-. rewrite alloc_fresh in Hx; [discriminate|exact v].
Qed.

Lemma live_alloc_new m v : live (alloc m v).2 (alloc m v).1.
Proof. unfold alloc, live. simpl. rewrite lookup_insert_eq. eauto. Qed.

Lemma live_alloc_old m v s : live m s → live (alloc m v).2 s.
Proof.
  destruct s as [|l]; [intros _; exact I|]. unfold alloc, live. simpl. intros Hs.
  rewrite lookup_insert. case_decide; eauto.
Qed.

Lemma alloc_new_not_live m v s : live m s → s ≠ (alloc m v).1.
Proof.
  destruct s as [|l]; [discriminate|]. intros [x Hx] [= E]. subst l.
  rewrite alloc_fresh in Hx; [discriminate|exact v].
Qed.

Lemma load_nonempty_live m s : load m s ≠ [] → live m s.
Proof.
  destruct s as [|l]; [intros _; exact I|]. unfold load, live.
  destruct (m !! l); [eauto|]. intros H. exfalso. apply H. reflexivity.
Qed.

Lemma copied_same_length (dst src : list T) :
  length dst = length src → copied dst src = src.
Proof.
  intros H. unfold copied. rewrite H, firstn_all. rewrite <- H, drop_all.
  apply app_nil_r.
Qed.

Lemma copied_nil (dst : list T) : copied dst [] = dst.
Proof. unfold copied. rewrite take_nil. reflexivity. Qed.

Lemma length_copied (dst src : list T) : length (copied dst src) = length dst.
Proof.
  unfold copied. rewrite length_app, length_take, length_drop. lia.
Qed.

End Store.

(** ** Flattened networks *)

Lemma decodeNetworks_pairs (k : nat) : ∀ raw done ip0,
  length raw = (2 * k)%nat →
  ∃ ip', decodeNetworks (2 * length done) raw ip0 (done ++ replicate k zeroPrefix)
         = (done ++ pairUp raw, ip').
Proof.
  induction k as [|k IH]; intros raw done ip0 Hlen.
  - destruct raw; [|discriminate]. simpl. eauto.
  - destruct raw as [|a [|m rest]]; try (simpl in Hlen; lia).
    cbn [decodeNetworks pairUp].
    assert (He : Nat.even (2 * length done) = true).
    { rewrite Nat.even_mul. reflexivity. }
    assert (Ho : Nat.even (S (2 * length done)) = false).
    { rewrite Nat.even_succ, <- Nat.negb_even, He. reflexivity. }
    rewrite He, Ho.
    destruct (Size (int2ip m)) as [ones bits] eqn:ES. cbn [fst].
    assert (Hd : (S (2 * length done) `div` 2 = length done)%nat).
    { symmetry. apply (Nat.div_unique _ 2 _ 1); lia. }
    rewrite Hd.
    replace (<[length done := PrefixFrom (int2addr a) ones]>
               (done ++ replicate (S k) zeroPrefix))
      with ((done ++ [PrefixFrom (int2addr a) ones]) ++ replicate k zeroPrefix).
    2:{ rewrite insert_app_r_alt by lia. rewrite Nat.sub_diag. simpl.
        rewrite <- app_assoc. reflexivity. }
    replace (S (S (2 * length done))) with (2 * length (done ++ [PrefixFrom (int2addr a) ones]))%nat
      by (rewrite length_app; simpl; lia).
    destruct (IH rest (done ++ [PrefixFrom (int2addr a) ones]) (int2addr a)) as [ip' E].
    { simpl in Hlen. lia. }
    rewrite E, <- app_assoc. simpl. eauto.
Qed.

Lemma decodeNetworks_all raw ip0 :
  (length raw mod 2 = 0)%nat →
  (decodeNetworks 0 raw ip0 (replicate (length raw `div` 2) zeroPrefix)).1 = pairUp raw.
Proof.
  intros Hm.
  destruct (decodeNetworks_pairs (length raw `div` 2) raw [] ip0) as [ip' E].
  { pose proof (Nat.div_mod_eq (length raw) 2). lia. }
  change (2 * length (@nil Prefix))%nat with 0%nat in E.
  rewrite !app_nil_l in E. rewrite E. reflexivity.
Qed.

Lemma length_pairUp raw :
  (length raw mod 2 = 0)%nat → length (pairUp raw) = (length raw `div` 2)%nat.
Proof.
  intros Hm.
  assert (H : ∀ k raw, length raw = (2 * k)%nat → length (pairUp raw) = k).
  { clear. induction k as [|k IH]; intros [|a [|m rest]] Hl;
      cbn [pairUp length] in *; try lia.
    f_equal. apply IH. lia. }
  apply H. pose proof (Nat.div_mod_eq (length raw) 2). lia.
Qed.

(** Every prefix the decoder reads is a valid IPv4 prefix. *)
Lemma pairUp_valid raw : Forall validIPv4Prefix (pairUp raw).
Proof.
  assert (H : ∀ n raw, (length raw <= n)%nat → Forall validIPv4Prefix (pairUp raw)).
  { clear. induction n as [|n IH]; intros [|a [|m rest]] Hl; cbn [pairUp length] in *;
      try constructor; try lia.
    - pose proof (Size_int2ip_range m) as Hr.
      unfold validIPv4Prefix, Prefix_Addr, Bits, PrefixFrom.
      rewrite int2addr_eq. cbn [ip bitsPlusOne withoutZone isZero negb BitLen Is4 andb].
      rewrite (proj2 (Z.leb_le 0 _)), (proj2 (Z.leb_le _ 32)) by lia.
    cbn [andb bitsPlusOne]. split; [reflexivity|lia].
    - apply IH. lia. }
  apply (H (length raw)). lia.
Qed.

(** A valid IPv4 prefix flattens to a pair that reads back as it. *)
Lemma flatten_validIPv4Prefix p :
  validIPv4Prefix p →
  ∃ a m, addr2int (Prefix_Addr p) = Ok a ∧
         ip2int (CIDRMask (Bits p) (BitLen (Prefix_Addr p))) = Ok m ∧
         uint32_ok a ∧ uint32_ok m ∧
         PrefixFrom (int2addr a) (Size (int2ip m)).1 = p.
Proof.
  destruct p as [a bp]. unfold validIPv4Prefix, Prefix_Addr, Bits. cbn [ip bitsPlusOne].
  intros [H4 Hb]. destruct a as [|b0 b1 b2 b3|]; try discriminate.
  cbn [BitLen].
  destruct (ip2int_CIDRMask_Ok (bp - 1) Hb) as (m & Em & Hm).
  exists (be32 b0 b1 b2 b3), m. split; [apply addr2int_Addr4|].
  split; [exact Em|]. split; [apply be32_range|]. split; [exact Hm|].
  rewrite (Size_CIDRMask _ _ Hb Em), int2addr_addr2int_Addr4. cbn [fst].
  unfold PrefixFrom. cbn [isZero negb BitLen withoutZone andb].
  rewrite (proj2 (Z.leb_le 0 _)), (proj2 (Z.leb_le _ 32)) by lia. cbn [andb].
  f_equal. lia.
Qed.

Lemma appendNetworks_valid nets : ∀ acc,
  Forall validIPv4Prefix nets →
  ∃ raw, appendNetworks acc nets = Ok (acc ++ raw) ∧
         Forall uint32_ok raw ∧ (length raw mod 2 = 0)%nat ∧ pairUp raw = nets.
Proof.
  induction nets as [|p rest IH]; intros acc Hv.
  - exists []. rewrite app_nil_r. repeat split; constructor.
  - inversion Hv as [|? ? Hp Hrest]; subst.
    destruct (flatten_validIPv4Prefix p Hp) as (a & m & Ea & Em & Ha & Hm & Ep).
    destruct (IH (acc ++ [a; m]) Hrest) as (raw & E & Hr & Hl & Hpu).
    exists (a :: m :: raw). cbn [appendNetworks]. rewrite Ea.
    cbn [mbind result_bind]. rewrite Em. cbn [mbind result_bind].
    rewrite E, <- app_assoc. split; [reflexivity|].
    split; [constructor; [exact Ha|constructor; [exact Hm|exact Hr]]|]. split.
    + cbn [length]. replace (S (S (length raw))) with (length raw + 1 * 2)%nat by lia.
      rewrite Nat.Div0.mod_add. exact Hl.
    + cbn [pairUp]. rewrite Ep, Hpu. reflexivity.
Qed.

(** ** Decoding *)

Lemma allocBytes_eq w v s w1 :
  allocBytes w v = (s, w1) →
  s = (alloc (byteArrays w) v).1 ∧
  w1 = mkWorld (prefixArrays w) (stringArrays w) (alloc (byteArrays w) v).2
         (signerCalls w).
Proof. unfold allocBytes, alloc. intros [= <- <-]. auto. Qed.

Lemma allocStrings_eq w v s w1 :
  allocStrings w v = (s, w1) →
  s = (alloc (stringArrays w) v).1 ∧
  w1 = mkWorld (prefixArrays w) (alloc (stringArrays w) v).2 (byteArrays w)
         (signerCalls w).
Proof. unfold allocStrings, alloc. intros [= <- <-]. auto. Qed.

Lemma allocPrefixes_eq w v s w1 :
  allocPrefixes w v = (s, w1) →
  s = (alloc (prefixArrays w) v).1 ∧
  w1 = mkWorld (alloc (prefixArrays w) v).2 (stringArrays w) (byteArrays w)
         (signerCalls w).
Proof. unfold allocPrefixes, alloc. intros [= <- <-]. auto. Qed.

(** Two arrays made one after the other are distinct, hold what they
    were made with, and leave the arrays there were alone. *)
Lemma alloc_twice {T} (m : gmap loc (list T)) v1 v2 :
  let s1 := (alloc m v1).1 in
  let m1 := (alloc m v1).2 in
  let s2 := (alloc m1 v2).1 in
  let m2 := (alloc m1 v2).2 in
  s1 ≠ s2 ∧ load m2 s1 = v1 ∧ load m2 s2 = v2 ∧ live m2 s1 ∧ live m2 s2 ∧
  ∀ s, live m s → load m2 s = load m s ∧ s ≠ s1 ∧ s ≠ s2 ∧ live m2 s.
Proof.
  intros s1 m1 s2 m2.
  assert (L1 : live m1 s1) by apply live_alloc_new.
  split; [apply alloc_new_not_live; exact L1|].
  split; [unfold m2; rewrite load_alloc_old by exact L1; apply load_alloc_new|].
  split; [apply load_alloc_new|].
  split; [apply live_alloc_old; exact L1|].
  split; [apply live_alloc_new|].
  intros s Hs. assert (L : live m1 s) by (apply live_alloc_old; exact Hs).
  split; [unfold m2, m1; rewrite !load_alloc_old by assumption; reflexivity|].
  split; [apply alloc_new_not_live; exact Hs|].
  split; [apply alloc_new_not_live; exact L|].
  apply live_alloc_old; exact L.
Qed.

Lemma load_save_ne {T} (m : gmap loc (list T)) s s' v :
  s ≠ s' → load (save m s v) s' = load m s'.
Proof.
  intros H. rewrite load_save. destruct s as [|l], s' as [|l']; try reflexivity.
  rewrite decide_False; [reflexivity|]. intros [-> _]. congruence.
Qed.

Section Decoding.
Context {PC : ProtoCodec} {CR : Crypto} {CO : Collaborators}.

Lemma unmarshal_inv b pk w c w' :
  unmarshalCertificateV1 b pk w = (Ok c, w') →
  ∃ rc rd,
    b ≠ [] ∧ proto_Unmarshal b = Ok rc ∧ pb.Details rc = Some rd ∧
    (length (pb.Ips rd) mod 2 = 0)%nat ∧ (length (pb.Subnets rd) mod 2 = 0)%nat ∧
    name (details c) = pb.Name rd ∧
    notBefore (details c) = time_Unix (pb.NotBefore rd) ∧
    notAfter (details c) = time_Unix (pb.NotAfter rd) ∧
    isCA (details c) = pb.IsCA rd ∧
    issuer (details c) = EncodeToString (pb.Issuer rd) ∧
    curve (details c) = pb.Curve rd ∧
    loadPrefixes w' (networks (details c)) = pairUp (pb.Ips rd) ∧
    loadPrefixes w' (unsafeNetworks (details c)) = pairUp (pb.Subnets rd) ∧
    loadStrings w' (groups (details c)) = pb.Groups rd ∧
    loadBytes w' (signature c) = pb.Signature rc ∧
    (if Nat.ltb 0 (length (loadBytes w pk))
     then publicKey (details c) = pk ∧
          loadBytes w' pk = copied (loadBytes w pk) (pb.PublicKey rd)
     else loadBytes w' (publicKey (details c)) = pb.PublicKey rd).
Proof.
  unfold unmarshalCertificateV1.
  destruct b as [|b0 b']; [discriminate|]. cbn [length Nat.eqb].
  destruct (proto_Unmarshal (b0 :: b')) as [rc| |] eqn:Hun; try discriminate.
  destruct (pb.Details rc) as [rd|] eqn:Hd; try discriminate.
  destruct (Nat.eqb (length (pb.Ips rd) mod 2) 0) eqn:Hips; try discriminate.
  destruct (Nat.eqb (length (pb.Subnets rd) mod 2) 0) eqn:Hsub; try discriminate.
  cbn [negb]. apply Nat.eqb_eq in Hips, Hsub.
  destruct (allocStrings w _) as [gs w1] eqn:E1.
  destruct (allocPrefixes w1 _) as [ns w2] eqn:E2.
  destruct (allocPrefixes w2 _) as [us w3] eqn:E3.
  destruct (allocBytes w3 _) as [ks w4] eqn:E4.
  destruct (allocBytes w4 _) as [ss w5] eqn:E5.
  apply allocStrings_eq in E1 as [Egs ->].
  apply allocPrefixes_eq in E2 as [Ens ->].
  apply allocPrefixes_eq in E3 as [Eus ->].
  apply allocBytes_eq in E4 as [Eks ->].
  apply allocBytes_eq in E5 as [Ess ->].
  cbn [prefixArrays stringArrays byteArrays signerCalls] in *.
  cbv zeta.
  unfold saveBytes, savePrefixes, loadBytes, loadPrefixes, loadStrings.
  cbn [prefixArrays stringArrays byteArrays signerCalls].
  subst gs ns us ks ss.
  destruct (alloc_twice (prefixArrays w)
              (replicate (length (pb.Ips rd) `div` 2) zeroPrefix)
              (replicate (length (pb.Subnets rd) `div` 2) zeroPrefix))
    as (Pne & Pn & Pu & Pln & Plu & _).
  destruct (alloc_twice (byteArrays w)
              (replicate (length (pb.PublicKey rd)) x00)
              (replicate (length (pb.Signature rc)) x00))
    as (Bne & Bk & Bs & Blk & Bls & Bold).
  pose proof (load_alloc_new (stringArrays w)
                (replicate (length (pb.Groups rd)) EmptyString)) as Sg.
  pose proof (live_alloc_new (stringArrays w)
                (replicate (length (pb.Groups rd)) EmptyString)) as Slg.
  set (us := (alloc (alloc (prefixArrays w) _).2 _).1) in *.
  set (P2 := (alloc (alloc (prefixArrays w) _).2 _).2) in *.
  set (ns := (alloc (prefixArrays w) _).1) in *.
  set (ss := (alloc (alloc (byteArrays w) _).2 _).1) in *.
  set (B2 := (alloc (alloc (byteArrays w) _).2 _).2) in *.
  set (ks := (alloc (byteArrays w) _).1) in *.
  set (gs := (alloc (stringArrays w) _).1) in *.
  set (S1 := (alloc (stringArrays w) _).2) in *.
  clearbody us P2 ns ss B2 ks gs S1.
  rewrite Pn, Bs, Sg.
  rewrite !copied_same_length by (rewrite length_replicate; reflexivity).
  destruct (decodeNetworks 0 (pb.Ips rd) AddrZero _) as [nets ip1] eqn:En.
  rewrite load_save_ne, Pu by exact Pne.
  destruct (decodeNetworks 0 (pb.Subnets rd) ip1 _) as [unets ip2] eqn:Eu.
  apply (f_equal fst) in En, Eu. rewrite decodeNetworks_all in En, Eu by assumption.
  cbn [fst] in En, Eu. subst nets unets.
  intros [= <- <-]. exists rc, rd.
  cbn [details name notBefore notAfter isCA issuer curve networks unsafeNetworks groups
       publicKey signature prefixArrays stringArrays byteArrays].
  repeat (split; [first [reflexivity|assumption|discriminate]|]).
  split.
  { rewrite load_save_ne by congruence. apply load_save_same; [exact Pln|].
    rewrite Pn, length_replicate. apply length_pairUp. exact Hips. }
  split.
  { apply load_save_same.
    - apply live_save. exact Plu.
    - rewrite load_save_ne, Pu, length_replicate by exact Pne.
      apply length_pairUp. exact Hsub. }
  split.
  { apply load_save_same; [exact Slg|]. rewrite Sg, length_replicate. reflexivity. }
  destruct (Nat.ltb 0 (length (load (byteArrays w) pk))) eqn:Hpk.
  - assert (Lpk : live (byteArrays w) pk).
    { apply load_nonempty_live. apply Nat.ltb_lt in Hpk.
      intros E. rewrite E in Hpk. simpl in Hpk. lia. }
    destruct (Bold pk Lpk) as (Bo & Bnk & Bns & Bl2).
    split.
    + rewrite load_save_ne by congruence. apply load_save_same; [exact Bls|].
      rewrite Bs, length_replicate. reflexivity.
    + split; [reflexivity|].
      rewrite (load_save_ne _ ss pk) by congruence. rewrite Bo.
      apply load_save_same.
      * apply live_save. exact Bl2.
      * rewrite load_save_ne, Bo by congruence. apply length_copied.
  - split.
    + rewrite load_save_ne by congruence. apply load_save_same; [exact Bls|].
      rewrite Bs, length_replicate. reflexivity.
    + rewrite (load_save_ne _ ss ks), Bk by congruence.
      rewrite copied_same_length by (rewrite length_replicate; reflexivity).
      apply load_save_same.
      * apply live_save. exact Blk.
      * rewrite load_save_ne, Bk, length_replicate by congruence. reflexivity.
Qed.

Lemma unmarshal_total b pk w rc rd :
  b ≠ [] → proto_Unmarshal b = Ok rc → pb.Details rc = Some rd →
  (length (pb.Ips rd) mod 2 = 0)%nat → (length (pb.Subnets rd) mod 2 = 0)%nat →
  ∃ c w', unmarshalCertificateV1 b pk w = (Ok c, w').
Proof.
  intros Hb Hun Hd Hips Hsub. unfold unmarshalCertificateV1.
  destruct b as [|b0 b']; [congruence|]. cbn [length Nat.eqb].
  rewrite Hun, Hd, Hips, Hsub. cbn [Nat.eqb negb].
  destruct (allocStrings w _) as [gs w1].
  destruct (allocPrefixes w1 _) as [ns w2].
  destruct (allocPrefixes w2 _) as [us w3].
  destruct (allocBytes w3 _) as [ks w4].
  destruct (allocBytes w4 _) as [ss w5].
  cbv zeta.
  destruct (decodeNetworks 0 (pb.Ips rd) AddrZero _) as [nets ip1].
  destruct (decodeNetworks 0 (pb.Subnets rd) ip1 _) as [unets ip2].
  eauto.
Qed.

End Decoding.

(** ** A public key supplied by the caller *)

(** What the code does with a non-empty [publicKey] argument: the
    public key of the certificate is that very slice, and what it holds
    afterwards is what [copy] leaves there, the supplied bytes
    overwritten from the front by the public key encoded in [b].  It is
    the supplied key only when [b] encodes none. *)
Lemma supplied_publicKey {PC : ProtoCodec} (b : bytes) (pk : slice byte)
  (w w' : World) (c : certificateV1) :
  unmarshalCertificateV1 b pk w = (Ok c, w') →
  loadBytes w pk ≠ [] →
  ∃ rc rd,
    proto_Unmarshal b = Ok rc ∧ pb.Details rc = Some rd ∧
    publicKey (details c) = pk ∧
    loadBytes w' (publicKey (details c)) =
      copied (loadBytes w pk) (pb.PublicKey rd) ∧
    (pb.PublicKey rd = [] → loadBytes w' (publicKey (details c)) = loadBytes w pk).
Proof.
  intros Hrun Hpk.
  destruct (unmarshal_inv b pk w c w' Hrun)
    as (rc & rd & _ & Hun & Hd & _ & _ & _ & _ & _ & _ & _ & _ & _ & _ & _ & _ & Hkey).
  assert (Hlen : Nat.ltb 0 (length (loadBytes w pk)) = true).
  { apply Nat.ltb_lt. destruct (loadBytes w pk); [congruence|simpl; lia]. }
  rewrite Hlen in Hkey. destruct Hkey as [Hs Hl].
  exists rc, rd. rewrite Hs. repeat split; try assumption.
  intros E. rewrite Hl, E. apply copied_nil.
Qed.

Lemma supplied_publicKey_witness :
  ∃ c w',
    unmarshalCertificateV1 (PC := wire.codec) [x0a; x00]
      (sliceAt sample.otherKeyAt) sample.world = (Ok c, w') ∧
    loadBytes sample.world (sliceAt sample.otherKeyAt) ≠ [] ∧
    ∃ rc rd,
      proto_Unmarshal (ProtoCodec := wire.codec) [x0a; x00] = Ok rc ∧
      pb.Details rc = Some rd ∧
      publicKey (details c) = sliceAt sample.otherKeyAt ∧
      loadBytes w' (publicKey (details c)) =
        copied (loadBytes sample.world (sliceAt sample.otherKeyAt))
          (pb.PublicKey rd) ∧
      (pb.PublicKey rd = [] →
       loadBytes w' (publicKey (details c)) =
       loadBytes sample.world (sliceAt sample.otherKeyAt)).
Proof.
  eexists _, _. split; [vm_compute; reflexivity|].
  split; [vm_compute; discriminate|].
  apply (supplied_publicKey (PC := wire.codec) [x0a; x00]
           (sliceAt sample.otherKeyAt) sample.world).
  - vm_compute. reflexivity.
  - vm_compute. discriminate.
Defined.

(** C5.  The public key of a certificate decoded with a key supplied is
    not the supplied key when [b] encodes a key of its own: line 371
    installs the supplied slice and the [copy] of line 374 then writes
    the encoded key into it, in the array of the caller.  Decoding the
    one byte key [01] with the key [09] supplied returns a certificate
    whose public key is [01], and leaves [01] where the caller had
    [09]; with the 32 bytes [07 .. 07] supplied the public key is
    [01 07 .. 07], neither the one nor the other. *)
Lemma supplied_publicKey_overwritten :
  (∃ c w',
     unmarshalCertificateV1 (PC := wire.codec) [x0a; x03; x3a; x01; x01]
       (sliceAt sample.otherKeyAt) sample.world = (Ok c, w') ∧
     loadBytes sample.world (sliceAt sample.otherKeyAt) = [x09] ∧
     publicKey (details c) = sliceAt sample.otherKeyAt ∧
     loadBytes w' (publicKey (details c)) = [x01] ∧
     loadBytes w' (sliceAt sample.otherKeyAt) = [x01]) ∧
  (∃ c w',
     unmarshalCertificateV1 (PC := wire.codec) [x0a; x03; x3a; x01; x01]
       (sliceAt sample.keyAt) sample.world = (Ok c, w') ∧
     loadBytes sample.world (sliceAt sample.keyAt) = replicate 32 x07 ∧
     loadBytes w' (publicKey (details c)) = x01 :: replicate 31 x07).
Proof.
  split.
  - eexists _, _. split; [vm_compute; reflexivity|].
    repeat split; vm_compute; reflexivity.
  - eexists _, _. split; [vm_compute; reflexivity|].
    split; vm_compute; reflexivity.
Qed.

(** ** Sealing *)

Lemma merge_sort_nil : merge_sort prefix_le [] = [].
Proof. reflexivity. Qed.

Lemma load_SortFunc_same w x :
  loadPrefixes (SortFunc w x) x = merge_sort prefix_le (loadPrefixes w x).
Proof.
  unfold SortFunc, loadPrefixes, savePrefixes. cbn [prefixArrays].
  rewrite load_save. destruct x as [|l]; [reflexivity|].
  destruct (decide _) as [_|Hn]; [reflexivity|].
  unfold load. destruct (prefixArrays w !! l) eqn:E; [|reflexivity].
  exfalso. apply Hn. eauto.
Qed.

Lemma load_SortFunc_other w x y :
  x ≠ y → loadPrefixes (SortFunc w x) y = loadPrefixes w y.
Proof.
  intros H. unfold SortFunc, loadPrefixes, savePrefixes. cbn [prefixArrays].
  apply load_save_ne. exact H.
Qed.

(** After the two sorts each of the two slices is sorted, also when they
    are one and the same. *)
Lemma load_sorted_twice w x y :
  let w2 := SortFunc (SortFunc w x) y in
  loadPrefixes w2 x = merge_sort prefix_le (loadPrefixes w x) ∧
  loadPrefixes w2 y = merge_sort prefix_le (loadPrefixes w y).
Proof.
  intros w2. unfold w2.
  destruct (decide (x = y)) as [->|Hne].
  - rewrite !load_SortFunc_same, merge_sort_idem. auto.
  - split.
    + rewrite load_SortFunc_other by congruence. apply load_SortFunc_same.
    + rewrite load_SortFunc_same, load_SortFunc_other by congruence. reflexivity.
Qed.

Lemma SortFunc_frame w x :
  stringArrays (SortFunc w x) = stringArrays w ∧
  byteArrays (SortFunc w x) = byteArrays w ∧
  signerCalls (SortFunc w x) = signerCalls w.
Proof. auto. Qed.

Lemma sorted_byAddressThenLength (l : list Prefix) :
  StronglySorted byAddressThenLength (merge_sort prefix_le l).
Proof.
  assert (H : StronglySorted prefix_le (merge_sort prefix_le l)).
  { apply StronglySorted_merge_sort; apply _. }
  induction H as [|a rest Hs IH Hall]; constructor; [exact IH|].
  eapply Forall_impl; [exact Hall|]. intros b. cbv beta.
  rewrite prefix_le_alt. unfold byAddressThenLength, Prefix_Addr, Bits.
  rewrite Compare_compareAddr.
  intros [E|[E Hb]]; rewrite E.
  - left. reflexivity.
  - right. apply compareAddr_eq in E. split; [exact E|lia].
Qed.

Section Sealing.
Context {PC : ProtoCodec} {CR : Crypto} {CO : Collaborators}.

(** What [getRawDetails] reads of the store. *)
Lemma getRawDetails_ext w c w' c' :
  name (details c) = name (details c') →
  loadPrefixes w (networks (details c)) = loadPrefixes w' (networks (details c')) →
  loadPrefixes w (unsafeNetworks (details c)) =
    loadPrefixes w' (unsafeNetworks (details c')) →
  loadStrings w (groups (details c)) = loadStrings w' (groups (details c')) →
  Unix (notBefore (details c)) = Unix (notBefore (details c')) →
  Unix (notAfter (details c)) = Unix (notAfter (details c')) →
  loadBytes w (publicKey (details c)) = loadBytes w' (publicKey (details c')) →
  isCA (details c) = isCA (details c') →
  issuer (details c) = issuer (details c') →
  curve (details c) = curve (details c') →
  getRawDetails w c = getRawDetails w' c'.
Proof.
  intros H1 H2 H3 H4 H5 H6 H7 H8 H9 H10. unfold getRawDetails.
  rewrite H1, H2, H3, H4, H5, H6, H7, H8, H9, H10. reflexivity.
Qed.

(** A sealed version 1 certificate: how [seal] got there. *)
Lemma seal_V1_inv t sp w c t' w' :
  seal t sp w = (Ok (CertV1 c), t', w') →
  let w2 := SortFunc (SortFunc w (TBS.Networks t)) (TBS.UnsafeNetworks t) in
  ∃ c0 certBytes sig,
    t' = t ∧ TBS.Version t = Version1 ∧
    fromTBSCertificate t = Ok c0 ∧
    marshalForSigning w2 c0 = Ok certBytes ∧
    sp certBytes = Ok sig ∧
    details c = details c0 ∧
    allocBytes (logSignerCall w2 certBytes) sig = (signature c, w').
Proof.
  unfold seal. intros H.
  set (w2 := SortFunc (SortFunc w (TBS.Networks t)) (TBS.UnsafeNetworks t)) in *.
  destruct (TBS.Version t =? Version1) eqn:Ev.
  - apply Z.eqb_eq in Ev. unfold fromTBSCertificate in *.
    destruct (marshalForSigning w2 _) as [certBytes| |] eqn:Em; try discriminate.
    destruct (sp certBytes) as [sig| |] eqn:Es; try discriminate.
    destruct (allocBytes _ sig) as [s w3] eqn:Ea.
    unfold setSignature in H. injection H as <- <- <-.
    eexists _, certBytes, sig. repeat split; eauto.
  - destruct (TBS.Version t =? Version2); [|discriminate].
    destruct (v2_fromTBSCertificate t); try discriminate.
    destruct (v2_marshalForSigning w2 _); try discriminate.
    destruct (sp _); try discriminate.
    destruct (allocBytes _ _). destruct (v2_setSignature _ _); discriminate.
Qed.

(** A successful [SignWithPredicate]: the checks it passed. *)
Lemma SignWithPredicate_inv t signer keyCurve sp w cert t' w' :
  SignWithPredicate t signer keyCurve sp w = (Ok cert, t', w') →
  keyCurve = TBS.Curve t ∧
  ((signer = None ∧ TBS.IsCA t = true ∧ seal t sp w = (Ok cert, t', w')) ∨
   (∃ s fp, signer = Some s ∧ TBS.IsCA t = false ∧
            Fingerprint_of w s = Ok fp ∧
            seal (TBS.set_issuer t fp) sp w = (Ok cert, t', w'))).
Proof.
  unfold SignWithPredicate.
  destruct (keyCurve =? TBS.Curve t) eqn:Ec; [|discriminate]. cbn [negb].
  apply Z.eqb_eq in Ec. intros H. split; [exact Ec|].
  destruct signer as [s|].
  - destruct (TBS.IsCA t) eqn:Eca; [discriminate|].
    destruct (checkCAConstraints _ _ _ _ _ _ _); [discriminate|].
    destruct (Fingerprint_of w s) as [fp| |] eqn:Ef; try discriminate.
    right. eauto 10.
  - destruct (TBS.IsCA t) eqn:Eca; [|discriminate]. left. auto.
Qed.

End Sealing.

(** ** Signing: order, mutation and aliasing *)

Lemma load_save_insert {T} (m : gmap loc (list T)) s i v :
  load (save m s (<[i := v]> (load m s))) s = <[i := v]> (load m s).
Proof.
  rewrite load_save. destruct s as [|l]; [reflexivity|].
  destruct (decide _) as [_|Hn]; [reflexivity|].
  unfold load. destruct (m !! l) eqn:E; [|reflexivity].
  exfalso. apply Hn. eauto.
Qed.

Section Signing.
Context {PC : ProtoCodec} {CR : Crypto} {CO : Collaborators}.

Lemma seal_frame t sp w r t' w' :
  seal t sp w = (r, t', w') →
  t' = t ∧
  prefixArrays w' =
    prefixArrays (SortFunc (SortFunc w (TBS.Networks t)) (TBS.UnsafeNetworks t)) ∧
  stringArrays w' = stringArrays w.
Proof.
  unfold seal, fromTBSCertificate, setSignature, allocBytes, alloc.
  repeat match goal with
         | |- context [match ?x with _ => _ end] => destruct x
         end;
    intros [= <- <- <-]; auto.
Qed.

Lemma set_issuer_fields t i :
  TBS.Version (TBS.set_issuer t i) = TBS.Version t ∧
  TBS.Name (TBS.set_issuer t i) = TBS.Name t ∧
  TBS.Networks (TBS.set_issuer t i) = TBS.Networks t ∧
  TBS.UnsafeNetworks (TBS.set_issuer t i) = TBS.UnsafeNetworks t ∧
  TBS.Groups (TBS.set_issuer t i) = TBS.Groups t ∧
  TBS.IsCA (TBS.set_issuer t i) = TBS.IsCA t ∧
  TBS.NotBefore (TBS.set_issuer t i) = TBS.NotBefore t ∧
  TBS.NotAfter (TBS.set_issuer t i) = TBS.NotAfter t ∧
  TBS.PublicKey (TBS.set_issuer t i) = TBS.PublicKey t ∧
  TBS.Curve (TBS.set_issuer t i) = TBS.Curve t ∧
  TBS.issuer (TBS.set_issuer t i) = i.
Proof. repeat split. Qed.

Lemma set_issuer_same t : TBS.set_issuer t (TBS.issuer t) = t.
Proof. destruct t. reflexivity. Qed.

(** What a successful [SignWithPredicate] leaves: the receiver with its
    issuer set, and the store of [seal]. *)
Lemma SignWithPredicate_Ok t signer keyCurve sp w cert t' w' :
  SignWithPredicate t signer keyCurve sp w = (Ok cert, t', w') →
  ∃ iss,
    t' = TBS.set_issuer t iss ∧
    match signer with
    | Some s => Fingerprint_of w s = Ok iss
    | None => iss = TBS.issuer t
    end ∧
    seal (TBS.set_issuer t iss) sp w = (Ok cert, t', w').
Proof.
  intros H. apply SignWithPredicate_inv in H as [_ [(-> & _ & H)|(s & fp & -> & _ & Hf & H)]].
  - exists (TBS.issuer t). rewrite set_issuer_same.
    split; [|split; [reflexivity|exact H]].
    apply seal_frame in H as [-> _]. reflexivity.
  - exists fp. split; [|split; [exact Hf|exact H]].
    apply seal_frame in H as [-> _]. reflexivity.
Qed.

(** C9.  A successful [SignWithPredicate] that returns a version 1
    certificate leaves the receiver changed in one field, the issuer,
    which is the fingerprint of the signer when there is one; the two
    arrays behind its [Networks] and [UnsafeNetworks] hold the sorted
    prefixes; the certificate holds the very slices of the receiver for
    networks, unsafe networks, groups and public key, so that an
    element the caller stores through one of them afterwards is read
    through the certificate. *)
Theorem signing_mutates_and_aliases (t : TBSCertificate)
  (signer : option Certificate) (keyCurve : Z) (sp : SignerPredicate)
  (w : World) (c : certificateV1) (t' : TBSCertificate) (w' : World) :
  SignWithPredicate t signer keyCurve sp w = (Ok (CertV1 c), t', w') →
  (∃ iss, t' = TBS.set_issuer t iss ∧
          match signer with
          | Some s => Fingerprint_of w s = Ok iss
          | None => iss = TBS.issuer t
          end) ∧
  loadPrefixes w' (TBS.Networks t') =
    merge_sort prefix_le (loadPrefixes w (TBS.Networks t)) ∧
  loadPrefixes w' (TBS.UnsafeNetworks t') =
    merge_sort prefix_le (loadPrefixes w (TBS.UnsafeNetworks t)) ∧
  networks (details c) = TBS.Networks t ∧
  unsafeNetworks (details c) = TBS.UnsafeNetworks t ∧
  groups (details c) = TBS.Groups t ∧
  publicKey (details c) = TBS.PublicKey t ∧
  (∀ i v, o_networks (observe (setPrefix w' (TBS.Networks t) i v) c) =
          <[i := v]> (loadPrefixes w' (TBS.Networks t))) ∧
  (∀ i v, o_unsafeNetworks (observe (setPrefix w' (TBS.UnsafeNetworks t) i v) c) =
          <[i := v]> (loadPrefixes w' (TBS.UnsafeNetworks t))) ∧
  (∀ i v, o_groups (observe (setString w' (TBS.Groups t) i v) c) =
          <[i := v]> (loadStrings w' (TBS.Groups t))) ∧
  (∀ i v, o_publicKey (observe (setByte w' (TBS.PublicKey t) i v) c) =
          <[i := v]> (loadBytes w' (TBS.PublicKey t))).
Proof.
  intros H. apply SignWithPredicate_Ok in H as (iss & Ht & Hiss & H).
  pose proof (seal_frame _ _ _ _ _ _ H) as (_ & HP & _).
  apply seal_V1_inv in H as (c0 & certBytes & sig & _ & _ & Hc0 & _ & _ & Hd & _).
  unfold fromTBSCertificate in Hc0. injection Hc0 as <-.
  split; [eauto|]. subst t'. cbn [TBS.Networks TBS.UnsafeNetworks TBS.set_issuer] in *.
  destruct (load_sorted_twice w (TBS.Networks t) (TBS.UnsafeNetworks t)) as [HN HU].
  unfold loadPrefixes in *. rewrite HP.
  split; [exact HN|]. split; [exact HU|].
  unfold observe. rewrite Hd. cbn [details networks unsafeNetworks groups publicKey
    o_networks o_unsafeNetworks o_groups o_publicKey TBS.Networks TBS.UnsafeNetworks
    TBS.Groups TBS.PublicKey].
  repeat (split; [reflexivity|]).
  split; [|split; [|split]]; intros i v.
  - unfold setPrefix, savePrefixes, loadPrefixes. cbn [prefixArrays].
    rewrite ?HP. apply load_save_insert.
  - unfold setPrefix, savePrefixes, loadPrefixes. cbn [prefixArrays].
    rewrite ?HP. apply load_save_insert.
  - unfold setString, loadStrings. cbn [stringArrays]. apply load_save_insert.
  - unfold setByte, saveBytes, loadBytes. cbn [byteArrays]. apply load_save_insert.
Qed.

(** C2.  After a successful [SignWithPredicate] the networks and the
    unsafe networks of the receiver, which are those of a version 1
    certificate it returns, are the prefixes they were before the call
    (a permutation of them), in ascending order of address and, for
    one address, of prefix length.  Two version 1 certificates to be
    signed that differ by a permutation of these two lists only, signed
    with the same issuer from the same store, have the signer
    predicate invoked on the same bytes, the ones [marshalForSigning]
    returned. *)
Theorem canonical_order (t1 t2 : TBSCertificate)
  (signer : option Certificate) (keyCurve : Z) (sp : SignerPredicate)
  (w : World) (cert1 : Certificate) (t1' : TBSCertificate) (w1 : World)
  (cert2 : Certificate) (t2' : TBSCertificate) (w2 : World) :
  SignWithPredicate t1 signer keyCurve sp w = (Ok cert1, t1', w1) →
  (StronglySorted byAddressThenLength (loadPrefixes w1 (TBS.Networks t1')) ∧
   StronglySorted byAddressThenLength (loadPrefixes w1 (TBS.UnsafeNetworks t1')) ∧
   loadPrefixes w1 (TBS.Networks t1') ≡ₚ loadPrefixes w (TBS.Networks t1) ∧
   loadPrefixes w1 (TBS.UnsafeNetworks t1') ≡ₚ
     loadPrefixes w (TBS.UnsafeNetworks t1) ∧
   ∀ c, cert1 = CertV1 c →
        networks (details c) = TBS.Networks t1' ∧
        unsafeNetworks (details c) = TBS.UnsafeNetworks t1') ∧
  (TBS.Version t1 = Version1 →
   t2 = TBS.mk (TBS.Version t1) (TBS.Name t1) (TBS.Networks t2)
          (TBS.UnsafeNetworks t2) (TBS.Groups t1) (TBS.IsCA t1) (TBS.NotBefore t1)
          (TBS.NotAfter t1) (TBS.PublicKey t1) (TBS.Curve t1) (TBS.issuer t1) →
   loadPrefixes w (TBS.Networks t1) ≡ₚ loadPrefixes w (TBS.Networks t2) →
   loadPrefixes w (TBS.UnsafeNetworks t1) ≡ₚ loadPrefixes w (TBS.UnsafeNetworks t2) →
   SignWithPredicate t2 signer keyCurve sp w = (Ok cert2, t2', w2) →
   ∃ c1 c2 certBytes,
     cert1 = CertV1 c1 ∧ cert2 = CertV1 c2 ∧
     marshalForSigning
       (SortFunc (SortFunc w (TBS.Networks t1)) (TBS.UnsafeNetworks t1))
       (mkCertificateV1 (details c1) nilSlice) = Ok certBytes ∧
     marshalForSigning
       (SortFunc (SortFunc w (TBS.Networks t2)) (TBS.UnsafeNetworks t2))
       (mkCertificateV1 (details c2) nilSlice) = Ok certBytes ∧
     signerCalls w1 = certBytes :: signerCalls w ∧
     signerCalls w2 = certBytes :: signerCalls w).
Proof.
  intros H1. pose proof (SignWithPredicate_Ok _ _ _ _ _ _ _ _ H1) as (iss1 & Ht1 & Hiss1 & Hs1).
  split.
  - pose proof (seal_frame _ _ _ _ _ _ Hs1) as (_ & HP & _).
    destruct (load_sorted_twice w (TBS.Networks t1) (TBS.UnsafeNetworks t1)) as [HN HU].
    subst t1'. cbn [TBS.Networks TBS.UnsafeNetworks TBS.set_issuer] in *.
    unfold loadPrefixes in *. rewrite HP, HN, HU.
    split; [apply sorted_byAddressThenLength|].
    split; [apply sorted_byAddressThenLength|].
    split; [apply merge_sort_Permutation|].
    split; [apply merge_sort_Permutation|].
    intros c ->.
    apply seal_V1_inv in Hs1 as (c0 & certBytes & sig & _ & _ & Hc0 & _ & _ & Hd & _).
    unfold fromTBSCertificate in Hc0. injection Hc0 as <-. rewrite Hd. auto.
  - intros Hv Ht2 HpN HpU H2.
    pose proof (SignWithPredicate_Ok _ _ _ _ _ _ _ _ H2) as (iss2 & Ht2' & Hiss2 & Hs2).
    assert (iss2 = iss1) as ->.
    { destruct signer; [congruence|]. rewrite Hiss1, Hiss2, Ht2. reflexivity. }
    assert (Hv2 : TBS.Version t2 = Version1) by (rewrite Ht2; exact Hv).
    assert (V1 : ∀ t sp w r t' w', TBS.Version t = Version1 →
               seal t sp w = (Ok r, t', w') → ∃ c, r = CertV1 c).
    { clear. intros t sp w r t' w' Hv. unfold seal. rewrite Hv, Z.eqb_refl.
      unfold fromTBSCertificate, setSignature.
      repeat match goal with
             | |- context [match ?x with _ => _ end] => destruct x
             end; intros [= <- <- <-]; eauto. }
    destruct (V1 (TBS.set_issuer t1 iss1) _ _ _ _ _ Hv Hs1) as [c1 ->].
    destruct (V1 (TBS.set_issuer t2 iss1) _ _ _ _ _ Hv2 Hs2) as [c2 ->].
    pose proof (f_equal TBS.Name Ht2) as EName.
    pose proof (f_equal TBS.Groups Ht2) as EGroups.
    pose proof (f_equal TBS.NotBefore Ht2) as ENotBefore.
    pose proof (f_equal TBS.NotAfter Ht2) as ENotAfter.
    pose proof (f_equal TBS.PublicKey Ht2) as EPublicKey.
    pose proof (f_equal TBS.IsCA Ht2) as EIsCA.
    pose proof (f_equal TBS.Curve Ht2) as ECurve.
    cbn [TBS.Name TBS.Groups TBS.NotBefore TBS.NotAfter TBS.PublicKey TBS.IsCA TBS.Curve]
      in EName, EGroups, ENotBefore, ENotAfter, EPublicKey, EIsCA, ECurve.
    apply seal_V1_inv in Hs1 as (c01 & b1 & sig1 & _ & _ & Hc1 & Hm1 & _ & Hd1 & Ha1).
    apply seal_V1_inv in Hs2 as (c02 & b2 & sig2 & _ & _ & Hc2 & Hm2 & _ & Hd2 & Ha2).
    unfold fromTBSCertificate in Hc1, Hc2. injection Hc1 as <-. injection Hc2 as <-.
    cbn [TBS.Networks TBS.UnsafeNetworks TBS.set_issuer] in *.
    set (wa := SortFunc (SortFunc w (TBS.Networks t1)) (TBS.UnsafeNetworks t1)) in *.
    set (wb := SortFunc (SortFunc w (TBS.Networks t2)) (TBS.UnsafeNetworks t2)) in *.
    assert (Hb : b2 = b1).
    { assert (E : marshalForSigning wb
                    {| details := details c2; signature := nilSlice |} =
                  marshalForSigning wa
                    {| details := details c1; signature := nilSlice |}).
      { unfold marshalForSigning. f_equal.
        destruct (load_sorted_twice w (TBS.Networks t1) (TBS.UnsafeNetworks t1)) as [HN1 HU1].
        destruct (load_sorted_twice w (TBS.Networks t2) (TBS.UnsafeNetworks t2)) as [HN2 HU2].
        fold wa in HN1, HU1. fold wb in HN2, HU2.
        rewrite Hd1, Hd2.
        apply getRawDetails_ext;
          cbn [details name networks unsafeNetworks groups notBefore notAfter publicKey
               isCA issuer curve];
          rewrite ?EName, ?EGroups, ?ENotBefore, ?ENotAfter, ?EPublicKey, ?EIsCA, ?ECurve;
          try reflexivity.
        - rewrite HN1, HN2. symmetry. apply merge_sort_perm_eq. exact HpN.
        - rewrite HU1, HU2. symmetry. apply merge_sort_perm_eq. exact HpU. }
      rewrite Hd1, Hd2 in E. cbn [details] in E. rewrite Hm1, Hm2 in E. congruence. }
    subst b2. exists c1, c2, b1.
    rewrite Hd1, Hd2. cbn [details].
    split; [reflexivity|]. split; [reflexivity|]. split; [exact Hm1|]. split; [exact Hm2|].
    apply allocBytes_eq in Ha1 as [_ ->]. apply allocBytes_eq in Ha2 as [_ ->].
    split; reflexivity.
Qed.

End Signing.

(** ** The theorems on signing, on a sample *)

Lemma signing_mutates_and_aliases_witness :
  ∃ c t' w',
    SignWithPredicate (PC := wire.codec) (CR := standin.crypto)
      (CO := standin.collaborators)
      sample.ca_tbs None Curve_CURVE25519 sample.sp sample.world
      = (Ok (CertV1 c), t', w') ∧
    loadPrefixes sample.world (TBS.Networks sample.ca_tbs) =
      [sample.net_10_0_0_2; sample.net_10_0_0_1] ∧
    loadPrefixes w' (TBS.Networks t') = [sample.net_10_0_0_1; sample.net_10_0_0_2] ∧
    publicKey (details c) = TBS.PublicKey sample.ca_tbs ∧
    o_publicKey (observe (setByte w' (TBS.PublicKey sample.ca_tbs) 0 xff) c) =
      <[0%nat := xff]> (loadBytes w' (TBS.PublicKey sample.ca_tbs)).
Proof.
  eexists _, _, _. split; [vm_compute; reflexivity|].
  split; [reflexivity|].
  edestruct (signing_mutates_and_aliases (PC := wire.codec) (CR := standin.crypto)
               (CO := standin.collaborators)
               sample.ca_tbs None Curve_CURVE25519 sample.sp sample.world)
    as (_ & HN & _ & _ & _ & _ & HK & _ & _ & _ & HS).
  { vm_compute. reflexivity. }
  split; [rewrite HN; vm_compute; reflexivity|].
  split; [exact HK|]. apply HS.
Defined.

Lemma canonical_order_witness :
  ∃ cert1 t1' w1 cert2 t2' w2,
    SignWithPredicate (PC := wire.codec) (CR := standin.crypto)
      (CO := standin.collaborators)
      sample.ca_tbs None Curve_CURVE25519 sample.sp sample.world
      = (Ok cert1, t1', w1) ∧
    SignWithPredicate (PC := wire.codec) (CR := standin.crypto)
      (CO := standin.collaborators)
      sample.ca_tbs_permuted None Curve_CURVE25519 sample.sp sample.world
      = (Ok cert2, t2', w2) ∧
    loadPrefixes sample.world (TBS.Networks sample.ca_tbs) ≡ₚ
      loadPrefixes sample.world (TBS.Networks sample.ca_tbs_permuted) ∧
    loadPrefixes sample.world (TBS.Networks sample.ca_tbs) ≠
      loadPrefixes sample.world (TBS.Networks sample.ca_tbs_permuted) ∧
    StronglySorted byAddressThenLength (loadPrefixes w1 (TBS.Networks t1')) ∧
    loadPrefixes w1 (TBS.Networks t1') ≡ₚ
      loadPrefixes sample.world (TBS.Networks sample.ca_tbs) ∧
    ∃ certBytes,
      signerCalls w1 = certBytes :: signerCalls sample.world ∧
      signerCalls w2 = certBytes :: signerCalls sample.world.
Proof.
  eexists _, _, _, _, _, _. split; [vm_compute; reflexivity|].
  split; [vm_compute; reflexivity|].
  assert (Hp : loadPrefixes sample.world (TBS.Networks sample.ca_tbs) ≡ₚ
               loadPrefixes sample.world (TBS.Networks sample.ca_tbs_permuted)).
  { change ([sample.net_10_0_0_2; sample.net_10_0_0_1] ≡ₚ
            [sample.net_10_0_0_1; sample.net_10_0_0_2]). apply perm_swap. }
  split; [exact Hp|]. split; [vm_compute; discriminate|].
  edestruct (canonical_order (PC := wire.codec) (CR := standin.crypto)
               (CO := standin.collaborators)
               sample.ca_tbs sample.ca_tbs_permuted None Curve_CURVE25519
               sample.sp sample.world) as [(HS & _ & HP & _) H2].
  { vm_compute. reflexivity. }
  split; [exact HS|]. split; [exact HP|].
  edestruct H2 as (c1 & c2 & certBytes & _ & _ & _ & _ & E1 & E2).
  - reflexivity.
  - reflexivity.
  - exact Hp.
  - reflexivity.
  - vm_compute. reflexivity.
  - exists certBytes. split; [exact E1|exact E2].
Defined.

(** ** Round trips *)

Lemma wrap_int64_ok z : int64_ok (wrap_int64 z).
Proof.
  unfold int64_ok, wrap_int64.
  pose proof (Z.mod_pos_bound (z + 2 ^ 63) (2 ^ 64) ltac:(lia)). lia.
Qed.

Lemma wrap_int64_id z : int64_ok z → wrap_int64 z = z.
Proof.
  unfold int64_ok, wrap_int64. intros H.
  rewrite Z.mod_small by lia. lia.
Qed.

(** The Unix seconds of [time.Unix(sec, 0)] are [sec], whether or not
    the count of seconds since year 1 wrapped around. *)
Lemma Unix_time_Unix sec : int64_ok sec → Unix (time_Unix sec) = sec.
Proof.
  unfold Unix, time_Unix, wrap_int64, int64_ok, unixToInternal. cbn [unixSec].
  intros H.
  pose proof (Z.div_mod (sec + 62135596800 + 2 ^ 63) (2 ^ 64) ltac:(lia)) as Hd.
  set (q := (sec + 62135596800 + 2 ^ 63) / 2 ^ 64) in *.
  set (r := (sec + 62135596800 + 2 ^ 63) mod 2 ^ 64) in *.
  replace (r - 2 ^ 63 - 62135596800 + 2 ^ 63) with (sec + 2 ^ 63 + (- q) * 2 ^ 64)
    by lia.
  rewrite Z_mod_plus_full, Z.mod_small by lia. lia.
Qed.

Section RoundTrip.
Context {PC : ProtoCodec} (laws : ProtoLaws PC) {CR : Crypto} {CO : Collaborators}.

(** What a decoded certificate holds can be encoded again. *)
Lemma decoded_representable b pk w0 c w :
  unmarshalCertificateV1 b pk w0 = (Ok c, w) → representable w c.
Proof.
  intros H. destruct (unmarshal_inv _ _ _ _ _ H)
    as (rc & rd & _ & Hun & Hd & _ & _ & _ & _ & _ & _ & Hi & Hc & HN & HU & _).
  unfold representable. rewrite HN, HU, Hi, Hc.
  split; [apply pairUp_valid|]. split; [apply pairUp_valid|].
  split.
  - unfold canonicalHex. rewrite DecodeString_EncodeToString. reflexivity.
  - apply (unmarshal_ok PC laws) in Hun. unfold pb.certificate_ok in Hun.
    rewrite Hd in Hun. apply Hun.
Qed.

Lemma produced_representable w c : produced w c → representable w c.
Proof.
  intros [b pk w0 H|t signer keyCurve sp w0 t' _ H]; [|exact H].
  eapply decoded_representable. exact H.
Qed.

(** Decoding what [Marshal] wrote, with any slice for the public key. *)
Lemma decode_marshalled w c b pk :
  representable w c → Marshal w c = Ok b →
  ∃ c' w',
    unmarshalCertificateV1 b pk w = (Ok c', w') ∧
    observe w' c' =
      withPublicKey (atSeconds (observe w c))
        (if Nat.ltb 0 (length (loadBytes w pk))
         then copied (loadBytes w pk) (loadBytes w (publicKey (details c)))
         else loadBytes w (publicKey (details c))).
Proof.
  intros (HN & HU & Hi & Hc) HM. unfold Marshal, getRawDetails in HM.
  destruct (appendNetworks_valid _ [] HN) as (ips & Eips & Rips & Lips & Pips).
  destruct (appendNetworks_valid _ [] HU) as (subs & Esubs & Rsubs & Lsubs & Psubs).
  rewrite Eips, Esubs in HM. cbn [mbind result_bind app] in HM.
  rewrite copied_same_length in HM by (rewrite length_replicate; reflexivity).
  set (rd := pb.mkDetails _ _ _ _ _ _ _ _ _ _) in HM.
  set (rc := pb.mkCertificate _ _) in HM.
  assert (Hok : pb.certificate_ok rc).
  { unfold pb.certificate_ok, pb.details_ok. cbn.
    repeat split; auto using wrap_int64_ok; apply wrap_int64_ok || apply Hc. }
  pose proof (unmarshal_marshal PC laws rc b Hok HM) as Hun.
  assert (Hb : b ≠ []).
  { apply (marshal_nonempty PC laws rc b HM). cbn. eauto. }
  destruct (unmarshal_total b pk w rc rd Hb Hun eq_refl Lips Lsubs) as (c' & w' & Hrun).
  exists c', w'. split; [exact Hrun|].
  destruct (unmarshal_inv _ _ _ _ _ Hrun)
    as (rc' & rd' & _ & Hun' & Hd' & _ & _ & Hn & Hnb & Hna & Hca & His & Hcv &
        HN' & HU' & HG' & HS' & HK').
  rewrite Hun in Hun'. injection Hun' as <-. cbn in Hd'. injection Hd' as <-.
  unfold observe, atSeconds, withPublicKey.
  cbn [o_version o_curve o_name o_networks o_unsafeNetworks o_groups o_isCA o_issuer
       o_notBefore o_notAfter o_publicKey o_signature].
  rewrite Hn, Hnb, Hna, Hca, His, Hcv, HN', HU', HG', HS'.
  cbn [rd rc pb.Name pb.Ips pb.Subnets pb.Groups pb.NotBefore pb.NotAfter
       pb.PublicKey pb.IsCA pb.Issuer pb.Curve pb.Signature pb.Details].
  rewrite Pips, Psubs, Hi.
  f_equal.
  destruct (Nat.ltb 0 (length (loadBytes w pk))).
  - destruct HK' as [-> HK']. exact HK'.
  - exact HK'.
Qed.

End RoundTrip.

Section RoundTripClaims.
Context {PC : ProtoCodec} (laws : ProtoLaws PC) {CR : Crypto} {CO : Collaborators}.

(** C1, as the code has it.  Take a certificate decoded by
    [unmarshalCertificateV1], or sealed by signing with networks and
    unsafe networks that are valid IPv4 prefixes and an issuer that is
    a fingerprint or empty.  Whenever [Marshal] returns bytes for it,
    decoding them without a public key of the caller succeeds, and the
    certificate decoded is observed as the original is: the same
    version, curve, name, networks, unsafe networks in the same order,
    groups, CA flag, issuer, public key and signature, and the two
    times of the original at whole Unix seconds. *)
Theorem marshal_unmarshal_roundtrip (w : World) (c : certificateV1) (b : bytes) :
  produced w c →
  Marshal w c = Ok b →
  ∃ c' w',
    unmarshalCertificateV1 b nilSlice w = (Ok c', w') ∧
    observe w' c' = atSeconds (observe w c).
Proof.
  intros Hp HM.
  destruct (decode_marshalled laws w c b nilSlice (produced_representable laws w c Hp) HM)
    as (c' & w' & Hrun & Hobs).
  exists c', w'. split; [exact Hrun|]. rewrite Hobs. reflexivity.
Qed.

Lemma set_publicKey_restore c :
  set_publicKey (set_publicKey c nilSlice) (publicKey (details c)) = c.
Proof. destruct c as [[] ?]. reflexivity. Qed.

(** C6, as the code has it.  When [MarshalForHandshakes] returns bytes,
    the receiver is left as it was, public key included; and if its
    networks and unsafe networks are valid IPv4 prefixes and its issuer
    is a fingerprint or empty, decoding these bytes with its public key
    supplied gives a certificate observed as the receiver is, the two
    times at whole Unix seconds. *)
Theorem handshake_form (w : World) (c : certificateV1) (b : bytes)
  (c1 : certificateV1) :
  MarshalForHandshakes w c = (Ok b, c1) →
  c1 = c ∧
  (representable w c →
   ∃ c' w',
     unmarshalCertificateV1 b (publicKey (details c)) w = (Ok c', w') ∧
     observe w' c' = atSeconds (observe w c)).
Proof.
  unfold MarshalForHandshakes.
  destruct (Marshal w (set_publicKey c nilSlice)) as [raw| |] eqn:HM; try discriminate.
  intros [= <- <-]. split; [apply set_publicKey_restore|].
  intros Hr.
  destruct (decode_marshalled laws w (set_publicKey c nilSlice) raw
              (publicKey (details c)) Hr HM) as (c' & w' & Hrun & Hobs).
  exists c', w'. split; [exact Hrun|]. rewrite Hobs.
  unfold withPublicKey, atSeconds, observe.
  cbn [o_version o_curve o_name o_networks o_unsafeNetworks o_groups o_isCA o_issuer
       o_notBefore o_notAfter o_publicKey o_signature set_publicKey details signature
       name networks unsafeNetworks groups notBefore notAfter publicKey isCA issuer curve].
  f_equal. change (loadBytes w nilSlice) with (@nil byte). rewrite copied_nil.
  destruct (loadBytes w (publicKey (details c))); reflexivity.
Qed.

End RoundTripClaims.

(** ** The protobuf codec keeps the contract *)

Section WireParsing.
Import wire.

Lemma land_127 n : 0 <= n → Z.land n 127 = n mod 128.
Proof. intros H. change 127 with (Z.ones 7). rewrite Z.land_ones by lia. reflexivity. Qed.

Lemma lor_128 m : 0 <= m < 128 → Z.lor m 128 = 128 + m.
Proof.
  intros H. rewrite Z.lor_comm. change 128 with (1 * 2 ^ 7) at 1.
  rewrite lor_mul_add by lia. lia.
Qed.

Lemma getVarint_putVarint fuel : ∀ n rest,
  (0 < fuel)%nat → 0 <= n < 2 ^ (7 * Z.of_nat fuel - 6) →
  getVarint fuel (putVarint fuel n ++ rest) = Some (n, rest).
Proof.
  induction fuel as [|fuel IH]; intros n rest Hf Hn; [lia|].
  cbn [putVarint getVarint].
  destruct (n <? 128) eqn:E.
  - apply Z.ltb_lt in E. cbn [app].
    rewrite byte_to_of_Z, Z.mod_small by lia. rewrite (proj2 (Z.ltb_lt _ _) E).
    destruct fuel as [|fuel]; [|reflexivity].
    cbn [Nat.eqb andb]. change (7 * Z.of_nat 1 - 6) with 1 in Hn.
    rewrite (proj2 (Z.ltb_ge 1 n)) by lia. reflexivity.
  - apply Z.ltb_ge in E. cbn [app].
    pose proof (Z.mod_pos_bound n 128 ltac:(lia)) as Hm.
    rewrite byte_to_of_Z, land_127, lor_128 by lia.
    rewrite (Z.mod_small (128 + _)) by lia.
    rewrite (proj2 (Z.ltb_ge _ 128)) by lia.
    destruct fuel as [|fuel].
    { change (7 * Z.of_nat 1 - 6) with 1 in Hn. lia. }
    rewrite IH.
    + cbn [mbind option_bind]. f_equal. f_equal.
      rewrite land_127 by lia.
      rewrite Z.shiftr_div_pow2, Z.shiftl_mul_pow2 by lia.
      change (2 ^ 7) with 128.
      replace ((128 + n mod 128) mod 128) with (n mod 128)
        by (rewrite Z.add_comm, <- Z.add_mod_idemp_r, Z.mod_same, Z.add_0_r, Z.mod_mod by lia;
            reflexivity).
      pose proof (Z.div_mod n 128 ltac:(lia)). lia.
    + lia.
    + rewrite Z.shiftr_div_pow2 by lia. change (2 ^ 7) with 128. split.
      * apply Z.div_pos; lia.
      * apply Z.div_lt_upper_bound; [lia|].
        replace (7 * Z.of_nat (S (S fuel)) - 6) with (7 + (7 * Z.of_nat (S fuel) - 6)) in Hn by lia.
        rewrite Z.pow_add_r in Hn by lia. change (2 ^ 7) with 128 in Hn. lia.
Qed.

(** A value of 64 bits reads back from its varint. *)
Lemma consumeVarint_appendVarint n rest :
  0 <= n < 2 ^ 64 → consumeVarint (appendVarint n ++ rest) = Some (n, rest).
Proof. intros H. apply getVarint_putVarint; [lia|exact H]. Qed.

Lemma appendVarint_cons n : ∃ x xs, appendVarint n = x :: xs.
Proof. unfold appendVarint. cbn [putVarint]. destruct (n <? 128); eauto. Qed.

Lemma getVarint_range fuel : ∀ b n rest,
  getVarint fuel b = Some (n, rest) →
  0 <= n ∧ (length rest < length b)%nat.
Proof.
  induction fuel as [|fuel IH]; intros b n rest; [discriminate|].
  destruct b as [|v b]; [discriminate|]. cbn [getVarint].
  pose proof (byte_to_Z_range v) as Hv.
  destruct (byte_to_Z v <? 128).
  - destruct (_ && _); [discriminate|]. intros [= <- <-]. simpl. lia.
  - destruct (getVarint fuel b) as [[y r]|] eqn:E; [|discriminate].
    cbn [mbind option_bind]. intros [= <- <-].
    apply IH in E as [Hy Hl]. split.
    + assert (0 <= Z.land (byte_to_Z v) 127) by (apply Z.land_nonneg; lia).
      assert (0 <= Z.shiftl y 7) by (apply Z.shiftl_nonneg; lia). lia.
    + simpl. lia.
Qed.

Lemma consumeFields_S fuel b :
  b ≠ [] →
  consumeFields (S fuel) b =
    '(tg, r) ← consumeVarint b;
    let num := Z.shiftr tg 3 in
    let wt := Z.land tg 7 in
    if (num <? 1) || (2 ^ 29 <=? num) then None
    else if wt =? 0 then
      '(n, r) ← consumeVarint r;
      fs ← consumeFields fuel r; Some ((num, VarintV n) :: fs)
    else if wt =? 1 then
      '(v, r) ← splitAt 8 r;
      fs ← consumeFields fuel r; Some ((num, Fixed64V v) :: fs)
    else if wt =? 2 then
      '(n, r) ← consumeVarint r;
      '(v, r) ← splitAt (Z.to_nat n) r;
      fs ← consumeFields fuel r; Some ((num, LenV v) :: fs)
    else if wt =? 5 then
      '(v, r) ← splitAt 4 r;
      fs ← consumeFields fuel r; Some ((num, Fixed32V v) :: fs)
    else None.
Proof. destruct b; [congruence|reflexivity]. Qed.

Lemma tag_split num wt :
  0 <= num → 0 <= wt < 8 →
  Z.shiftr (Z.lor (Z.shiftl num 3) wt) 3 = num ∧
  Z.land (Z.lor (Z.shiftl num 3) wt) 7 = wt.
Proof.
  intros Hn Hw. rewrite Z.shiftl_mul_pow2 by lia.
  rewrite lor_mul_add by (change (2 ^ 3) with 8; lia).
  change 7 with (Z.ones 3). rewrite Z.land_ones, Z.shiftr_div_pow2 by lia.
  change (2 ^ 3) with 8. split.
  - rewrite Z.add_comm. rewrite Z.div_add by lia. rewrite Z.div_small by lia. lia.
  - rewrite Z.add_comm. rewrite Z.mod_add by lia. apply Z.mod_small. lia.
Qed.

Lemma splitAt_app (v r : bytes) : splitAt (length v) (v ++ r) = Some (v, r).
Proof.
  unfold splitAt. rewrite length_app.
  rewrite (proj2 (Nat.leb_le _ _)) by lia.
  rewrite take_app_length, drop_app_length. reflexivity.
Qed.

Lemma wireType_range v : 0 <= wireType v < 8.
Proof. destruct v; simpl; lia. Qed.

Lemma length_appendField f : (1 <= length (appendField f))%nat.
Proof.
  destruct f as [num v]. unfold appendField.
  destruct (appendVarint_cons (Z.lor (Z.shiftl num 3) (wireType v))) as (x & xs & ->).
  simpl. lia.
Qed.

(** Parsing what the encoder wrote gives the fields back. *)
Lemma consumeFields_appendFields fs : ∀ fuel,
  Forall fieldOk fs → (length (appendFields fs) <= fuel)%nat →
  consumeFields fuel (appendFields fs) = Some fs.
Proof.
  induction fs as [|f fs IH]; intros fuel Hok Hlen.
  - destruct fuel; reflexivity.
  - inversion Hok as [|? ? Hf Hfs]; subst.
    unfold appendFields in *. cbn [map concat] in *.
    fold (appendFields fs) in *.
    pose proof (length_appendField f) as Hl1.
    rewrite length_app in Hlen.
    destruct fuel as [|fuel]; [lia|].
    rewrite consumeFields_S.
    2:{ intros E. apply (f_equal length) in E. rewrite length_app in E. simpl in E. lia. }
    destruct f as [num v]. destruct Hf as [Hnum Hv]. cbn [fst snd] in Hnum, Hv.
    unfold appendField. rewrite <- app_assoc.
    assert (Htag : 0 <= Z.lor (Z.shiftl num 3) (wireType v) < 2 ^ 64).
    { pose proof (wireType_range v). rewrite Z.shiftl_mul_pow2 by lia.
      rewrite lor_mul_add by (change (2 ^ 3) with 8; lia).
      change (2 ^ 3) with 8. lia. }
    rewrite consumeVarint_appendVarint by exact Htag.
    cbn [mbind option_bind].
    destruct (tag_split num (wireType v) ltac:(lia) (wireType_range v)) as [-> ->].
    assert (H1 : (num <? 1) = false) by (apply Z.ltb_ge; lia).
    assert (H2 : (2 ^ 29 <=? num) = false) by (apply Z.leb_gt; lia).
    rewrite H1, H2.
    cbn [orb].
    assert (Hrest : consumeFields fuel (appendFields fs) = Some fs).
    { apply IH; [exact Hfs|lia]. }
    destruct v as [n|b|b|b]; cbn [wireType Z.eqb Pos.eqb].
    + rewrite <- app_assoc || idtac.
      rewrite consumeVarint_appendVarint by exact Hv. cbn [mbind option_bind].
      rewrite Hrest. reflexivity.
    + rewrite <- Hv, splitAt_app. cbn [mbind option_bind]. rewrite Hrest. reflexivity.
    + rewrite <- app_assoc.
      rewrite consumeVarint_appendVarint by lia. cbn [mbind option_bind].
      rewrite Nat2Z.id, splitAt_app. cbn [mbind option_bind]. rewrite Hrest. reflexivity.
    + rewrite <- Hv, splitAt_app. cbn [mbind option_bind]. rewrite Hrest. reflexivity.
Qed.

Lemma parse_appendFields fs :
  Forall fieldOk fs → parse (appendFields fs) = Some fs.
Proof. intros H. apply consumeFields_appendFields; [exact H|lia]. Qed.

End WireParsing.

Section WireMessages.
Import wire.

Lemma appendPacked_cons n l : appendPacked (n :: l) = appendVarint n ++ appendPacked l.
Proof. reflexivity. Qed.

Lemma consumePacked_appendPacked l : ∀ fuel,
  Forall uint32_ok l → (length (appendPacked l) <= fuel)%nat →
  consumePacked fuel (appendPacked l) = Some l.
Proof.
  induction l as [|n l IH]; intros fuel Hok Hlen.
  - destruct fuel; reflexivity.
  - inversion Hok as [|? ? Hn Hl]; subst. unfold uint32_ok in Hn.
    rewrite appendPacked_cons in *.
    destruct (appendVarint_cons n) as (x & xs & E).
    rewrite length_app, E in Hlen. cbn [length] in Hlen.
    destruct fuel as [|fuel]; [lia|].
    assert (Hu : consumePacked (S fuel) (appendVarint n ++ appendPacked l) =
                 '(n, r) ← consumeVarint (appendVarint n ++ appendPacked l);
                 l ← consumePacked fuel r; Some (n mod 2 ^ 32 :: l)).
    { rewrite E. reflexivity. }
    rewrite Hu, consumeVarint_appendVarint by lia. cbn [mbind option_bind].
    rewrite IH by (assumption || lia). cbn [mbind option_bind].
    rewrite Z.mod_small by lia. reflexivity.
Qed.

Lemma consumePacked_ok fuel : ∀ b l, consumePacked fuel b = Some l → Forall uint32_ok l.
Proof.
  induction fuel as [|fuel IH]; intros b l.
  - destruct b; [intros [= <-]; constructor|discriminate].
  - destruct b as [|x b]; [intros [= <-]; constructor|].
    cbn [consumePacked].
    destruct (consumeVarint (x :: b)) as [[n r]|]; [|discriminate].
    cbn [mbind option_bind].
    destruct (consumePacked fuel r) as [l'|] eqn:E; [|discriminate].
    cbn [mbind option_bind]. intros [= <-]. constructor; [|eapply IH; exact E].
    unfold uint32_ok. apply Z.mod_pos_bound. lia.
Qed.

Lemma mergeAll_app {M} (step : M → field → option M) m fs1 fs2 :
  mergeAll step m (fs1 ++ fs2) = m' ← mergeAll step m fs1; mergeAll step m' fs2.
Proof.
  revert m. induction fs1 as [|f fs1 IH]; intros m; [reflexivity|].
  cbn [app mergeAll]. destruct (step m f) as [m'|]; [|reflexivity].
  cbn [mbind option_bind]. apply IH.
Qed.

Lemma mergeAll_when {M} (step : M → field → option M) m c f rest :
  mergeAll step m (when c f ++ rest) =
  if c then m' ← step m f; mergeAll step m' rest else mergeAll step m rest.
Proof. destruct c; reflexivity. Qed.

Lemma wrap_int32_id z : int32_ok z → wrap_int32 (z mod 2 ^ 64) = z.
Proof.
  unfold int32_ok, wrap_int32. intros H.
  destruct (Z_lt_le_dec z 0).
  - replace (z mod 2 ^ 64) with (z + 2 ^ 64).
    2:{ symmetry. rewrite <- (Z.mod_add z 1 (2 ^ 64)) by lia.
        rewrite Z.mul_1_l. apply Z.mod_small. lia. }
    replace (z + 2 ^ 64 + 2 ^ 31) with (z + 2 ^ 31 + 2 ^ 32 * 2 ^ 32) by lia.
    rewrite Z.mod_add by lia. rewrite Z.mod_small by lia. lia.
  - rewrite (Z.mod_small z) by lia. rewrite Z.mod_small by lia. lia.
Qed.

Lemma wrap_int64_mod z : int64_ok z → wrap_int64 (z mod 2 ^ 64) = z.
Proof.
  unfold int64_ok, wrap_int64. intros H.
  destruct (Z_lt_le_dec z 0).
  - replace (z mod 2 ^ 64) with (z + 2 ^ 64).
    2:{ symmetry. rewrite <- (Z.mod_add z 1 (2 ^ 64)) by lia.
        rewrite Z.mul_1_l. apply Z.mod_small. lia. }
    replace (z + 2 ^ 64 + 2 ^ 63) with (z + 2 ^ 63 + 1 * 2 ^ 64) by lia.
    rewrite Z.mod_add by lia. rewrite Z.mod_small by lia. lia.
  - rewrite (Z.mod_small z) by lia. rewrite Z.mod_small by lia. lia.
Qed.

Lemma wrap_int32_ok z : int32_ok (wrap_int32 z).
Proof.
  unfold int32_ok, wrap_int32.
  pose proof (Z.mod_pos_bound (z + 2 ^ 31) (2 ^ 32) ltac:(lia)). lia.
Qed.

Section Merge.
Variables (nm : string) (ips subs : list Z) (grps : list string) (nb na : Z)
  (pk : bytes) (ca : bool) (iss : bytes) (cv : Z).

Lemma merge_Name b :
  mergeDetails (pb.mkDetails nm ips subs grps nb na pk ca iss cv) (f_Name, LenV b) =
  if utf8_Valid b
  then Some (pb.mkDetails (string_of_list_byte b) ips subs grps nb na pk ca iss cv)
  else None.
Proof. reflexivity. Qed.

Lemma merge_Ips b :
  mergeDetails (pb.mkDetails nm ips subs grps nb na pk ca iss cv) (f_Ips, LenV b) =
  l ← consumePacked (length b) b;
  Some (pb.mkDetails nm (ips ++ l) subs grps nb na pk ca iss cv).
Proof. reflexivity. Qed.

Lemma merge_Subnets b :
  mergeDetails (pb.mkDetails nm ips subs grps nb na pk ca iss cv) (f_Subnets, LenV b) =
  l ← consumePacked (length b) b;
  Some (pb.mkDetails nm ips (subs ++ l) grps nb na pk ca iss cv).
Proof. reflexivity. Qed.

Lemma merge_Groups b :
  mergeDetails (pb.mkDetails nm ips subs grps nb na pk ca iss cv) (f_Groups, LenV b) =
  if utf8_Valid b
  then Some (pb.mkDetails nm ips subs (grps ++ [string_of_list_byte b]) nb na pk ca iss cv)
  else None.
Proof. reflexivity. Qed.

Lemma merge_NotBefore n :
  mergeDetails (pb.mkDetails nm ips subs grps nb na pk ca iss cv) (f_NotBefore, VarintV n) =
  Some (pb.mkDetails nm ips subs grps (wrap_int64 n) na pk ca iss cv).
Proof. reflexivity. Qed.

Lemma merge_NotAfter n :
  mergeDetails (pb.mkDetails nm ips subs grps nb na pk ca iss cv) (f_NotAfter, VarintV n) =
  Some (pb.mkDetails nm ips subs grps nb (wrap_int64 n) pk ca iss cv).
Proof. reflexivity. Qed.

Lemma merge_PublicKey b :
  mergeDetails (pb.mkDetails nm ips subs grps nb na pk ca iss cv) (f_PublicKey, LenV b) =
  Some (pb.mkDetails nm ips subs grps nb na b ca iss cv).
Proof. reflexivity. Qed.

Lemma merge_IsCA n :
  mergeDetails (pb.mkDetails nm ips subs grps nb na pk ca iss cv) (f_IsCA, VarintV n) =
  Some (pb.mkDetails nm ips subs grps nb na pk (negb (n =? 0)) iss cv).
Proof. reflexivity. Qed.

Lemma merge_Issuer b :
  mergeDetails (pb.mkDetails nm ips subs grps nb na pk ca iss cv) (f_Issuer, LenV b) =
  Some (pb.mkDetails nm ips subs grps nb na pk ca b cv).
Proof. reflexivity. Qed.

Lemma merge_Curve n :
  mergeDetails (pb.mkDetails nm ips subs grps nb na pk ca iss cv) (f_Curve, VarintV n) =
  Some (pb.mkDetails nm ips subs grps nb na pk ca iss (wrap_int32 n)).
Proof. reflexivity. Qed.

End Merge.

Lemma mergeAll_groups nm ips subs nb na pk ca iss cv rest : ∀ grps acc,
  forallb validString grps = true →
  mergeAll mergeDetails (pb.mkDetails nm ips subs acc nb na pk ca iss cv)
    (map (fun g => (f_Groups, LenV (list_byte_of_string g))) grps ++ rest) =
  mergeAll mergeDetails (pb.mkDetails nm ips subs (acc ++ grps) nb na pk ca iss cv) rest.
Proof.
  induction grps as [|g grps IH]; intros acc Hv.
  - rewrite app_nil_r. reflexivity.
  - cbn [forallb] in Hv. apply andb_true_iff in Hv as [Hg Hv].
    cbn [map app mergeAll]. rewrite merge_Groups.
    unfold validString in Hg. rewrite Hg.
    rewrite string_of_list_byte_of_string. cbn [mbind option_bind].
    rewrite IH by exact Hv. rewrite <- app_assoc. reflexivity.
Qed.

Lemma length_zero_nil {A} (l : list A) : Nat.eqb (length l) 0 = true → l = [].
Proof. destruct l; [reflexivity|discriminate]. Qed.

(** The size of a field is at least that of its payload. *)
Lemma length_payload num b fs :
  In (num, LenV b) fs → (length b <= length (appendFields fs))%nat.
Proof.
  induction fs as [|f fs IH]; [intros []|].
  unfold appendFields in *. cbn [map concat]. rewrite length_app.
  intros [->|H]; [|specialize (IH H); lia].
  unfold appendField. rewrite !length_app. lia.
Qed.

(** Merging the fields of a message into the zero message gives the
    message. *)
Lemma mergeAll_detailsFields d :
  detailsValid d = true → pb.details_ok d →
  mergeAll mergeDetails zeroDetails (detailsFields d) = Some d.
Proof.
  destruct d as [nm ips subs grps nb na pk ca iss cv].
  unfold detailsValid, pb.details_ok, detailsFields.
  cbn [pb.Name pb.Ips pb.Subnets pb.Groups pb.NotBefore pb.NotAfter pb.PublicKey
       pb.IsCA pb.Issuer pb.Curve].
  set (rest1 := when (negb (Nat.eqb (length ips) 0)) _ ++ _).
  intros Hv (Hips & Hsubs & Hnb & Hna & Hcv).
  apply andb_true_iff in Hv as [Hnm Hgr]. unfold validString in Hnm.
  unfold zeroDetails.
  (* the name *)
  rewrite mergeAll_when.
  assert (E1 :
    (if negb (String.eqb nm EmptyString)
     then m' ← mergeDetails (pb.mkDetails EmptyString [] [] [] 0 0 [] false [] 0)
                  (f_Name, LenV (list_byte_of_string nm));
          mergeAll mergeDetails m' rest1
     else mergeAll mergeDetails (pb.mkDetails EmptyString [] [] [] 0 0 [] false [] 0) rest1)
    = mergeAll mergeDetails (pb.mkDetails nm [] [] [] 0 0 [] false [] 0) rest1).
  { destruct (String.eqb nm EmptyString) eqn:E; cbn [negb].
    - apply String.eqb_eq in E. subst nm. reflexivity.
    - rewrite merge_Name, Hnm, string_of_list_byte_of_string. reflexivity. }
  rewrite E1. clear E1. unfold rest1 in *. clear rest1.
  (* the networks *)
  set (rest2 := when (negb (Nat.eqb (length subs) 0)) _ ++ _) in *.
  rewrite mergeAll_when.
  assert (E2 :
    (if negb (Nat.eqb (length ips) 0)
     then m' ← mergeDetails (pb.mkDetails nm [] [] [] 0 0 [] false [] 0)
                  (f_Ips, LenV (appendPacked ips));
          mergeAll mergeDetails m' rest2
     else mergeAll mergeDetails (pb.mkDetails nm [] [] [] 0 0 [] false [] 0) rest2)
    = mergeAll mergeDetails (pb.mkDetails nm ips [] [] 0 0 [] false [] 0) rest2).
  { destruct (Nat.eqb (length ips) 0) eqn:E; cbn [negb].
    - apply length_zero_nil in E. subst ips. reflexivity.
    - rewrite merge_Ips, consumePacked_appendPacked by (assumption || lia). reflexivity. }
  rewrite E2. clear E2. unfold rest2 in *. clear rest2.
  (* the unsafe networks *)
  set (rest3 := map _ grps ++ _) in *.
  rewrite mergeAll_when.
  assert (E3 :
    (if negb (Nat.eqb (length subs) 0)
     then m' ← mergeDetails (pb.mkDetails nm ips [] [] 0 0 [] false [] 0)
                  (f_Subnets, LenV (appendPacked subs));
          mergeAll mergeDetails m' rest3
     else mergeAll mergeDetails (pb.mkDetails nm ips [] [] 0 0 [] false [] 0) rest3)
    = mergeAll mergeDetails (pb.mkDetails nm ips subs [] 0 0 [] false [] 0) rest3).
  { destruct (Nat.eqb (length subs) 0) eqn:E; cbn [negb].
    - apply length_zero_nil in E. subst subs. reflexivity.
    - rewrite merge_Subnets, consumePacked_appendPacked by (assumption || lia). reflexivity. }
  rewrite E3. clear E3. unfold rest3 in *. clear rest3.
  (* the groups *)
  rewrite mergeAll_groups by exact Hgr. rewrite app_nil_l.
  (* the scalars *)
  rewrite mergeAll_when.
  assert (E5 : ∀ rest,
    (if negb (nb =? 0)
     then m' ← mergeDetails (pb.mkDetails nm ips subs grps 0 0 [] false [] 0)
                  (f_NotBefore, VarintV (nb mod 2 ^ 64));
          mergeAll mergeDetails m' rest
     else mergeAll mergeDetails (pb.mkDetails nm ips subs grps 0 0 [] false [] 0) rest)
    = mergeAll mergeDetails (pb.mkDetails nm ips subs grps nb 0 [] false [] 0) rest).
  { intros rest. destruct (nb =? 0) eqn:E; cbn [negb].
    - apply Z.eqb_eq in E. subst nb. reflexivity.
    - rewrite merge_NotBefore, wrap_int64_mod by exact Hnb. reflexivity. }
  rewrite E5. clear E5.
  rewrite mergeAll_when.
  assert (E6 : ∀ rest,
    (if negb (na =? 0)
     then m' ← mergeDetails (pb.mkDetails nm ips subs grps nb 0 [] false [] 0)
                  (f_NotAfter, VarintV (na mod 2 ^ 64));
          mergeAll mergeDetails m' rest
     else mergeAll mergeDetails (pb.mkDetails nm ips subs grps nb 0 [] false [] 0) rest)
    = mergeAll mergeDetails (pb.mkDetails nm ips subs grps nb na [] false [] 0) rest).
  { intros rest. destruct (na =? 0) eqn:E; cbn [negb].
    - apply Z.eqb_eq in E. subst na. reflexivity.
    - rewrite merge_NotAfter, wrap_int64_mod by exact Hna. reflexivity. }
  rewrite E6. clear E6.
  rewrite mergeAll_when.
  assert (E7 : ∀ rest,
    (if negb (Nat.eqb (length pk) 0)
     then m' ← mergeDetails (pb.mkDetails nm ips subs grps nb na [] false [] 0)
                  (f_PublicKey, LenV pk);
          mergeAll mergeDetails m' rest
     else mergeAll mergeDetails (pb.mkDetails nm ips subs grps nb na [] false [] 0) rest)
    = mergeAll mergeDetails (pb.mkDetails nm ips subs grps nb na pk false [] 0) rest).
  { intros rest. destruct (Nat.eqb (length pk) 0) eqn:E; cbn [negb].
    - apply length_zero_nil in E. subst pk. reflexivity.
    - rewrite merge_PublicKey. reflexivity. }
  rewrite E7. clear E7.
  rewrite mergeAll_when.
  assert (E8 : ∀ rest,
    (if ca
     then m' ← mergeDetails (pb.mkDetails nm ips subs grps nb na pk false [] 0)
                  (f_IsCA, VarintV 1);
          mergeAll mergeDetails m' rest
     else mergeAll mergeDetails (pb.mkDetails nm ips subs grps nb na pk false [] 0) rest)
    = mergeAll mergeDetails (pb.mkDetails nm ips subs grps nb na pk ca [] 0) rest).
  { intros rest. destruct ca; reflexivity. }
  rewrite E8. clear E8.
  rewrite mergeAll_when.
  assert (E9 : ∀ rest,
    (if negb (Nat.eqb (length iss) 0)
     then m' ← mergeDetails (pb.mkDetails nm ips subs grps nb na pk ca [] 0)
                  (f_Issuer, LenV iss);
          mergeAll mergeDetails m' rest
     else mergeAll mergeDetails (pb.mkDetails nm ips subs grps nb na pk ca [] 0) rest)
    = mergeAll mergeDetails (pb.mkDetails nm ips subs grps nb na pk ca iss 0) rest).
  { intros rest. destruct (Nat.eqb (length iss) 0) eqn:E; cbn [negb].
    - apply length_zero_nil in E. subst iss. reflexivity.
    - rewrite merge_Issuer. reflexivity. }
  rewrite E9. clear E9.
  unfold when. destruct (cv =? 0) eqn:E; cbn [negb mergeAll].
  - apply Z.eqb_eq in E. subst cv. reflexivity.
  - rewrite merge_Curve, wrap_int32_id by exact Hcv. reflexivity.
Qed.

Lemma In_when c (f x : field) : In x (when c f) → x = f.
Proof. destruct c; simpl; intuition. Qed.

Lemma detailsFields_ok d :
  Z.of_nat (length (appendFields (detailsFields d))) < 2 ^ 64 →
  Forall fieldOk (detailsFields d).
Proof.
  intros Hsize. apply Forall_forall. intros [num v] Hin.
  apply list_elem_of_In in Hin.
  assert (Hlen : match v with
                 | LenV b => Z.of_nat (length b) < 2 ^ 64
                 | _ => True
                 end).
  { destruct v as [n|b|b|b]; try exact I.
    pose proof (length_payload _ _ _ Hin). lia. }
  unfold detailsFields in Hin. rewrite !in_app_iff in Hin.
  assert (Hm : ∀ z, 0 <= z mod 2 ^ 64 < 2 ^ 64) by (intros z; apply Z.mod_pos_bound; lia).
  unfold fieldOk. cbn [fst snd].
  repeat (destruct Hin as [Hin|Hin];
          [first [apply In_when in Hin; injection Hin as -> ->
                 |apply in_map_iff in Hin as (g & [= <- <-] & _)];
           first [split; [vm_compute; split; [discriminate|reflexivity]|exact Hlen]
                 |split; [vm_compute; split; [discriminate|reflexivity]|apply Hm]
                 |split; [vm_compute; split; [discriminate|reflexivity]|lia]]|]).
  apply In_when in Hin. injection Hin as -> ->.
  split; [vm_compute; split; [discriminate|reflexivity]|apply Hm].
Qed.

Lemma unmarshalDetails_appendFields d :
  detailsValid d = true → pb.details_ok d →
  Z.of_nat (length (appendFields (detailsFields d))) < 2 ^ 64 →
  unmarshalDetails zeroDetails (appendFields (detailsFields d)) = Some d.
Proof.
  intros Hv Hok Hsize. unfold unmarshalDetails.
  rewrite parse_appendFields by (apply detailsFields_ok; exact Hsize).
  cbn [mbind option_bind]. apply mergeAll_detailsFields; assumption.
Qed.

Lemma sized_Ok b b' : sized b = Ok b' → b' = b ∧ Z.of_nat (length b) < 2 ^ 31.
Proof.
  unfold sized. destruct (_ <? _) eqn:E; [|discriminate].
  intros [= <-]. apply Z.ltb_lt in E. auto.
Qed.

(** What [marshal] wrote, [unmarshal] reads. *)
Lemma unmarshal_marshal_wire rc b :
  pb.certificate_ok rc → marshal rc = Ok b → unmarshal b = Ok rc.
Proof.
  destruct rc as [[d|] sg]; unfold pb.certificate_ok, marshal;
    cbn [pb.Details pb.Signature].
  - intros Hok. destruct (detailsValid d) eqn:Hv; [|discriminate].
    cbn [mbind result_bind]. intros Hs. apply sized_Ok in Hs as [-> Hsize].
    unfold unmarshal.
    set (inner := appendFields (detailsFields d)) in *.
    unfold certificateFields in *. cbn [pb.Details pb.Signature] in *.
    rewrite bool_decide_eq_true_2 in * by eauto. cbn [when app] in *.
    assert (Hin : (length inner <= length (appendFields
                     ((f_Details, LenV inner) ::
                      when (negb (Nat.eqb (length sg) 0)) (f_Signature, LenV sg))))%nat).
    { apply (length_payload f_Details). left. reflexivity. }
    rewrite parse_appendFields.
    2:{ constructor.
        - split; [vm_compute; split; [discriminate|reflexivity]|]. cbn [snd]. lia.
        - destruct (Nat.eqb (length sg) 0) eqn:E; cbn [negb when]; constructor; [|constructor].
          split; [vm_compute; split; [discriminate|reflexivity]|]. cbn [snd].
          pose proof (length_payload f_Signature sg
                        ((f_Details, LenV inner) :: [(f_Signature, LenV sg)])
                        ltac:(right; left; reflexivity)) as Hl.
          rewrite ?E in Hsize. cbn [negb when] in Hsize. lia. }
    cbn [mbind option_bind mergeAll].
    assert (Hd : mergeCertificate (pb.mkCertificate None []) (f_Details, LenV inner) =
                 Some (pb.mkCertificate (Some d) [])).
    { unfold mergeCertificate. change (f_Details =? f_Details) with true. cbv iota.
      cbn [pb.Details pb.Signature default].
      unfold inner. rewrite unmarshalDetails_appendFields; [reflexivity|exact Hv|exact Hok|].
      fold inner. lia. }
    rewrite Hd. cbn [mbind option_bind].
    destruct (Nat.eqb (length sg) 0) eqn:E; cbn [negb when mergeAll].
    + apply length_zero_nil in E. subst sg. reflexivity.
    + reflexivity.
  - intros _. cbn [mbind result_bind]. intros Hs. apply sized_Ok in Hs as [-> Hsize].
    unfold unmarshal, certificateFields in *. cbn [pb.Details pb.Signature] in *.
    rewrite bool_decide_eq_false_2 in * by (intros [? ?]; discriminate).
    cbn [when app] in *.
    rewrite parse_appendFields.
    2:{ destruct (Nat.eqb (length sg) 0) eqn:E; cbn [negb when]; constructor; [|constructor].
        split; [vm_compute; split; [discriminate|reflexivity]|]. cbn [snd].
        pose proof (length_payload f_Signature sg [(f_Signature, LenV sg)]
                      ltac:(left; reflexivity)) as Hl.
        rewrite ?E in Hsize. cbn [negb when] in Hsize. lia. }
    cbn [mbind option_bind].
    destruct (Nat.eqb (length sg) 0) eqn:E; cbn [negb when mergeAll].
    + apply length_zero_nil in E. subst sg. reflexivity.
    + reflexivity.
Qed.

Lemma zeroDetails_ok : pb.details_ok zeroDetails.
Proof. unfold pb.details_ok, int64_ok, int32_ok. cbn. repeat split; (constructor || lia). Qed.

Lemma mergeDetails_ok d f d' :
  pb.details_ok d → mergeDetails d f = Some d' → pb.details_ok d'.
Proof.
  destruct d as [nm ips subs grps nb na pk ca iss cv].
  unfold pb.details_ok. cbn [pb.Ips pb.Subnets pb.NotBefore pb.NotAfter pb.Curve].
  intros (Hips & Hsubs & Hnb & Hna & Hcv).
  assert (Hu : ∀ n, uint32_ok (n mod 2 ^ 32)).
  { intros n. unfold uint32_ok. apply Z.mod_pos_bound. lia. }
  destruct f as [num [n|b|b|b]]; unfold mergeDetails;
    repeat match goal with
           | |- context [if ?c then _ else _] => destruct c
           end;
    try (destruct (consumePacked (length b) b) as [l|] eqn:El; cbn [mbind option_bind]);
    intros [= <-];
    cbn [pb.Ips pb.Subnets pb.NotBefore pb.NotAfter pb.Curve];
    (split; [|split; [|split; [|split]]]);
    first [assumption
          |apply wrap_int64_ok
          |apply wrap_int32_ok
          |apply Forall_app; split; [assumption|];
           first [eapply consumePacked_ok; exact El
                 |constructor; [apply Hu|constructor]]].
Qed.

Lemma mergeAll_details_ok fs : ∀ d d',
  pb.details_ok d → mergeAll mergeDetails d fs = Some d' → pb.details_ok d'.
Proof.
  induction fs as [|f fs IH]; intros d d' Hok; cbn [mergeAll].
  - intros [= <-]. exact Hok.
  - destruct (mergeDetails d f) as [d1|] eqn:E; [|discriminate].
    cbn [mbind option_bind]. apply IH. eapply mergeDetails_ok; eauto.
Qed.

Lemma mergeAll_certificate_ok fs : ∀ rc rc',
  pb.certificate_ok rc → mergeAll mergeCertificate rc fs = Some rc' →
  pb.certificate_ok rc'.
Proof.
  induction fs as [|f fs IH]; intros rc rc' Hok; cbn [mergeAll].
  - intros [= <-]. exact Hok.
  - destruct (mergeCertificate rc f) as [rc1|] eqn:E; [|discriminate].
    cbn [mbind option_bind]. apply IH.
    destruct f as [num [n|b|b|b]]; unfold mergeCertificate in E;
      try (injection E as <-; exact Hok).
    destruct (num =? f_Details).
    + unfold unmarshalDetails in E.
      destruct (parse b) as [fs'|]; [|discriminate]. cbn [mbind option_bind] in E.
      destruct (mergeAll mergeDetails _ fs') as [d1|] eqn:Ed; [|discriminate].
      cbn [mbind option_bind] in E. injection E as <-.
      unfold pb.certificate_ok. cbn [pb.Details].
      eapply mergeAll_details_ok; [|exact Ed].
      unfold pb.certificate_ok in Hok. destruct (pb.Details rc); [exact Hok|].
      apply zeroDetails_ok.
    + destruct (num =? f_Signature); injection E as <-; exact Hok.
Qed.

(** The codec keeps the contract of [ProtoLaws]. *)
Lemma codec_laws : ProtoLaws codec.
Proof.
  split.
  - intros b rc. cbn [proto_Unmarshal codec]. unfold unmarshal.
    destruct (parse b) as [fs|]; cbn [mbind option_bind]; [|discriminate].
    destruct (mergeAll mergeCertificate _ fs) as [rc'|] eqn:E; [|discriminate].
    intros [= <-]. eapply mergeAll_certificate_ok; [|exact E]. exact I.
  - intros rc b. apply unmarshal_marshal_wire.
  - intros rc b. cbn [proto_Marshal codec]. unfold marshal.
    intros H [d Hd]. rewrite Hd in H.
    destruct (detailsValid d); [|discriminate]. cbn [mbind result_bind] in H.
    apply sized_Ok in H as [-> _].
    unfold certificateFields. rewrite Hd, bool_decide_eq_true_2 by eauto.
    cbn [when app].
    match goal with
    | |- appendFields (?f :: ?l) ≠ [] =>
        change (appendFields (f :: l)) with (appendField f ++ appendFields l);
        pose proof (length_appendField f) as Hl
    end.
    intros E. apply (f_equal length) in E. rewrite length_app in E.
    cbn [length] in E. lia.
Qed.

End WireMessages.

(** ** The round trips, on samples *)

Lemma marshal_unmarshal_roundtrip_witness :
  ∃ c t' w b,
    SignWithPredicate (PC := wire.codec) (CR := standin.crypto)
      (CO := standin.collaborators)
      sample.ca_tbs None Curve_CURVE25519 sample.sp sample.world
      = (Ok (CertV1 c), t', w) ∧
    representable w c ∧
    Marshal (PC := wire.codec) w c = Ok b ∧
    ∃ c' w',
      unmarshalCertificateV1 (PC := wire.codec) b nilSlice w = (Ok c', w') ∧
      observe w' c' = atSeconds (observe w c).
Proof.
  eexists _, _, _, _. split; [vm_compute; reflexivity|].
  match goal with
  | |- representable ?w ?c ∧ _ =>
      assert (Hr : representable w c)
  end.
  { split; [|split; [|split]].
    - match goal with
      | |- Forall _ ?l => let l' := eval vm_compute in l in change l with l'
      end.
      repeat constructor; vm_compute; discriminate.
    - match goal with
      | |- Forall _ ?l => let l' := eval vm_compute in l in change l with l'
      end.
      repeat constructor; vm_compute; discriminate.
    - reflexivity.
    - vm_compute. split; [discriminate|reflexivity]. }
  split; [exact Hr|]. split; [vm_compute; reflexivity|].
  apply (marshal_unmarshal_roundtrip (PC := wire.codec) codec_laws
           (CR := standin.crypto) (CO := standin.collaborators)).
  - eapply (produced_by_signing (PC := wire.codec) (CR := standin.crypto)
              (CO := standin.collaborators) _ _
              sample.ca_tbs None Curve_CURVE25519 sample.sp sample.world).
    + vm_compute. reflexivity.
    + exact Hr.
  - vm_compute. reflexivity.
Defined.

(** The claim as it was stated fails for a certificate signed for an
    IPv4-mapped network: [::ffff:1.2.3.4/120] is written as the IPv4
    address and the last four bytes of its mask, and read back as
    [1.2.3.4/24]. *)
Lemma roundtrip_loses_mapped_prefix :
  ∃ c t' w b c' w',
    SignWithPredicate (PC := wire.codec) (CR := standin.crypto)
      (CO := standin.collaborators)
      sample.mapped_tbs None Curve_CURVE25519 sample.sp sample.world
      = (Ok (CertV1 c), t', w) ∧
    Marshal (PC := wire.codec) w c = Ok b ∧
    unmarshalCertificateV1 (PC := wire.codec) b nilSlice w = (Ok c', w') ∧
    o_networks (observe w c) = [sample.net_mapped] ∧
    o_networks (observe w' c') = [PrefixFrom (Addr4 x01 x02 x03 x04) 24] ∧
    observe w' c' ≠ atSeconds (observe w c).
Proof.
  eexists _, _, _, _, _, _. split; [vm_compute; reflexivity|].
  split; [vm_compute; reflexivity|]. split; [vm_compute; reflexivity|].
  split; [vm_compute; reflexivity|]. split; [vm_compute; reflexivity|].
  intros E. apply (f_equal o_networks) in E. vm_compute in E. discriminate.
Qed.

Lemma handshake_form_witness :
  ∃ b c1,
    MarshalForHandshakes (PC := wire.codec) sample.world sample.cert = (Ok b, c1) ∧
    representable sample.world sample.cert ∧
    c1 = sample.cert ∧
    ∃ c' w',
      unmarshalCertificateV1 (PC := wire.codec) b
        (publicKey (details sample.cert)) sample.world = (Ok c', w') ∧
      observe w' c' = atSeconds (observe sample.world sample.cert).
Proof.
  eexists _, _. split; [vm_compute; reflexivity|].
  assert (Hr : representable sample.world sample.cert).
  { split; [|split; [|split]].
    - match goal with
      | |- Forall _ ?l => let l' := eval vm_compute in l in change l with l'
      end.
      repeat constructor; vm_compute; discriminate.
    - match goal with
      | |- Forall _ ?l => let l' := eval vm_compute in l in change l with l'
      end.
      repeat constructor; vm_compute; discriminate.
    - reflexivity.
    - vm_compute. split; [discriminate|reflexivity]. }
  split; [exact Hr|].
  edestruct (handshake_form (PC := wire.codec) codec_laws sample.world sample.cert)
    as [H1 H2].
  { vm_compute. reflexivity. }
  split; [reflexivity|]. exact (H2 Hr).
Defined.

(** The claim as it was stated fails in two ways.  For a certificate
    of an IPv4-mapped network the bytes of [MarshalForHandshakes],
    decoded with the public key, give [1.2.3.4/24] for
    [::ffff:1.2.3.4/120].  And when [Marshal] fails, here on a name
    that is not UTF-8, [MarshalForHandshakes] returns the error before
    it puts the public key back: the receiver is left without one. *)
Lemma handshake_form_fails :
  (∃ c t' w b c1 c' w',
     SignWithPredicate (PC := wire.codec) (CR := standin.crypto)
       (CO := standin.collaborators)
       sample.mapped_tbs None Curve_CURVE25519 sample.sp sample.world
       = (Ok (CertV1 c), t', w) ∧
     MarshalForHandshakes (PC := wire.codec) w c = (Ok b, c1) ∧
     unmarshalCertificateV1 (PC := wire.codec) b (publicKey (details c)) w
       = (Ok c', w') ∧
     observe w' c' ≠ atSeconds (observe w c)) ∧
  (∃ e c1,
     MarshalForHandshakes (PC := wire.codec) sample.world sample.badname_cert
       = (Err e, c1) ∧
     publicKey (details sample.badname_cert) = sliceAt sample.keyAt ∧
     publicKey (details c1) = nilSlice).
Proof.
  split.
  - eexists _, _, _, _, _, _, _. split; [vm_compute; reflexivity|].
    split; [vm_compute; reflexivity|]. split; [vm_compute; reflexivity|].
    intros E. apply (f_equal o_networks) in E. vm_compute in E. discriminate.
  - eexists _, _. split; [vm_compute; reflexivity|].
    split; reflexivity.
Qed.

(** ** The remaining theorems, on samples *)

Lemma SignPkcs11_restriction_witness :
  ∃ r t' w',
    SignPkcs11 (PC := wire.codec) (CR := standin.crypto)
      (CO := standin.collaborators)
      sample.p256_tbs None Curve_P256 (Some sample.client) sample.world
      = (r, t', w') ∧
    signerCalls w' ≠ signerCalls sample.world ∧
    is_Some (Some sample.client) ∧
    TBS.Curve sample.p256_tbs = Curve_P256.
Proof.
  eexists _, _, _. split; [vm_compute; reflexivity|].
  split; [vm_compute; discriminate|].
  destruct (SignPkcs11_restriction (PC := wire.codec) (CR := standin.crypto)
              (CO := standin.collaborators)
              sample.p256_tbs None Curve_P256 sample.world) as (_ & _ & H).
  eapply H.
  - vm_compute. reflexivity.
  - vm_compute. discriminate.
Defined.

Lemma VerifyPrivateKey_spec_witness :
  VerifyPrivateKey (CR := standin.crypto) sample.world sample.cert
    Curve_CURVE25519 sample.key64 = Ok () ∧
  VerifyPrivateKey (CR := standin.crypto) sample.world sample.cert
    Curve_P256 sample.key64 = Err curveMismatch ∧
  (∃ e, VerifyPrivateKey (CR := standin.crypto) sample.world sample.cert
          Curve_CURVE25519 sample.key32 = Err e ∧ malformedKey e) ∧
  VerifyPrivateKey (CR := standin.crypto) sample.world sample.cert
    Curve_CURVE25519 (sample.key32 ++ replicate 32 x01) = Err publicKeyMismatch.
Proof.
  split; [|split; [|split]].
  - apply (VerifyPrivateKey_spec (CR := standin.crypto) sample.world sample.cert
             Curve_CURVE25519 sample.key64).
    split; reflexivity.
  - apply (VerifyPrivateKey_spec (CR := standin.crypto) sample.world sample.cert
             Curve_P256 sample.key64).
    discriminate.
  - apply (VerifyPrivateKey_spec (CR := standin.crypto) sample.world sample.cert
             Curve_CURVE25519 sample.key32).
    + reflexivity.
    + left. reflexivity.
    + reflexivity.
  - eapply (VerifyPrivateKey_spec (CR := standin.crypto) sample.world sample.cert
              Curve_CURVE25519 (sample.key32 ++ replicate 32 x01)).
    + reflexivity.
    + reflexivity.
    + vm_compute. discriminate.
Defined.

Lemma conversion_domain_witness :
  Exists (fun p => genuineIPv6 (Prefix_Addr p))
    (loadPrefixes sample.world (networks (details sample.v6_cert)) ++
     loadPrefixes sample.world (unsafeNetworks (details sample.v6_cert))) ∧
  (∃ msg, Marshal (PC := wire.codec) sample.world sample.v6_cert = Panic msg) ∧
  (∃ msg, marshalForSigning (PC := wire.codec) sample.world sample.v6_cert = Panic msg) ∧
  (∃ msg, Fingerprint (PC := wire.codec) (CR := standin.crypto)
            sample.world sample.v6_cert = Panic msg).
Proof.
  assert (H : Exists (fun p => genuineIPv6 (Prefix_Addr p))
                (loadPrefixes sample.world (networks (details sample.v6_cert)) ++
                 loadPrefixes sample.world (unsafeNetworks (details sample.v6_cert)))).
  { change (Exists (fun p => genuineIPv6 (Prefix_Addr p))
              ([sample.net_10_0_0_1; sample.net_v6] ++ [])).
    apply Exists_cons_tl, Exists_cons_hd. split; reflexivity. }
  split; [exact H|].
  exact (proj1 (conversion_domain (PC := wire.codec) (CR := standin.crypto))
           sample.world sample.v6_cert H).
Defined.

(** ** What signing leaves is what the encoding can hold *)

Section SignedRepresentable.
Context {PC : ProtoCodec} {CR : Crypto} {CO : Collaborators}.

(** The fingerprint of a version 1 certificate is a string
    [EncodeToString] wrote. *)
Lemma Fingerprint_canonical w c fp : Fingerprint w c = Ok fp → canonicalHex fp.
Proof.
  unfold Fingerprint. destruct (Marshal w c); try discriminate.
  cbn [mbind result_bind]. intros [= <-]. unfold canonicalHex.
  rewrite DecodeString_EncodeToString. reflexivity.
Qed.

(** A version 1 certificate sealed from a request for valid IPv4
    prefixes, with the issuer signing has set, can be encoded: sorting
    keeps the prefixes, and the certificate shares them. *)
Lemma signed_representable t signer keyCurve sp w c t' w' :
  SignWithPredicate t signer keyCurve sp w = (Ok (CertV1 c), t', w') →
  Forall validIPv4Prefix (loadPrefixes w (TBS.Networks t)) →
  Forall validIPv4Prefix (loadPrefixes w (TBS.UnsafeNetworks t)) →
  canonicalHex (TBS.issuer t') →
  int32_ok (TBS.Curve t) →
  representable w' c.
Proof.
  intros H HN HU Hi Hc. apply SignWithPredicate_Ok in H as (iss & Ht & _ & H).
  pose proof (seal_frame _ _ _ _ _ _ H) as (_ & HP & _).
  apply seal_V1_inv in H as (c0 & certBytes & sig & _ & _ & Hc0 & _ & _ & Hd & _).
  unfold fromTBSCertificate in Hc0. injection Hc0 as <-.
  subst t'. cbn [TBS.Networks TBS.UnsafeNetworks TBS.set_issuer TBS.issuer] in *.
  destruct (load_sorted_twice w (TBS.Networks t) (TBS.UnsafeNetworks t)) as [EN EU].
  unfold representable, loadPrefixes in *. rewrite Hd, HP.
  cbn [details networks unsafeNetworks issuer curve TBS.Curve].
  rewrite EN, EU, !merge_sort_Permutation. auto.
Qed.

End SignedRepresentable.

(** * Further properties of the code *)

(** ** [Copy] *)

Lemma alloc_new_unallocated {T} (m : gmap loc (list T)) v :
  unallocated m (alloc m v).1.
Proof. apply alloc_fresh. exact v. Qed.

Lemma unallocated_not_live {T} (m : gmap loc (list T)) s s' :
  unallocated m s → live m s' → s' ≠ s.
Proof.
  destruct s as [|l]; [intros []|]. destruct s' as [|l']; [discriminate|].
  unfold unallocated, live. intros Hn [x Hx] [= ->]. congruence.
Qed.

Lemma alloc_second_unallocated {T} (m : gmap loc (list T)) v1 v2 :
  unallocated m (alloc (alloc m v1).2 v2).1.
Proof.
  pose proof (alloc_new_unallocated (alloc m v1).2 v2) as H.
  revert H. unfold unallocated, alloc. cbn [fst snd].
  intros H. apply lookup_insert_None in H. tauto.
Qed.

(** What [Copy] leaves: the copy on five arrays the store did not hold,
    with the contents of the original's, and every array there was as
    it was. *)
Lemma Copy_inv w c nc w' :
  stored w c → Copy w c = (nc, w') →
  observe w' nc = observe w c ∧
  stored w' nc ∧
  (unallocated (prefixArrays w) (networks (details nc)) ∧
   unallocated (prefixArrays w) (unsafeNetworks (details nc)) ∧
   unallocated (stringArrays w) (groups (details nc)) ∧
   unallocated (byteArrays w) (publicKey (details nc)) ∧
   unallocated (byteArrays w) (signature nc)) ∧
  (networks (details nc) ≠ unsafeNetworks (details nc) ∧
   publicKey (details nc) ≠ signature nc) ∧
  ((∀ s, live (prefixArrays w) s →
      live (prefixArrays w') s ∧ loadPrefixes w' s = loadPrefixes w s) ∧
   (∀ s, live (stringArrays w) s →
      live (stringArrays w') s ∧ loadStrings w' s = loadStrings w s) ∧
   (∀ s, live (byteArrays w) s →
      live (byteArrays w') s ∧ loadBytes w' s = loadBytes w s)) ∧
  signerCalls w' = signerCalls w.
Proof.
  intros (Ln & Lu & Lg & Lk & Ls). unfold Copy.
  destruct (allocStrings w _) as [gs w1] eqn:E1.
  destruct (allocPrefixes w1 _) as [ns w2] eqn:E2.
  destruct (allocPrefixes w2 _) as [us w3] eqn:E3.
  destruct (allocBytes w3 _) as [ks w4] eqn:E4.
  destruct (allocBytes w4 _) as [ss w5] eqn:E5.
  apply allocStrings_eq in E1 as [Egs ->].
  apply allocPrefixes_eq in E2 as [Ens ->].
  apply allocPrefixes_eq in E3 as [Eus ->].
  apply allocBytes_eq in E4 as [Eks ->].
  apply allocBytes_eq in E5 as [Ess ->].
  cbn [prefixArrays stringArrays byteArrays signerCalls] in *.
  cbv zeta.
  unfold saveBytes, savePrefixes, loadBytes, loadPrefixes, loadStrings.
  cbn [prefixArrays stringArrays byteArrays signerCalls].
  unfold loadBytes, loadPrefixes, loadStrings in *.
  cbn [prefixArrays stringArrays byteArrays signerCalls] in *.
  rewrite (load_alloc_old (prefixArrays w) _ _ Lu) in *.
  rewrite (load_alloc_old (byteArrays w) _ _ Ls) in *.
  subst gs ns us ks ss.
  destruct (alloc_twice (prefixArrays w)
              (replicate (length (load (prefixArrays w) (networks (details c)))) zeroPrefix)
              (replicate (length (load (prefixArrays w) (unsafeNetworks (details c)))) zeroPrefix))
    as (Pne & Pn & Pu & Pln & Plu & Pold).
  destruct (alloc_twice (byteArrays w)
              (replicate (length (load (byteArrays w) (publicKey (details c)))) x00)
              (replicate (length (load (byteArrays w) (signature c))) x00))
    as (Bne & Bk & Bs & Blk & Bls & Bold).
  pose proof (load_alloc_new (stringArrays w)
                (replicate (length (load (stringArrays w) (groups (details c)))) EmptyString)) as Sg.
  pose proof (live_alloc_new (stringArrays w)
                (replicate (length (load (stringArrays w) (groups (details c)))) EmptyString)) as Slg.
  pose proof (alloc_new_unallocated (stringArrays w)
                (replicate (length (load (stringArrays w) (groups (details c)))) EmptyString)) as Sug.
  pose proof (λ s H, load_alloc_old (stringArrays w)
                (replicate (length (load (stringArrays w) (groups (details c)))) EmptyString) s H) as Sold.
  pose proof (λ s H, live_alloc_old (stringArrays w)
                (replicate (length (load (stringArrays w) (groups (details c)))) EmptyString) s H) as Slold.
  pose proof (alloc_new_unallocated (prefixArrays w)
              (replicate (length (load (prefixArrays w) (networks (details c)))) zeroPrefix)) as Pun.
  pose proof (alloc_new_unallocated (byteArrays w)
              (replicate (length (load (byteArrays w) (publicKey (details c)))) x00)) as Buk.
  pose proof (alloc_second_unallocated (prefixArrays w)
              (replicate (length (load (prefixArrays w) (networks (details c)))) zeroPrefix)
              (replicate (length (load (prefixArrays w) (unsafeNetworks (details c))))
                 zeroPrefix)) as Puu.
  pose proof (alloc_second_unallocated (byteArrays w)
              (replicate (length (load (byteArrays w) (publicKey (details c)))) x00)
              (replicate (length (load (byteArrays w) (signature c))) x00)) as Bus.
  set (us := (alloc (alloc (prefixArrays w) _).2 _).1) in *.
  set (P2 := (alloc (alloc (prefixArrays w) _).2 _).2) in *.
  set (ns := (alloc (prefixArrays w) _).1) in *.
  set (ss := (alloc (alloc (byteArrays w) _).2 _).1) in *.
  set (B2 := (alloc (alloc (byteArrays w) _).2 _).2) in *.
  set (ks := (alloc (byteArrays w) _).1) in *.
  set (gs := (alloc (stringArrays w) _).1) in *.
  set (S1 := (alloc (stringArrays w) _).2) in *.
  clearbody us P2 ns ss B2 ks gs S1.
  destruct (Pold _ Ln) as (Pon & Pnn & Pnu & Pl2n).
  destruct (Pold _ Lu) as (Pou & Pun' & Puu' & Pl2u).
  destruct (Bold _ Lk) as (Bok & Bkk & Bks & Bl2k).
  destruct (Bold _ Ls) as (Bos & Bsk & Bss & Bl2s).
  intros [= <- <-].
  cbn [details name notBefore notAfter isCA issuer curve networks unsafeNetworks groups
       publicKey signature prefixArrays stringArrays byteArrays signerCalls].
  rewrite Pn, Pon, Sg, (Sold _ Lg), Bs, Bos.
  rewrite (load_save_ne P2 ns us), Pu by exact Pne.
  rewrite (load_save_ne P2 ns (unsafeNetworks (details c))), Pou by congruence.
  rewrite (load_save_ne B2 ss ks), Bk by congruence.
  rewrite (load_save_ne B2 ss (publicKey (details c))), Bok by congruence.
  rewrite !copied_same_length by (rewrite length_replicate; reflexivity).
  set (N := load (prefixArrays w) (networks (details c))) in *.
  set (U := load (prefixArrays w) (unsafeNetworks (details c))) in *.
  set (G := load (stringArrays w) (groups (details c))) in *.
  set (K := load (byteArrays w) (publicKey (details c))) in *.
  set (Sg' := load (byteArrays w) (signature c)) in *.
  assert (HN : load (save (save P2 ns N) us U) ns = N).
  { rewrite load_save_ne by congruence. apply load_save_same; [exact Pln|].
    rewrite Pn, length_replicate. reflexivity. }
  assert (HU : load (save (save P2 ns N) us U) us = U).
  { apply load_save_same; [apply live_save; exact Plu|].
    rewrite load_save_ne, Pu, length_replicate by exact Pne. reflexivity. }
  assert (HG : load (save S1 gs G) gs = G).
  { apply load_save_same; [exact Slg|]. rewrite Sg, length_replicate. reflexivity. }
  assert (HS : load (save (save B2 ss Sg') ks K) ss = Sg').
  { rewrite load_save_ne by congruence. apply load_save_same; [exact Bls|].
    rewrite Bs, length_replicate. reflexivity. }
  assert (HK : load (save (save B2 ss Sg') ks K) ks = K).
  { apply load_save_same; [apply live_save; exact Blk|].
    rewrite load_save_ne, Bk, length_replicate by congruence. reflexivity. }
  split.
  { unfold observe, loadPrefixes, loadStrings, loadBytes.
    cbn [details name notBefore notAfter isCA issuer curve networks unsafeNetworks
         groups publicKey signature prefixArrays stringArrays byteArrays].
    rewrite HN, HU, HG, HS, HK. reflexivity. }
  split.
  { unfold stored.
    cbn [details networks unsafeNetworks groups publicKey signature
         prefixArrays stringArrays byteArrays].
    rewrite !live_save. auto. }
  split; [auto 10|].
  split; [split; congruence|].
  split; [|reflexivity].
  unfold loadPrefixes, loadStrings, loadBytes.
  cbn [prefixArrays stringArrays byteArrays].
  split; [|split].
  - intros s Hs. destruct (Pold s Hs) as (E & H1 & H2 & L).
    rewrite !live_save, !load_save_ne by congruence. auto.
  - intros s Hs. rewrite live_save, load_save_ne.
    + split; [apply Slold; exact Hs|apply Sold; exact Hs].
    + intros <-. exact (unallocated_not_live _ _ _ Sug Hs eq_refl).
  - intros s Hs. destruct (Bold s Hs) as (E & H1 & H2 & L).
    rewrite !live_save, !load_save_ne by congruence. auto.
Qed.


(** Storing an element through a slice that a certificate does not hold
    is not seen through the certificate. *)
Lemma observe_setByte w s i v c :
  s ≠ publicKey (details c) → s ≠ signature c →
  observe (setByte w s i v) c = observe w c.
Proof.
  intros H1 H2. unfold observe, setByte, saveBytes, loadBytes, loadPrefixes, loadStrings.
  cbn [prefixArrays stringArrays byteArrays].
  rewrite !load_save_ne by assumption. reflexivity.
Qed.

Lemma observe_setPrefix w s i v c :
  s ≠ networks (details c) → s ≠ unsafeNetworks (details c) →
  observe (setPrefix w s i v) c = observe w c.
Proof.
  intros H1 H2.
  unfold observe, setPrefix, savePrefixes, loadBytes, loadPrefixes, loadStrings.
  cbn [prefixArrays stringArrays byteArrays].
  rewrite !load_save_ne by assumption. reflexivity.
Qed.

Lemma observe_setString w s i v c :
  s ≠ groups (details c) →
  observe (setString w s i v) c = observe w c.
Proof.
  intros H1.
  unfold observe, setString, loadBytes, loadPrefixes, loadStrings.
  cbn [prefixArrays stringArrays byteArrays].
  rewrite !load_save_ne by assumption. reflexivity.
Qed.

(** The original after [Copy] is what it was. *)
Lemma Copy_keeps_original w c nc w' :
  stored w c → Copy w c = (nc, w') → observe w' c = observe w c.
Proof.
  intros Hs H. pose proof Hs as (Ln & Lu & Lg & Lk & Ls).
  destruct (Copy_inv _ _ _ _ Hs H) as (_ & _ & _ & _ & (HP & HS & HB) & _).
  unfold observe.
  rewrite (proj2 (HP _ Ln)), (proj2 (HP _ Lu)), (proj2 (HS _ Lg)),
    (proj2 (HB _ Lk)), (proj2 (HB _ Ls)).
  reflexivity.
Qed.

(** X1.  [Copy] of a certificate whose arrays are in the store returns
    a certificate with the same value of every accessor, on five
    arrays that the store did not hold before the call (none of them
    [nil], the two of prefixes distinct and the two of bytes distinct);
    the original reads as before. *)
Theorem Copy_equal_on_new_arrays (w : World) (c nc : certificateV1) (w' : World) :
  stored w c → Copy w c = (nc, w') →
  observe w' nc = observe w c ∧
  observe w' c = observe w c ∧
  unallocated (prefixArrays w) (networks (details nc)) ∧
  unallocated (prefixArrays w) (unsafeNetworks (details nc)) ∧
  unallocated (stringArrays w) (groups (details nc)) ∧
  unallocated (byteArrays w) (publicKey (details nc)) ∧
  unallocated (byteArrays w) (signature nc) ∧
  networks (details nc) ≠ unsafeNetworks (details nc) ∧
  publicKey (details nc) ≠ signature nc ∧
  stored w' nc.
Proof.
  intros Hs H.
  destruct (Copy_inv _ _ _ _ Hs H) as (Ho & Hst & (U1 & U2 & U3 & U4 & U5) & (D1 & D2) & _).
  pose proof (Copy_keeps_original _ _ _ _ Hs H).
  auto 12.
Qed.

(** X2.  After [Copy], an element stored through any slice of the
    original is not seen through the copy, and an element stored
    through any slice of the copy is not seen through the original. *)
Theorem Copy_independent (w : World) (c nc : certificateV1) (w' : World)
    (i : nat) (b : byte) (p : Prefix) (g : string) :
  stored w c → Copy w c = (nc, w') →
  (observe (setByte w' (publicKey (details c)) i b) nc = observe w c ∧
   observe (setByte w' (signature c) i b) nc = observe w c ∧
   observe (setPrefix w' (networks (details c)) i p) nc = observe w c ∧
   observe (setPrefix w' (unsafeNetworks (details c)) i p) nc = observe w c ∧
   observe (setString w' (groups (details c)) i g) nc = observe w c) ∧
  (observe (setByte w' (publicKey (details nc)) i b) c = observe w c ∧
   observe (setByte w' (signature nc) i b) c = observe w c ∧
   observe (setPrefix w' (networks (details nc)) i p) c = observe w c ∧
   observe (setPrefix w' (unsafeNetworks (details nc)) i p) c = observe w c ∧
   observe (setString w' (groups (details nc)) i g) c = observe w c).
Proof.
  intros Hs H. pose proof Hs as (Ln & Lu & Lg & Lk & Ls).
  destruct (Copy_inv _ _ _ _ Hs H) as (Ho & _ & (U1 & U2 & U3 & U4 & U5) & _).
  pose proof (Copy_keeps_original _ _ _ _ Hs H) as Hc.
  pose proof (unallocated_not_live _ _ _ U1 Ln).
  pose proof (unallocated_not_live _ _ _ U1 Lu).
  pose proof (unallocated_not_live _ _ _ U2 Ln).
  pose proof (unallocated_not_live _ _ _ U2 Lu).
  pose proof (unallocated_not_live _ _ _ U3 Lg).
  pose proof (unallocated_not_live _ _ _ U4 Lk).
  pose proof (unallocated_not_live _ _ _ U4 Ls).
  pose proof (unallocated_not_live _ _ _ U5 Lk).
  pose proof (unallocated_not_live _ _ _ U5 Ls).
  split.
  - rewrite !observe_setByte, !observe_setPrefix, !observe_setString by assumption.
    auto.
  - rewrite !observe_setByte, !observe_setPrefix, !observe_setString by congruence.
    auto.
Qed.

Lemma Copy_equal_on_new_arrays_witness :
  ∃ nc w', Copy sample.world sample.cert = (nc, w') ∧
           observe w' nc = observe sample.world sample.cert.
Proof.
  eexists _, _. split; [vm_compute; reflexivity|].
  apply (Copy_equal_on_new_arrays sample.world sample.cert).
  - repeat split; vm_compute; eauto.
  - vm_compute. reflexivity.
Defined.

Lemma Copy_independent_witness :
  ∃ nc w', Copy sample.world sample.cert = (nc, w') ∧
           observe (setByte w' (publicKey (details sample.cert)) 0 xff) nc =
             observe sample.world sample.cert.
Proof.
  eexists _, _. split; [vm_compute; reflexivity|].
  apply (Copy_independent sample.world sample.cert _ _ 0%nat xff zeroPrefix EmptyString).
  - repeat split; vm_compute; eauto.
  - vm_compute. reflexivity.
Defined.

Section Observed.
Context {PC : ProtoCodec} {CR : Crypto} {VF : Verifier}.

(** What the encodings and the checks read of a certificate is what
    its accessors return. *)
Lemma getRawDetails_observe w c w' c' :
  observe w c = observe w' c' → getRawDetails w c = getRawDetails w' c'.
Proof.
  intros H. apply getRawDetails_ext.
  - exact (f_equal o_name H).
  - exact (f_equal o_networks H).
  - exact (f_equal o_unsafeNetworks H).
  - exact (f_equal o_groups H).
  - exact (f_equal (λ o, Unix (o_notBefore o)) H).
  - exact (f_equal (λ o, Unix (o_notAfter o)) H).
  - exact (f_equal o_publicKey H).
  - exact (f_equal o_isCA H).
  - exact (f_equal o_issuer H).
  - exact (f_equal o_curve H).
Qed.

Lemma Marshal_observe w c w' c' :
  observe w c = observe w' c' → Marshal w c = Marshal w' c'.
Proof.
  intros H. unfold Marshal. rewrite (getRawDetails_observe _ _ _ _ H).
  pose proof (f_equal o_signature H) as Hs. cbn [observe o_signature] in Hs.
  rewrite Hs. reflexivity.
Qed.

Lemma CheckSignature_observe w c w' c' key :
  observe w c = observe w' c' → CheckSignature w c key = CheckSignature w' c' key.
Proof.
  intros H. unfold CheckSignature. rewrite (getRawDetails_observe _ _ _ _ H).
  pose proof (f_equal o_signature H) as Hs. cbn [observe o_signature] in Hs.
  pose proof (f_equal o_curve H) as Hc. cbn [observe o_curve] in Hc.
  rewrite Hs, Hc. reflexivity.
Qed.

Lemma VerifyPrivateKey_observe w c w' c' keyCurve key :
  observe w c = observe w' c' →
  VerifyPrivateKey w c keyCurve key = VerifyPrivateKey w' c' keyCurve key.
Proof.
  intros H. unfold VerifyPrivateKey.
  pose proof (f_equal o_publicKey H) as Hk. cbn [observe o_publicKey] in Hk.
  pose proof (f_equal o_curve H) as Hc. cbn [observe o_curve] in Hc.
  pose proof (f_equal o_isCA H) as Ha. cbn [observe o_isCA] in Ha.
  rewrite Hk, Hc, Ha. reflexivity.
Qed.

(** X3.  The copy [Copy] returns marshals to the same bytes as the
    original, for the wire, for signing and for handshakes; it has the
    same fingerprint, passes and fails the same signature and private
    key checks, and expires at the same times. *)
Theorem Copy_same_encoding (w : World) (c nc : certificateV1) (w' : World)
    (key : bytes) (keyCurve : Z) (t : Time) :
  stored w c → Copy w c = (nc, w') →
  Marshal w' nc = Marshal w c ∧
  marshalForSigning w' nc = marshalForSigning w c ∧
  (MarshalForHandshakes w' nc).1 = (MarshalForHandshakes w c).1 ∧
  Fingerprint w' nc = Fingerprint w c ∧
  CheckSignature w' nc key = CheckSignature w c key ∧
  VerifyPrivateKey w' nc keyCurve key = VerifyPrivateKey w c keyCurve key ∧
  Expired nc t = Expired c t.
Proof.
  intros Hs H. destruct (Copy_inv _ _ _ _ Hs H) as (Ho & _).
  split; [apply Marshal_observe; exact Ho|].
  split.
  { unfold marshalForSigning. rewrite (getRawDetails_observe _ _ _ _ Ho). reflexivity. }
  split.
  { unfold MarshalForHandshakes.
    assert (E : Marshal w' (set_publicKey nc nilSlice) = Marshal w (set_publicKey c nilSlice)).
    { apply Marshal_observe. revert Ho. unfold observe, set_publicKey.
      cbn [details name notBefore notAfter isCA issuer curve networks unsafeNetworks
           groups publicKey signature].
      intros [= -> -> -> -> -> -> -> -> -> _ ->]. reflexivity. }
    rewrite E. destruct (Marshal w _); reflexivity. }
  split.
  { unfold Fingerprint. rewrite (Marshal_observe _ _ _ _ Ho). reflexivity. }
  split; [apply CheckSignature_observe; exact Ho|].
  split; [apply VerifyPrivateKey_observe; exact Ho|].
  unfold Expired.
  rewrite (f_equal o_notBefore Ho : notBefore (details nc) = notBefore (details c)).
  rewrite (f_equal o_notAfter Ho : notAfter (details nc) = notAfter (details c)).
  reflexivity.
Qed.

End Observed.

Lemma Copy_same_encoding_witness :
  ∃ nc w', Copy sample.world sample.cert = (nc, w') ∧
    Marshal (PC := wire.codec) w' nc = Marshal (PC := wire.codec) sample.world sample.cert.
Proof.
  eexists _, _. split; [vm_compute; reflexivity|].
  apply (Copy_same_encoding (PC := wire.codec) (CR := standin.crypto)
           (VF := standin_verifier) sample.world sample.cert _ _ [] 0 sample.t0).
  - repeat split; vm_compute; eauto.
  - vm_compute. reflexivity.
Defined.

(** ** [CheckSignature] *)

Section CheckingSigned.
Context {PC : ProtoCodec} {CR : Crypto} {CO : Collaborators} {VF : Verifier}.

(** A sealed version 1 certificate, in the store signing leaves: the
    signer was invoked once, on the bytes the certificate marshals to
    for signing, and what it returned is the signature. *)
Lemma sealed_bytes t signer keyCurve sp w c t' w' :
  SignWithPredicate t signer keyCurve sp w = (Ok (CertV1 c), t', w') →
  live (byteArrays w) (TBS.PublicKey t) →
  ∃ certBytes sig,
    signerCalls w' = certBytes :: signerCalls w ∧
    sp certBytes = Ok sig ∧
    marshalForSigning w' c = Ok certBytes ∧
    loadBytes w' (signature c) = sig ∧
    curve (details c) = TBS.Curve t.
Proof.
  intros H Hl. apply SignWithPredicate_Ok in H as (iss & _ & _ & H).
  apply seal_V1_inv in H as (c0 & certBytes & sig & _ & _ & Hc0 & Hm & Hsp & Hd & Ha).
  unfold fromTBSCertificate in Hc0. injection Hc0 as <-.
  cbn [TBS.Networks TBS.UnsafeNetworks TBS.set_issuer] in *.
  set (w2 := SortFunc (SortFunc w (TBS.Networks t)) (TBS.UnsafeNetworks t)) in *.
  apply allocBytes_eq in Ha as [Es ->].
  exists certBytes, sig.
  split; [reflexivity|]. split; [exact Hsp|].
  assert (Hk : ∀ s, live (byteArrays w) s →
            load (alloc (byteArrays w2) sig).2 s = load (byteArrays w) s).
  { intros s Hs. apply (load_alloc_old (byteArrays w) sig s Hs). }
  split; [|split].
  - rewrite <- Hm. unfold marshalForSigning. f_equal.
    apply getRawDetails_ext; rewrite ?Hd; try reflexivity.
    unfold loadBytes. cbn [byteArrays details publicKey logSignerCall].
    apply Hk. exact Hl.
  - rewrite Es. unfold loadBytes. cbn [byteArrays logSignerCall].
    apply load_alloc_new.
  - rewrite Hd. reflexivity.
Qed.

(** X4.  After a successful [SignWithPredicate] of a version 1
    certificate the signer predicate has been invoked once; the
    certificate marshals for signing to the very bytes the signer was
    given, its signature is what the signer returned, and
    [CheckSignature] is the verification of that signature over those
    bytes (over their SHA-256 digest on [Curve_P256]), [false] on any
    other curve. *)
Theorem CheckSignature_after_signing (t : TBSCertificate)
    (signer : option Certificate) (keyCurve : Z) (sp : SignerPredicate)
    (w : World) (c : certificateV1) (t' : TBSCertificate) (w' : World) :
  SignWithPredicate t signer keyCurve sp w = (Ok (CertV1 c), t', w') →
  live (byteArrays w) (TBS.PublicKey t) →
  ∃ certBytes sig,
    signerCalls w' = certBytes :: signerCalls w ∧
    sp certBytes = Ok sig ∧
    marshalForSigning w' c = Ok certBytes ∧
    loadBytes w' (signature c) = sig ∧
    ∀ key,
      CheckSignature w' c key =
        if TBS.Curve t =? Curve_CURVE25519 then ed25519_Verify key certBytes sig
        else if TBS.Curve t =? Curve_P256 then
          ecdsa_VerifyASN1 key (sha256_Sum256 certBytes) sig
        else Ok false.
Proof.
  intros H Hl.
  destruct (sealed_bytes _ _ _ _ _ _ _ _ H Hl) as (certBytes & sig & Hc & Hsp & Hm & Hs & Hcv).
  exists certBytes, sig. repeat (split; [assumption|]).
  intros key. unfold CheckSignature. unfold marshalForSigning in Hm.
  destruct (getRawDetails w' c) as [rd| |]; try discriminate.
  cbn [mbind result_bind] in *. rewrite Hm, Hs, Hcv. reflexivity.
Qed.

(** X5.  With signature primitives that verify what they sign (for the
    P-256 key, under the public key [ecdh] derives from it), a version
    1 certificate that [Sign] returns passes [CheckSignature] under the
    public key of the signing key. *)
Theorem Sign_then_CheckSignature (t : TBSCertificate)
    (signWith : option Certificate) (keyCurve : Z) (key : bytes)
    (w : World) (c : certificateV1) (t' : TBSCertificate) (w' : World) :
  (∀ msg sig, ed25519_Sign key msg = Ok sig →
     ed25519_Verify (ed25519_Public key) msg sig = Ok true) →
  (∀ hash sig pub, ecdsa_SignASN1 key hash = Ok sig → P256_PublicKey key = Done pub →
     ecdsa_VerifyASN1 pub hash sig = Ok true) →
  Sign t signWith keyCurve key w = (Ok (CertV1 c), t', w') →
  live (byteArrays w) (TBS.PublicKey t) →
  (TBS.Curve t = Curve_CURVE25519 →
     CheckSignature w' c (ed25519_Public key) = Ok true) ∧
  (∀ pub, TBS.Curve t = Curve_P256 → P256_PublicKey key = Done pub →
     CheckSignature w' c pub = Ok true).
Proof.
  intros Led Lec H Hl. unfold Sign in H.
  destruct (TBS.Curve t =? Curve_CURVE25519) eqn:E1.
  - apply Z.eqb_eq in E1.
    destruct (sealed_bytes _ _ _ _ _ _ _ _ H Hl)
      as (certBytes & sig & _ & Hsp & Hm & Hs & Hcv).
    assert (Hchk : CheckSignature w' c (ed25519_Public key) = Ok true).
    { unfold CheckSignature. unfold marshalForSigning in Hm.
      destruct (getRawDetails w' c) as [rd| |]; try discriminate.
      cbn [mbind result_bind] in *. rewrite Hm, Hs, Hcv, E1. cbn.
      apply Led. exact Hsp. }
    split; [intros _; exact Hchk|].
    intros pub E2. rewrite E1 in E2. discriminate.
  - destruct (TBS.Curve t =? Curve_P256) eqn:E2; [|discriminate].
    apply Z.eqb_eq in E2.
    destruct (sealed_bytes _ _ _ _ _ _ _ _ H Hl)
      as (certBytes & sig & _ & Hsp & Hm & Hs & Hcv).
    split; [intros E; rewrite E in E1; discriminate|].
    intros pub _ Hpub. unfold CheckSignature. unfold marshalForSigning in Hm.
    destruct (getRawDetails w' c) as [rd| |]; try discriminate.
    cbn [mbind result_bind] in *. rewrite Hm, Hs, Hcv, E2. cbn.
    eapply Lec; eauto.
Qed.

End CheckingSigned.

Lemma CheckSignature_after_signing_witness :
  ∃ c t' w',
    SignWithPredicate (PC := wire.codec) (CR := standin.crypto)
      (CO := standin.collaborators)
      sample.ca_tbs None Curve_CURVE25519 sample.sp sample.world
      = (Ok (CertV1 c), t', w') ∧
    ∃ certBytes,
      marshalForSigning (PC := wire.codec) w' c = Ok certBytes ∧
      signerCalls w' = [certBytes].
Proof.
  eexists _, _, _. split; [vm_compute; reflexivity|].
  edestruct (CheckSignature_after_signing (PC := wire.codec) (CR := standin.crypto)
               (CO := standin.collaborators) (VF := standin_verifier)
               sample.ca_tbs None Curve_CURVE25519 sample.sp sample.world)
    as (certBytes & sig & H1 & _ & H3 & _).
  - vm_compute. reflexivity.
  - vm_compute. eauto.
  - exists certBytes. split; [exact H3|exact H1].
Defined.

Lemma Sign_then_CheckSignature_witness :
  ∃ c t' w',
    Sign (PC := wire.codec) (CR := standin.crypto) (CO := standin.collaborators)
      sample.ca_tbs None Curve_CURVE25519 sample.key64 sample.world
      = (Ok (CertV1 c), t', w') ∧
    CheckSignature (PC := wire.codec) (CR := standin.crypto) (VF := standin_verifier)
      w' c (ed25519_Public sample.key64) = Ok true.
Proof.
  eexists _, _, _. split; [vm_compute; reflexivity|].
  edestruct (Sign_then_CheckSignature (PC := wire.codec) (CR := standin.crypto)
           (CO := standin.collaborators) (VF := standin_verifier)
           sample.ca_tbs None Curve_CURVE25519 sample.key64 sample.world)
    as [H _]; [| | | |apply H; reflexivity].
  - intros msg sig. cbn. intros [= <-]. rewrite bool_decide_eq_true_2; reflexivity.
  - intros hash sig pub. cbn. intros [= <-] _. rewrite bool_decide_eq_true_2; reflexivity.
  - vm_compute. reflexivity.
  - vm_compute. eauto.
Defined.

(** ** [unmarshalCertificateV1] *)

Section DecodingStore.
Context {PC : ProtoCodec}.

(** X9.  A decoded certificate holds arrays made by the call, which the
    store did not hold before: its groups, networks, unsafe networks
    and signature, and its public key unless a non-empty one was
    supplied, which it then holds itself.  Decoding leaves every array
    there was as it was, the supplied public key apart, and invokes no
    signer. *)
Theorem decoded_owns_its_arrays (b : bytes) (pk : slice byte) (w : World)
    (c : certificateV1) (w' : World) :
  unmarshalCertificateV1 b pk w = (Ok c, w') →
  (unallocated (prefixArrays w) (networks (details c)) ∧
   unallocated (prefixArrays w) (unsafeNetworks (details c)) ∧
   unallocated (stringArrays w) (groups (details c)) ∧
   unallocated (byteArrays w) (signature c) ∧
   (if Nat.ltb 0 (length (loadBytes w pk)) then publicKey (details c) = pk
    else unallocated (byteArrays w) (publicKey (details c)))) ∧
  (networks (details c) ≠ unsafeNetworks (details c) ∧
   publicKey (details c) ≠ signature c) ∧
  ((∀ s, live (prefixArrays w) s → loadPrefixes w' s = loadPrefixes w s) ∧
   (∀ s, live (stringArrays w) s → loadStrings w' s = loadStrings w s) ∧
   (∀ s, live (byteArrays w) s → s ≠ pk → loadBytes w' s = loadBytes w s)) ∧
  signerCalls w' = signerCalls w.
Proof.
  unfold unmarshalCertificateV1.
  destruct b as [|b0 b']; [discriminate|]. cbn [length Nat.eqb].
  destruct (proto_Unmarshal (b0 :: b')) as [rc| |] eqn:Hun; try discriminate.
  destruct (pb.Details rc) as [rd|] eqn:Hd; try discriminate.
  destruct (Nat.eqb (length (pb.Ips rd) mod 2) 0) eqn:Hips; try discriminate.
  destruct (Nat.eqb (length (pb.Subnets rd) mod 2) 0) eqn:Hsub; try discriminate.
  cbn [negb].
  destruct (allocStrings w _) as [gs w1] eqn:E1.
  destruct (allocPrefixes w1 _) as [ns w2] eqn:E2.
  destruct (allocPrefixes w2 _) as [us w3] eqn:E3.
  destruct (allocBytes w3 _) as [ks w4] eqn:E4.
  destruct (allocBytes w4 _) as [ss w5] eqn:E5.
  apply allocStrings_eq in E1 as [Egs ->].
  apply allocPrefixes_eq in E2 as [Ens ->].
  apply allocPrefixes_eq in E3 as [Eus ->].
  apply allocBytes_eq in E4 as [Eks ->].
  apply allocBytes_eq in E5 as [Ess ->].
  cbn [prefixArrays stringArrays byteArrays signerCalls] in *.
  cbv zeta.
  unfold saveBytes, savePrefixes, loadBytes, loadPrefixes, loadStrings.
  cbn [prefixArrays stringArrays byteArrays signerCalls].
  subst gs ns us ks ss.
  destruct (alloc_twice (prefixArrays w)
              (replicate (length (pb.Ips rd) `div` 2) zeroPrefix)
              (replicate (length (pb.Subnets rd) `div` 2) zeroPrefix))
    as (Pne & _ & _ & _ & _ & Pold).
  destruct (alloc_twice (byteArrays w)
              (replicate (length (pb.PublicKey rd)) x00)
              (replicate (length (pb.Signature rc)) x00))
    as (Bne & _ & _ & _ & _ & Bold).
  pose proof (alloc_new_unallocated (stringArrays w)
                (replicate (length (pb.Groups rd)) EmptyString)) as Sug.
  pose proof (λ s H, load_alloc_old (stringArrays w)
                (replicate (length (pb.Groups rd)) EmptyString) s H) as Sold.
  pose proof (alloc_new_unallocated (prefixArrays w)
                (replicate (length (pb.Ips rd) `div` 2) zeroPrefix)) as Pun.
  pose proof (alloc_second_unallocated (prefixArrays w)
                (replicate (length (pb.Ips rd) `div` 2) zeroPrefix)
                (replicate (length (pb.Subnets rd) `div` 2) zeroPrefix)) as Puu.
  pose proof (alloc_new_unallocated (byteArrays w)
                (replicate (length (pb.PublicKey rd)) x00)) as Buk.
  pose proof (alloc_second_unallocated (byteArrays w)
                (replicate (length (pb.PublicKey rd)) x00)
                (replicate (length (pb.Signature rc)) x00)) as Bus.
  set (us := (alloc (alloc (prefixArrays w) _).2 _).1) in *.
  set (P2 := (alloc (alloc (prefixArrays w) _).2 _).2) in *.
  set (ns := (alloc (prefixArrays w) _).1) in *.
  set (ss := (alloc (alloc (byteArrays w) _).2 _).1) in *.
  set (B2 := (alloc (alloc (byteArrays w) _).2 _).2) in *.
  set (ks := (alloc (byteArrays w) _).1) in *.
  set (gs := (alloc (stringArrays w) _).1) in *.
  set (S1 := (alloc (stringArrays w) _).2) in *.
  clearbody us P2 ns ss B2 ks gs S1.
  destruct (decodeNetworks 0 (pb.Ips rd) AddrZero _) as [nets ip1].
  destruct (decodeNetworks 0 (pb.Subnets rd) ip1 _) as [unets ip2].
  intros [= <- <-].
  cbn [details name notBefore notAfter isCA issuer curve networks unsafeNetworks groups
       publicKey signature prefixArrays stringArrays byteArrays signerCalls].
  assert (Hpk : if Nat.ltb 0 (length (load (byteArrays w) pk))
                then live (byteArrays w) pk else True).
  { destruct (Nat.ltb 0 _) eqn:E; [|exact I].
    apply load_nonempty_live. apply Nat.ltb_lt in E.
    intros E'. rewrite E' in E. simpl in E. lia. }
  split.
  { repeat (split; [assumption|]).
    destruct (Nat.ltb 0 _); [reflexivity|assumption]. }
  split.
  { split; [exact Pne|].
    destruct (Nat.ltb 0 _); [|exact Bne].
    destruct (Bold pk Hpk) as (_ & _ & H & _). exact H. }
  split; [|reflexivity].
  split; [|split].
  - intros s Hs. destruct (Pold s Hs) as (E & H1 & H2 & _).
    rewrite !load_save_ne by congruence. exact E.
  - intros s Hs. rewrite load_save_ne; [apply Sold; exact Hs|].
    intros <-. exact (unallocated_not_live _ _ _ Sug Hs eq_refl).
  - intros s Hs Hne. destruct (Bold s Hs) as (E & H1 & H2 & _).
    rewrite !load_save_ne; [exact E|congruence|].
    destruct (Nat.ltb 0 _); congruence.
Qed.

End DecodingStore.

Section DecodingOutcomes.
Context {PC : ProtoCodec}.

(** X6.  [unmarshalCertificateV1] returns a certificate exactly when
    its input is not empty, [proto.Unmarshal] accepts it, the message
    has a details section, and the numbers of encoded IPs and of
    encoded subnets are both even; the supplied public key plays no
    part in it. *)
Theorem unmarshalCertificateV1_accepts (b : bytes) (pk : slice byte) (w : World) :
  (∃ c w', unmarshalCertificateV1 b pk w = (Ok c, w')) ↔
  (b ≠ [] ∧
   ∃ rc rd, proto_Unmarshal b = Ok rc ∧ pb.Details rc = Some rd ∧
            (length (pb.Ips rd) mod 2 = 0)%nat ∧
            (length (pb.Subnets rd) mod 2 = 0)%nat).
Proof.
  split.
  - intros (c & w' & H).
    destruct (unmarshal_inv _ _ _ _ _ H) as (rc & rd & Hb & Hun & Hd & Hi & Hs & _).
    eauto 10.
  - intros (Hb & rc & rd & Hun & Hd & Hi & Hs).
    eapply unmarshal_total; eauto.
Qed.

(** X7.  When [unmarshalCertificateV1] returns no certificate the
    store is as it was, and the outcome is, in this order: the error
    [nil byte array] on an empty input; the error or the panic of
    [proto.Unmarshal]; [encoded Details was nil]; the error on an odd
    number of IPs; the error on an odd number of subnets. *)
Theorem unmarshalCertificateV1_rejects (b : bytes) (pk : slice byte) (w : World)
    (r : result certificateV1) (w' : World) :
  unmarshalCertificateV1 b pk w = (r, w') →
  (∀ c, r ≠ Ok c) →
  w' = w ∧
  ((b = [] ∧ r = Err (Errorf "nil byte array")) ∨
   (b ≠ [] ∧ ∃ e, proto_Unmarshal b = Err e ∧ r = Err e) ∨
   (b ≠ [] ∧ ∃ msg, proto_Unmarshal b = Panic msg ∧ r = Panic msg) ∨
   (b ≠ [] ∧ ∃ rc, proto_Unmarshal b = Ok rc ∧
      ((pb.Details rc = None ∧ r = Err (Errorf "encoded Details was nil")) ∨
       (∃ rd, pb.Details rc = Some rd ∧
          (((length (pb.Ips rd) mod 2 ≠ 0)%nat ∧
            r = Err (Errorf
                 "encoded IPs should be in pairs, an odd number was found")) ∨
           ((length (pb.Ips rd) mod 2 = 0)%nat ∧
            (length (pb.Subnets rd) mod 2 ≠ 0)%nat ∧
            r = Err (Errorf
                 "encoded Subnets should be in pairs, an odd number was found"))))))).
Proof.
  unfold unmarshalCertificateV1.
  destruct b as [|b0 b'].
  { cbn [length Nat.eqb]. intros [= <- <-] _. auto. }
  cbn [length Nat.eqb].
  destruct (proto_Unmarshal (b0 :: b')) as [rc|e|msg] eqn:Hun.
  2: { intros [= <- <-] _. split; [reflexivity|]. right. left. split; [discriminate|eauto]. }
  2: { intros [= <- <-] _. split; [reflexivity|]. right. right. left.
       split; [discriminate|eauto]. }
  destruct (pb.Details rc) as [rd|] eqn:Hd.
  2: { intros [= <- <-] _. split; [reflexivity|]. right. right. right.
       split; [discriminate|]. exists rc. split; [reflexivity|]. left. auto. }
  destruct (Nat.eqb (length (pb.Ips rd) mod 2) 0) eqn:Hips; cbn [negb].
  2: { intros [= <- <-] _. split; [reflexivity|]. right. right. right.
       split; [discriminate|]. exists rc. split; [reflexivity|]. right.
       exists rd. split; [exact Hd|]. left. apply Nat.eqb_neq in Hips. auto. }
  destruct (Nat.eqb (length (pb.Subnets rd) mod 2) 0) eqn:Hsub; cbn [negb].
  2: { intros [= <- <-] _. split; [reflexivity|]. right. right. right.
       split; [discriminate|]. exists rc. split; [reflexivity|]. right.
       exists rd. split; [exact Hd|]. right.
       apply Nat.eqb_eq in Hips. apply Nat.eqb_neq in Hsub. auto. }
  destruct (allocStrings w _) as [gs w1].
  destruct (allocPrefixes w1 _) as [ns w2].
  destruct (allocPrefixes w2 _) as [us w3].
  destruct (allocBytes w3 _) as [ks w4].
  destruct (allocBytes w4 _) as [ss w5].
  cbv zeta.
  destruct (decodeNetworks 0 (pb.Ips rd) AddrZero _) as [nets ip1].
  destruct (decodeNetworks 0 (pb.Subnets rd) ip1 _) as [unets ip2].
  intros [= <- <-] H. exfalso. eapply H. reflexivity.
Qed.

(** X8.  Whatever integers the message holds, every network and unsafe
    network of a decoded certificate is a valid prefix of an IPv4
    address, one for each pair of integers; its issuer is a string of
    lower-case hexadecimal digits, two for each byte of the encoded
    issuer; and its two times are at whole seconds. *)
Theorem decoded_invariants (b : bytes) (pk : slice byte) (w : World)
    (c : certificateV1) (w' : World) :
  unmarshalCertificateV1 b pk w = (Ok c, w') →
  ∃ rc rd,
    proto_Unmarshal b = Ok rc ∧ pb.Details rc = Some rd ∧
    Forall validIPv4Prefix (loadPrefixes w' (networks (details c))) ∧
    Forall validIPv4Prefix (loadPrefixes w' (unsafeNetworks (details c))) ∧
    (2 * length (loadPrefixes w' (networks (details c))) = length (pb.Ips rd))%nat ∧
    (2 * length (loadPrefixes w' (unsafeNetworks (details c))) =
       length (pb.Subnets rd))%nat ∧
    canonicalHex (issuer (details c)) ∧
    String.length (issuer (details c)) = (2 * length (pb.Issuer rd))%nat ∧
    nsec (notBefore (details c)) = 0 ∧ nsec (notAfter (details c)) = 0.
Proof.
  intros H.
  destruct (unmarshal_inv _ _ _ _ _ H)
    as (rc & rd & _ & Hun & Hd & Hi & Hs & _ & Hnb & Hna & _ & Hiss & _ & HN & HU & _).
  exists rc, rd. rewrite HN, HU, Hiss, Hnb, Hna.
  split; [exact Hun|]. split; [exact Hd|].
  split; [apply pairUp_valid|]. split; [apply pairUp_valid|].
  split.
  { rewrite length_pairUp by exact Hi.
    pose proof (Nat.div_mod_eq (length (pb.Ips rd)) 2). lia. }
  split.
  { rewrite length_pairUp by exact Hs.
    pose proof (Nat.div_mod_eq (length (pb.Subnets rd)) 2). lia. }
  split.
  { unfold canonicalHex. rewrite DecodeString_EncodeToString. reflexivity. }
  split; [|split; reflexivity].
  clear. induction (pb.Issuer rd) as [|x l IH]; [reflexivity|].
  cbn [EncodeToString String.length length]. rewrite IH. lia.
Qed.

End DecodingOutcomes.

Lemma unmarshalCertificateV1_accepts_witness :
  ∃ c w',
    unmarshalCertificateV1 (PC := wire.codec) [x0a; x00] nilSlice sample.world
      = (Ok c, w').
Proof.
  apply (unmarshalCertificateV1_accepts (PC := wire.codec) [x0a; x00] nilSlice
           sample.world).
  split; [discriminate|].
  eexists _, _. split; [vm_compute; reflexivity|].
  split; [reflexivity|]. split; reflexivity.
Defined.

Lemma unmarshalCertificateV1_rejects_witness :
  ∃ r w',
    unmarshalCertificateV1 (PC := wire.codec) [x0a; x03; x12; x01; x05]
      (sliceAt sample.otherKeyAt) sample.world = (r, w') ∧
    r = Err (Errorf "encoded IPs should be in pairs, an odd number was found") ∧
    w' = sample.world.
Proof.
  eexists _, _. split; [vm_compute; reflexivity|].
  split; [reflexivity|].
  edestruct (unmarshalCertificateV1_rejects (PC := wire.codec)
           [x0a; x03; x12; x01; x05] (sliceAt sample.otherKeyAt) sample.world)
    as [H _]; [| |exact H].
  - vm_compute. reflexivity.
  - discriminate.
Defined.

Lemma decoded_invariants_witness :
  ∃ c w',
    unmarshalCertificateV1 (PC := wire.codec)
      [x0a; x0b; x12; x09; x81; x80; x80; x50; x80; xfe; xff; xff; x0f]
      nilSlice sample.world = (Ok c, w') ∧
    Forall validIPv4Prefix (loadPrefixes w' (networks (details c))).
Proof.
  eexists _, _. split; [vm_compute; reflexivity|].
  edestruct (decoded_invariants (PC := wire.codec)
               [x0a; x0b; x12; x09; x81; x80; x80; x50; x80; xfe; xff; xff; x0f]
               nilSlice sample.world)
    as (rc & rd & _ & _ & H & _); [vm_compute; reflexivity|exact H].
Defined.

Lemma decoded_owns_its_arrays_witness :
  ∃ c w',
    unmarshalCertificateV1 (PC := wire.codec)
      [x0a; x0b; x12; x09; x81; x80; x80; x50; x80; xfe; xff; xff; x0f]
      nilSlice sample.world = (Ok c, w') ∧
    unallocated (byteArrays sample.world) (signature c) ∧
    loadBytes w' (sliceAt sample.keyAt) = loadBytes sample.world (sliceAt sample.keyAt).
Proof.
  eexists _, _. split; [vm_compute; reflexivity|].
  edestruct (decoded_owns_its_arrays (PC := wire.codec)
               [x0a; x0b; x12; x09; x81; x80; x80; x50; x80; xfe; xff; xff; x0f]
               nilSlice sample.world)
    as ((_ & _ & _ & H1 & _) & _ & (_ & _ & H2) & _);
    [vm_compute; reflexivity|split; [exact H1|apply H2]].
  - vm_compute. eauto.
  - discriminate.
Defined.

(** ** Addresses and masks *)

Lemma leadingOnes_shift fuel : ∀ v n,
  leadingOnes fuel v n =
  ((leadingOnes fuel v 0).1, n + (leadingOnes fuel v 0).2).
Proof.
  induction fuel as [|fuel IH]; intros v n; cbn [leadingOnes].
  - cbn [fst snd]. f_equal. lia.
  - destruct (Z.land v 128 =? 0).
    + cbn [fst snd]. f_equal. lia.
    + rewrite (IH _ (n + 1)), (IH _ (0 + 1)). cbn [fst snd]. f_equal. lia.
Qed.

(** A byte whose leading ones are all its ones is a byte of a mask. *)
Lemma leadingOnes_mask (v : byte) :
  (leadingOnes 8 (byte_to_Z v) 0).1 = 0 → v ≠ xff →
  0 <= (leadingOnes 8 (byte_to_Z v) 0).2 < 8 ∧
  byte_of_Z (Z.lxor 0xff (Z.shiftr 0xff (leadingOnes 8 (byte_to_Z v) 0).2)) = v.
Proof.
  destruct v; vm_compute; intros H1 H2;
    first [discriminate H1 | exfalso; apply H2; reflexivity
          | split; [split; [discriminate|reflexivity]|reflexivity]].
Qed.

Lemma CIDRMask_loop_zero l : CIDRMask_loop l 0 = replicate l x00.
Proof.
  induction l as [|l IH]; [reflexivity|].
  cbn [CIDRMask_loop replicate]. rewrite IH. reflexivity.
Qed.

Lemma forallb_zero (l : bytes) :
  forallb (fun b => byte_to_Z b =? 0) l = true → l = replicate (length l) x00.
Proof.
  induction l as [|x l IH]; [reflexivity|]. cbn [forallb length replicate].
  intros H. apply andb_true_iff in H as [Hx Hl]. rewrite <- IH by exact Hl.
  f_equal. apply Z.eqb_eq in Hx. rewrite <- (byte_of_to_Z x), Hx. reflexivity.
Qed.

Lemma length_CIDRMask_loop l : ∀ n, length (CIDRMask_loop l n) = l.
Proof.
  induction l as [|l IH]; intros n; [reflexivity|]. cbn [CIDRMask_loop].
  destruct (8 <=? n); cbn [length]; rewrite IH; reflexivity.
Qed.

(** A mask that [simpleMaskLength] accepts is the mask [net.CIDRMask]
    makes of its length. *)
Lemma simpleMaskLength_from_canonical mask : ∀ n k,
  0 <= n → simpleMaskLength_from mask n = k → k ≠ -1 →
  mask = CIDRMask_loop (length mask) (k - n).
Proof.
  induction mask as [|v rest IH]; intros n k Hn Hk Hne; [reflexivity|].
  cbn [simpleMaskLength_from length] in *.
  destruct (byte_to_Z v =? 255) eqn:Ev.
  - apply Z.eqb_eq in Ev.
    assert (v = xff) as -> by (rewrite <- (byte_of_to_Z v), Ev; reflexivity).
    destruct (simpleMaskLength_from_range rest (n + 8)) as [E|E]; [lia|congruence|].
    cbn [CIDRMask_loop].
    replace (8 <=? k - n) with true by (symmetry; apply Z.leb_le; lia).
    f_equal. replace (k - n - 8) with (k - (n + 8)) by lia.
    apply IH; [lia|exact Hk|exact Hne].
  - assert (Hv : v ≠ xff) by (intros ->; discriminate Ev).
    rewrite leadingOnes_shift in Hk.
    destruct (leadingOnes 8 (byte_to_Z v) 0) as [v' j] eqn:El. cbn [fst snd] in Hk.
    destruct (v' =? 0) eqn:Ev'; cbn [negb] in Hk; [|congruence].
    apply Z.eqb_eq in Ev'. subst v'.
    destruct (forallb _ rest) eqn:Ez; [|congruence].
    pose proof (leadingOnes_mask v) as Hm. rewrite El in Hm. cbn [fst snd] in Hm.
    destruct (Hm eq_refl Hv) as [Hj Hb].
    cbn [CIDRMask_loop]. subst k. replace (n + j - n) with j by lia.
    replace (8 <=? j) with false by (symmetry; apply Z.leb_gt; lia).
    rewrite Hb, CIDRMask_loop_zero. f_equal. apply forallb_zero. exact Ez.
Qed.

(** A mask [Size] reads a length from is the mask of that length. *)
Lemma Size_canonical m :
  uint32_ok m → Size (int2ip m) ≠ (0, 0) →
  0 <= (Size (int2ip m)).1 <= 32 ∧
  ip2int (CIDRMask (Size (int2ip m)).1 32) = Ok m.
Proof.
  intros Hm H. split; [apply Size_int2ip_range|].
  unfold Size in *.
  destruct (simpleMaskLength (int2ip m) =? -1) eqn:E; [congruence|].
  apply Z.eqb_neq in E. clear H. cbn [fst].
  pose proof (simpleMaskLength_from_canonical (int2ip m) 0 _ ltac:(lia) eq_refl E) as Hc.
  destruct (simpleMaskLength_from_range (int2ip m) 0) as [R|R]; [lia|contradiction|].
  fold (simpleMaskLength (int2ip m)) in *.
  set (k := simpleMaskLength (int2ip m)) in *.
  change (length (int2ip m)) with 4%nat in *.
  assert (Ek : CIDRMask k 32 = int2ip m).
  { unfold CIDRMask. cbn [Z.eqb negb andb].
    replace ((k <? 0) || (32 <? k)) with false
      by (symmetry; apply orb_false_iff; split; apply Z.ltb_ge; lia).
    rewrite Hc. f_equal. lia. }
  rewrite Ek. unfold ip2int. change (length (int2ip m)) with 4%nat.
  cbn [Z.of_nat Z.eqb Pos.of_succ_nat Pos.succ Pos.eqb].
  apply Uint32_PutUint32. exact Hm.
Qed.

(** X10.  A [uint32] is the mask that [getRawDetails] writes for some
    prefix length exactly when [Size] reads a length from it, the
    length it was written for; every other [uint32] (a mask with a
    zero before a one) is read as length zero of zero bits. *)
Theorem mask_read_back (m : Z) :
  uint32_ok m →
  ((∃ n, 0 <= n <= 32 ∧ ip2int (CIDRMask n 32) = Ok m) ↔
   Size (int2ip m) ≠ (0, 0)) ∧
  (∀ n, 0 <= n <= 32 → ip2int (CIDRMask n 32) = Ok m → Size (int2ip m) = (n, 32)).
Proof.
  intros Hm. split; [split|].
  - intros (n & Hn & H). rewrite (Size_CIDRMask n m Hn H). congruence.
  - intros H. destruct (Size_canonical m Hm H) as [Hr Hk]. eauto.
  - intros n Hn H. apply Size_CIDRMask; assumption.
Qed.

Lemma mask_read_back_witness :
  Size (int2ip 0xffffff00) = (24, 32) ∧ Size (int2ip 0xff00ff00) = (0, 0).
Proof.
  split.
  - apply (mask_read_back 0xffffff00); [split; [discriminate|reflexivity]|lia|].
    vm_compute. reflexivity.
  - reflexivity.
Defined.

Lemma Uint32_four (b : bytes) : (4 <= length b)%nat → ∃ n, Uint32 b = Ok n.
Proof.
  destruct b as [|b0 [|b1 [|b2 [|b3 rest]]]]; cbn [length]; try lia.
  intros _. eexists. reflexivity.
Qed.

Lemma Uint32_short (b : bytes) :
  (length b < 4)%nat → Uint32 b = Panic "index out of range".
Proof.
  destruct b as [|b0 [|b1 [|b2 [|b3 rest]]]]; cbn [length]; try lia; reflexivity.
Qed.

(** X11.  [ip2int] reads back what [int2ip] wrote; of a 16-byte
    address or mask it reads the last four bytes; it panics on a slice
    of fewer than four bytes, the [nil] mask among them; and of any
    other slice it reads the first four bytes. *)
Theorem ip2int_reads (ip pre rest : bytes) (nn : Z) :
  uint32_ok nn →
  ip2int (int2ip nn) = Ok nn ∧
  (length pre = 12%nat → ip2int (pre ++ int2ip nn) = Ok nn) ∧
  ((length ip < 4)%nat → ip2int ip = Panic "index out of range") ∧
  (length rest ≠ 12%nat → ip2int (int2ip nn ++ rest) = Ok nn).
Proof.
  intros Hn. pose proof (Uint32_PutUint32 nn Hn) as HU.
  split; [exact HU|]. split; [|split].
  - intros Hp. unfold ip2int. rewrite length_app, Hp.
    change (length (int2ip nn)) with 4%nat. cbn [Nat.add Z.of_nat Z.eqb Pos.of_succ_nat
      Pos.succ Pos.eqb].
    rewrite drop_app_length'; [exact HU|symmetry; exact Hp].
  - intros Hl. unfold ip2int.
    replace (Z.of_nat (length ip) =? 16) with false
      by (symmetry; apply Z.eqb_neq; lia).
    apply Uint32_short. exact Hl.
  - intros Hr. unfold ip2int. rewrite length_app.
    change (length (int2ip nn)) with 4%nat.
    replace (Z.of_nat (4 + length rest) =? 16) with false
      by (symmetry; apply Z.eqb_neq; lia).
    revert HU. unfold int2ip, PutUint32, Uint32. cbn [app]. auto.
Qed.

Lemma ip2int_reads_witness :
  ip2int (int2ip 0x0a000001) = Ok 0x0a000001 ∧
  ip2int (replicate 12 xff ++ int2ip 0xffffff00) = Ok 0xffffff00 ∧
  ip2int [] = Panic "index out of range".
Proof.
  destruct (ip2int_reads [] (replicate 12 xff) [] 0x0a000001)
    as (H1 & _ & H3 & _); [split; [discriminate|reflexivity]|].
  destruct (ip2int_reads [] (replicate 12 xff) [] 0xffffff00)
    as (_ & H2 & _); [split; [discriminate|reflexivity]|].
  split; [exact H1|]. split; [apply H2; reflexivity|apply H3; simpl; lia].
Defined.

(** The address of an IPv4-mapped address as [addr2int] converts it. *)
Lemma addr2int_Unmap a :
  Is4In6 a = true → addr2int (Unmap a) = addr2int a.
Proof.
  intros H. destruct (Unmap_Is4In6 a H) as (b0 & b1 & b2 & b3 & E).
  unfold addr2int. rewrite E. reflexivity.
Qed.

(** The masks of the IPv4-mapped prefix lengths. *)
Lemma ip2int_CIDRMask_128 bits :
  0 <= bits <= 128 →
  ip2int (CIDRMask bits 128) = ip2int (CIDRMask (Z.max 0 (bits - 96)) 32).
Proof.
  intros H.
  pose (same := fun k : nat =>
          match ip2int (CIDRMask (Z.of_nat k) 128),
                ip2int (CIDRMask (Z.max 0 (Z.of_nat k - 96)) 32) with
          | Ok x, Ok y => x =? y
          | _, _ => false
          end).
  assert (Hall : forallb same (seq 0 129) = true) by (vm_compute; reflexivity).
  rewrite forallb_forall in Hall.
  specialize (Hall (Z.to_nat bits)). unfold same in Hall.
  rewrite Z2Nat.id in Hall by lia.
  destruct (ip2int (CIDRMask bits 128)) as [x| |];
    destruct (ip2int (CIDRMask (Z.max 0 (bits - 96)) 32)) as [y| |];
    try (discriminate Hall; apply in_seq; lia).
  f_equal. apply Z.eqb_eq. apply Hall. apply in_seq. lia.
Qed.

Section Flattening.
Context {PC : ProtoCodec} {CR : Crypto} {CO : Collaborators}.

(** X12.  [getRawDetails] flattens a prefix of an IPv4-mapped IPv6
    address as the IPv4 prefix it maps: the unmapped address, with the
    length less 96, and length zero when it is within the mapping
    prefix itself. *)
Theorem mapped_prefix_flattened (a : Addr) (bits : Z) (acc : list Z)
    (rest : list Prefix) :
  Is4In6 a = true → 0 <= bits <= 128 →
  appendNetworks acc (mkPrefix a (bits + 1) :: rest) =
  appendNetworks acc (mkPrefix (Unmap a) (Z.max 0 (bits - 96) + 1) :: rest).
Proof.
  intros Ha Hb. destruct (Unmap_Is4In6 a Ha) as (b0 & b1 & b2 & b3 & E).
  cbn [appendNetworks]. unfold Prefix_Addr, Bits. cbn [ip bitsPlusOne].
  rewrite (addr2int_Unmap a Ha).
  replace (bits + 1 - 1) with bits by lia.
  replace (Z.max 0 (bits - 96) + 1 - 1) with (Z.max 0 (bits - 96)) by lia.
  assert (BitLen a = 128) as ->.
  { destruct a; try discriminate. reflexivity. }
  rewrite E. cbn [BitLen]. rewrite (ip2int_CIDRMask_128 bits Hb). reflexivity.
Qed.

Lemma encodable_flattens p :
  encodable p →
  ∃ a m, addr2int (Prefix_Addr p) = Ok a ∧
         ip2int (CIDRMask (Bits p) (BitLen (Prefix_Addr p))) = Ok m.
Proof.
  intros [Hk Hb].
  assert (Ha : ∃ a, addr2int (Prefix_Addr p) = Ok a).
  { destruct Hk as [Hk|Hk].
    - destruct (Prefix_Addr p); try discriminate. eexists. apply addr2int_Addr4.
    - rewrite <- (addr2int_Unmap _ Hk).
      destruct (Unmap_Is4In6 _ Hk) as (b0 & b1 & b2 & b3 & ->).
      eexists. apply addr2int_Addr4. }
  destruct Ha as [a Ha]. exists a.
  assert (Hm : ∃ m, ip2int (CIDRMask (Bits p) (BitLen (Prefix_Addr p))) = Ok m).
  { destruct Hk as [Hk|Hk].
    - destruct (Prefix_Addr p); try discriminate. cbn [BitLen] in *.
      destruct (ip2int_CIDRMask_Ok (Bits p) Hb) as (m & Hm & _). eauto.
    - assert (BitLen (Prefix_Addr p) = 128) as E.
      { destruct (Prefix_Addr p); try discriminate. reflexivity. }
      rewrite E in *. rewrite (ip2int_CIDRMask_128 _ Hb).
      destruct (ip2int_CIDRMask_Ok (Z.max 0 (Bits p - 96)) ltac:(lia)) as (m & Hm & _).
      eauto. }
  destruct Hm as [m Hm]. eauto.
Qed.

Lemma not_encodable_panics p :
  ¬ encodable p →
  (∃ msg, addr2int (Prefix_Addr p) = Panic msg) ∨
  (∃ msg, ip2int (CIDRMask (Bits p) (BitLen (Prefix_Addr p))) = Panic msg).
Proof.
  intros H. unfold encodable in H.
  destruct (Is4 (Prefix_Addr p)) eqn:E4.
  - right. destruct (Prefix_Addr p); try discriminate. cbn [BitLen] in *.
    assert (Hb : ¬ 0 <= Bits p <= 32) by tauto.
    exists "index out of range"%string. unfold CIDRMask. cbn [Z.eqb negb andb].
    replace ((Bits p <? 0) || (32 <? Bits p)) with true; [reflexivity|].
    symmetry. apply orb_true_iff. rewrite !Z.ltb_lt. lia.
  - destruct (Is4In6 (Prefix_Addr p)) eqn:E6.
    + right. assert (BitLen (Prefix_Addr p) = 128) as E.
      { destruct (Prefix_Addr p); try discriminate. reflexivity. }
      rewrite E in *. assert (Hb : ¬ 0 <= Bits p <= 128) by tauto.
      exists "index out of range"%string. unfold CIDRMask. cbn [Z.eqb negb andb].
      replace ((Bits p <? 0) || (128 <? Bits p)) with true; [reflexivity|].
      symmetry. apply orb_true_iff. rewrite !Z.ltb_lt. lia.
    + left. unfold addr2int, Unmap. rewrite E6. unfold As4. rewrite E4, E6.
      cbn [orb]. destruct (isZero (Prefix_Addr p)); eexists; reflexivity.
Qed.

Lemma appendNetworks_encodable nets : ∀ acc,
  (∃ raw, appendNetworks acc nets = Ok raw) ↔ Forall encodable nets.
Proof.
  induction nets as [|p rest IH]; intros acc.
  - split; [constructor|]. intros _. eexists. reflexivity.
  - cbn [appendNetworks]. split.
    + intros [raw H].
      assert (Hp : encodable p).
      { destruct (decide (encodable p)) as [Hp|Hp]; [exact Hp|].
        destruct (not_encodable_panics p Hp) as [[msg E]|[msg E]].
        - rewrite E in H. discriminate.
        - rewrite E in H. destruct (addr2int (Prefix_Addr p)); discriminate. }
      constructor; [exact Hp|].
      destruct (encodable_flattens p Hp) as (a & m & Ea & Em).
      rewrite Ea, Em in H. cbn [mbind result_bind] in H.
      apply (IH (acc ++ [a; m])). eauto.
    + intros H. inversion H as [|? ? Hp Hrest]; subst.
      destruct (encodable_flattens p Hp) as (a & m & Ea & Em).
      rewrite Ea, Em. cbn [mbind result_bind]. apply IH. exact Hrest.
Qed.

(** X13.  [getRawDetails] returns exactly when every network and
    unsafe network is a prefix of an IPv4 or IPv4-mapped address with
    a length within the bits of its address; otherwise it panics (on
    the zero address, on an IPv6 address that is not IPv4-mapped, on
    an invalid prefix, whose mask is [nil]), and [Marshal],
    [marshalForSigning] and [Fingerprint] panic with it. *)
Theorem getRawDetails_succeeds_iff (w : World) (c : certificateV1) :
  ((∃ rd, getRawDetails w c = Ok rd) ↔
   Forall encodable (loadPrefixes w (networks (details c))) ∧
   Forall encodable (loadPrefixes w (unsafeNetworks (details c)))) ∧
  ((∃ rd, getRawDetails w c = Ok rd) ∨
   (∃ msg, getRawDetails w c = Panic msg ∧ Marshal w c = Panic msg ∧
           marshalForSigning w c = Panic msg ∧ Fingerprint w c = Panic msg)).
Proof.
  unfold Fingerprint, Marshal, marshalForSigning, getRawDetails.
  pose proof (appendNetworks_encodable (loadPrefixes w (networks (details c))) []) as HN.
  pose proof (appendNetworks_encodable (loadPrefixes w (unsafeNetworks (details c))) [])
    as HU.
  pose proof (appendNetworks_not_Err (loadPrefixes w (networks (details c))) []) as EN.
  pose proof (appendNetworks_not_Err (loadPrefixes w (unsafeNetworks (details c))) [])
    as EU.
  destruct (appendNetworks [] (loadPrefixes w (networks (details c)))) as [ips|e|msg];
    cbn [mbind result_bind].
  2: { exfalso. eapply EN. reflexivity. }
  2: { split; [|right; eauto]. split; [intros [rd H]; discriminate|].
       intros [H _]. apply HN in H as [raw H]. discriminate. }
  destruct (appendNetworks [] (loadPrefixes w (unsafeNetworks (details c))))
    as [subnets|e|msg]; cbn [mbind result_bind].
  2: { exfalso. eapply EU. reflexivity. }
  2: { split; [|right; eauto]. split; [intros [rd H]; discriminate|].
       intros [_ H]. apply HU in H as [raw H]. discriminate. }
  split; [|left; eauto].
  split; [|eauto]. intros _. split; [apply HN|apply HU]; eauto.
Qed.

End Flattening.

Lemma mapped_prefix_flattened_witness :
  appendNetworks [] [sample.net_mapped] =
  appendNetworks [] [PrefixFrom (Addr4 x01 x02 x03 x04) 24].
Proof.
  apply (mapped_prefix_flattened (Addr6 0 0xffff01020304 EmptyString) 120 [] []).
  - reflexivity.
  - lia.
Defined.

Lemma getRawDetails_succeeds_iff_witness :
  ∃ rd, getRawDetails sample.world sample.cert = Ok rd.
Proof.
  apply (getRawDetails_succeeds_iff (PC := wire.codec) (CR := standin.crypto)
           sample.world sample.cert).
  split.
  - match goal with
    | |- Forall _ ?l => let l' := eval vm_compute in l in change l with l'
    end.
    repeat constructor; vm_compute; discriminate.
  - match goal with
    | |- Forall _ ?l => let l' := eval vm_compute in l in change l with l'
    end.
    repeat constructor; vm_compute; discriminate.
Defined.

(** ** The order of [comparePrefix] *)

Lemma comparePrefix_alt a b :
  comparePrefix a b =
  match compareAddr (ip a) (ip b) with
  | Eq => bitsPlusOne a - bitsPlusOne b
  | Lt => -1
  | Gt => 1
  end.
Proof.
  unfold comparePrefix, Prefix_Addr, Bits. rewrite Compare_compareAddr.
  destruct (compareAddr (ip a) (ip b)); cbn [compare_to_Z Z.eqb]; [lia|reflexivity..].
Qed.

(** X14.  [comparePrefix] is a comparison function of a total order on
    prefixes, as [slices.SortFunc] requires: it is zero on equal
    prefixes only, negative one way exactly when it is positive the
    other way, and transitive. *)
Theorem comparePrefix_total_order (a b c : Prefix) :
  (comparePrefix a b = 0 ↔ a = b) ∧
  (comparePrefix a b < 0 ↔ 0 < comparePrefix b a) ∧
  (comparePrefix a b < 0 → comparePrefix b c < 0 → comparePrefix a c < 0).
Proof.
  rewrite !comparePrefix_alt, (compareAddr_antisym (ip a) (ip b)).
  split; [|split].
  - split.
    + destruct (compareAddr (ip a) (ip b)) eqn:E; try discriminate.
      intros H. apply compareAddr_eq in E. destruct a, b; cbn in *.
      f_equal; [exact E|lia].
    + intros <-. rewrite compareAddr_refl. lia.
  - destruct (compareAddr (ip a) (ip b)); cbn [CompOpp]; lia.
  - destruct (compareAddr (ip a) (ip b)) eqn:E1.
    + apply compareAddr_eq in E1. rewrite <- E1.
      destruct (compareAddr (ip a) (ip c)); lia.
    + destruct (compareAddr (ip b) (ip c)) eqn:E2.
      * apply compareAddr_eq in E2. rewrite <- E2, E1. lia.
      * rewrite (compareAddr_lt_trans _ _ _ E1 E2). lia.
      * lia.
    + lia.
Qed.

Lemma comparePrefix_total_order_witness :
  comparePrefix sample.net_10_0_0_1 sample.net_192_168 < 0.
Proof.
  apply (comparePrefix_total_order sample.net_10_0_0_1 sample.net_10_0_0_2
           sample.net_192_168); vm_compute; reflexivity.
Defined.

(** ** [Expired] *)

(** X15.  A certificate whose [notAfter] is before its [notBefore] is
    expired at every instant. *)
Theorem Expired_inverted_window (c : certificateV1) (t : Time) :
  time_lt (notAfter (details c)) (notBefore (details c)) → Expired c t = true.
Proof.
  unfold Expired, After, Before, time_lt. intros H.
  apply orb_true_iff. rewrite !orb_true_iff, !andb_true_iff, !Z.ltb_lt, !Z.eqb_eq.
  lia.
Qed.

Lemma Expired_inverted_window_witness :
  Expired
    (mkCertificateV1
       (mkDetailsV1 "ca" nilSlice nilSlice nilSlice sample.t1 sample.t0 nilSlice true
          EmptyString Curve_CURVE25519) nilSlice)
    (mkTime 150 0) = true.
Proof.
  apply Expired_inverted_window. vm_compute. left. reflexivity.
Defined.

(** ** Signing: the signer predicate and the store *)

Section SignerAndStore.
Context {PC : ProtoCodec} {CR : Crypto} {CO : Collaborators}.

(** What [seal] does with the signer predicate on a version 1
    request. *)
Lemma seal_V1_signer t sp w r t' w' :
  TBS.Version t = Version1 →
  seal t sp w = (r, t', w') →
  (signerCalls w' = signerCalls w ∧ (∀ cert, r ≠ Ok cert)) ∨
  (∃ certBytes,
     signerCalls w' = certBytes :: signerCalls w ∧
     match sp certBytes with
     | Ok sig => ∃ c, r = Ok (CertV1 c) ∧ loadBytes w' (signature c) = sig
     | Err err => r = Err err
     | Panic msg => r = Panic msg
     end).
Proof.
  intros Hv. unfold seal. rewrite Hv. cbn [Z.eqb Version1 Pos.eqb].
  unfold fromTBSCertificate.
  destruct (marshalForSigning _ _) as [certBytes|e|msg].
  2: { intros [= <- <- <-]. left. split; [reflexivity|discriminate]. }
  2: { intros [= <- <- <-]. left. split; [reflexivity|discriminate]. }
  destruct (sp certBytes) as [sig|e|msg] eqn:Es.
  - destruct (allocBytes _ sig) as [s w3] eqn:Ea. unfold setSignature.
    intros [= <- <- <-]. right. exists certBytes.
    apply allocBytes_eq in Ea as [-> ->]. cbn [signerCalls logSignerCall].
    split; [reflexivity|]. rewrite Es. eexists. split; [reflexivity|].
    unfold loadBytes. cbn [signature byteArrays]. apply load_alloc_new.
  - intros [= <- <- <-]. right. exists certBytes. rewrite Es. auto.
  - intros [= <- <- <-]. right. exists certBytes. rewrite Es. auto.
Qed.

Lemma SignWithPredicate_seal t signer keyCurve sp w r t' w' :
  SignWithPredicate t signer keyCurve sp w = (r, t', w') →
  (r, t', w') = seal t sp w ∨
  (∃ iss, (r, t', w') = seal (TBS.set_issuer t iss) sp w) ∨
  ((∀ cert, r ≠ Ok cert) ∧ t' = t ∧ w' = w).
Proof.
  unfold SignWithPredicate.
  destruct (negb (keyCurve =? TBS.Curve t)).
  { intros [= <- <- <-]. right. right. split; [discriminate|auto]. }
  destruct signer as [s|].
  - destruct (TBS.IsCA t).
    { intros [= <- <- <-]. right. right. split; [discriminate|auto]. }
    destruct (checkCAConstraints _ _ _ _ _ _ _).
    { intros [= <- <- <-]. right. right. split; [discriminate|auto]. }
    destruct (Fingerprint_of w s) as [fp| |].
    + intros <-. right. left. eauto.
    + intros [= <- <- <-]. right. right. split; [discriminate|auto].
    + intros [= <- <- <-]. right. right. split; [discriminate|auto].
  - destruct (negb (TBS.IsCA t)).
    { intros [= <- <- <-]. right. right. split; [discriminate|auto]. }
    intros <-. left. reflexivity.
Qed.

(** X16.  [SignWithPredicate] on a version 1 request invokes the signer
    predicate at most once.  When it does, the outcome is the
    predicate's: its error or its panic, as it is, or a certificate
    whose signature is the bytes the predicate returned, whatever they
    are.  When it does not, there is no certificate. *)
Theorem signer_invoked_once (t : TBSCertificate) (signer : option Certificate)
    (keyCurve : Z) (sp : SignerPredicate) (w : World)
    (r : result Certificate) (t' : TBSCertificate) (w' : World) :
  TBS.Version t = Version1 →
  SignWithPredicate t signer keyCurve sp w = (r, t', w') →
  (signerCalls w' = signerCalls w ∧ (∀ cert, r ≠ Ok cert)) ∨
  (∃ certBytes,
     signerCalls w' = certBytes :: signerCalls w ∧
     match sp certBytes with
     | Ok sig => ∃ c, r = Ok (CertV1 c) ∧ loadBytes w' (signature c) = sig
     | Err err => r = Err err
     | Panic msg => r = Panic msg
     end).
Proof.
  intros Hv H.
  destruct (SignWithPredicate_seal _ _ _ _ _ _ _ _ H) as [E|[[iss E]|(Hr & -> & ->)]].
  - eapply seal_V1_signer; [exact Hv|symmetry; exact E].
  - eapply seal_V1_signer; [|symmetry; exact E]. exact Hv.
  - left. auto.
Qed.

(** X17.  Whatever its outcome, [SignWithPredicate] leaves every array
    of strings and every array of bytes there was as it was (the
    groups and the public keys among them), and every array of
    prefixes other than the receiver's [Networks] and [UnsafeNetworks],
    which hold the prefixes they held, in some order. *)
Theorem SignWithPredicate_frame (t : TBSCertificate) (signer : option Certificate)
    (keyCurve : Z) (sp : SignerPredicate) (w : World)
    (r : result Certificate) (t' : TBSCertificate) (w' : World) :
  SignWithPredicate t signer keyCurve sp w = (r, t', w') →
  stringArrays w' = stringArrays w ∧
  (∀ s, live (byteArrays w) s → loadBytes w' s = loadBytes w s) ∧
  (∀ s, s ≠ TBS.Networks t → s ≠ TBS.UnsafeNetworks t →
        loadPrefixes w' s = loadPrefixes w s) ∧
  loadPrefixes w' (TBS.Networks t) ≡ₚ loadPrefixes w (TBS.Networks t) ∧
  loadPrefixes w' (TBS.UnsafeNetworks t) ≡ₚ loadPrefixes w (TBS.UnsafeNetworks t).
Proof.
  intros H.
  assert (Hseal : ∀ t0 r t' w', TBS.Networks t0 = TBS.Networks t →
            TBS.UnsafeNetworks t0 = TBS.UnsafeNetworks t →
            seal t0 sp w = (r, t', w') →
            stringArrays w' = stringArrays w ∧
            (∀ s, live (byteArrays w) s → loadBytes w' s = loadBytes w s) ∧
            (∀ s, s ≠ TBS.Networks t → s ≠ TBS.UnsafeNetworks t →
                  loadPrefixes w' s = loadPrefixes w s) ∧
            loadPrefixes w' (TBS.Networks t) ≡ₚ loadPrefixes w (TBS.Networks t) ∧
            loadPrefixes w' (TBS.UnsafeNetworks t) ≡ₚ
              loadPrefixes w (TBS.UnsafeNetworks t)).
  { clear. intros t0 r t' w' EN EU H.
    pose proof (seal_frame _ _ _ _ _ _ H) as (_ & HP & HS).
    rewrite EN, EU in HP.
    split; [exact HS|]. split.
    - intros s Hs. revert H.
      unfold seal, fromTBSCertificate, setSignature.
      repeat match goal with
             | |- context [match ?x with _ => _ end] => destruct x eqn:?
             end;
        intros [= <- <- <-]; try reflexivity;
        match goal with
        | E : allocBytes _ _ = _ |- _ => apply allocBytes_eq in E as [_ ->]
        end;
        unfold loadBytes; cbn [byteArrays logSignerCall];
        apply (load_alloc_old (byteArrays w) _ s Hs).
    - destruct (load_sorted_twice w (TBS.Networks t) (TBS.UnsafeNetworks t)) as [E1 E2].
      unfold loadPrefixes in *. rewrite HP. split; [|split].
      + intros s H1 H2. unfold SortFunc, savePrefixes. cbn [prefixArrays].
        rewrite !load_save_ne by congruence. reflexivity.
      + rewrite E1. apply merge_sort_Permutation.
      + rewrite E2. apply merge_sort_Permutation. }
  destruct (SignWithPredicate_seal _ _ _ _ _ _ _ _ H) as [E|[[iss E]|(_ & -> & ->)]].
  - eapply Hseal; [| |symmetry; exact E]; reflexivity.
  - eapply Hseal; [| |symmetry; exact E]; reflexivity.
  - auto.
Qed.

(** X18.  A version 1 certificate signed with a version 1 signer has
    for issuer the hexadecimal SHA-256 digest of the signer's
    [Marshal] bytes, which the receiver is left with as well; and
    [getRawDetails] writes that digest itself as the encoded issuer. *)
Theorem issuer_is_signer_digest (t : TBSCertificate) (s : certificateV1)
    (keyCurve : Z) (sp : SignerPredicate) (w : World)
    (c : certificateV1) (t' : TBSCertificate) (w' : World) :
  SignWithPredicate t (Some (CertV1 s)) keyCurve sp w = (Ok (CertV1 c), t', w') →
  ∃ signerBytes,
    Marshal w s = Ok signerBytes ∧
    issuer (details c) = EncodeToString (sha256_Sum256 signerBytes) ∧
    TBS.issuer t' = EncodeToString (sha256_Sum256 signerBytes) ∧
    ∀ rd, getRawDetails w' c = Ok rd → pb.Issuer rd = sha256_Sum256 signerBytes.
Proof.
  intros H. apply SignWithPredicate_Ok in H as (iss & Ht & Hf & H).
  cbn [Fingerprint_of] in Hf. unfold Fingerprint in Hf.
  destruct (Marshal w s) as [signerBytes| |] eqn:Em; try discriminate.
  cbn [mbind result_bind] in Hf. injection Hf as <-.
  exists signerBytes. split; [reflexivity|].
  apply seal_V1_inv in H as (c0 & certBytes & sig & _ & _ & Hc0 & _ & _ & Hd & _).
  unfold fromTBSCertificate in Hc0. injection Hc0 as <-.
  assert (Hi : issuer (details c) = EncodeToString (sha256_Sum256 signerBytes)).
  { rewrite Hd. reflexivity. }
  split; [exact Hi|]. split; [rewrite Ht; reflexivity|].
  intros rd. unfold getRawDetails.
  destruct (appendNetworks [] (loadPrefixes w' (networks (details c)))); try discriminate.
  destruct (appendNetworks [] (loadPrefixes w' (unsafeNetworks (details c))));
    try discriminate.
  cbn [mbind result_bind]. intros [= <-]. cbn [pb.Issuer].
  rewrite Hi, DecodeString_EncodeToString. reflexivity.
Qed.

End SignerAndStore.

Lemma signer_invoked_once_witness :
  ∃ r t' w',
    SignWithPredicate (PC := wire.codec) (CR := standin.crypto)
      (CO := standin.collaborators)
      sample.ca_tbs None Curve_CURVE25519
      (fun _ => Err (LibError "pkclient" "token removed")) sample.world
      = (r, t', w') ∧
    r = Err (LibError "pkclient" "token removed") ∧
    ∃ certBytes, signerCalls w' = [certBytes].
Proof.
  eexists _, _, _. split; [vm_compute; reflexivity|].
  split; [reflexivity|].
  edestruct (signer_invoked_once (PC := wire.codec) (CR := standin.crypto)
               (CO := standin.collaborators)
               sample.ca_tbs None Curve_CURVE25519
               (fun _ => Err (LibError "pkclient" "token removed")) sample.world)
    as [[H _]|(certBytes & H & _)]; [reflexivity|vm_compute; reflexivity| |].
  - vm_compute in H. discriminate H.
  - exists certBytes. exact H.
Defined.

Lemma SignWithPredicate_frame_witness :
  ∃ r t' w',
    SignWithPredicate (PC := wire.codec) (CR := standin.crypto)
      (CO := standin.collaborators)
      sample.ca_tbs None Curve_CURVE25519 sample.sp sample.world = (r, t', w') ∧
    loadBytes w' (sliceAt sample.keyAt) = loadBytes sample.world (sliceAt sample.keyAt) ∧
    loadPrefixes w' (sliceAt sample.networksAt) ≡ₚ
      loadPrefixes sample.world (sliceAt sample.networksAt).
Proof.
  eexists _, _, _. split; [vm_compute; reflexivity|].
  edestruct (SignWithPredicate_frame (PC := wire.codec) (CR := standin.crypto)
               (CO := standin.collaborators)
               sample.ca_tbs None Curve_CURVE25519 sample.sp sample.world)
    as (_ & H1 & _ & H2 & _); [vm_compute; reflexivity|].
  split; [apply H1; vm_compute; eauto|exact H2].
Defined.

Lemma issuer_is_signer_digest_witness :
  ∃ c t' w',
    SignWithPredicate (PC := wire.codec) (CR := standin.crypto)
      (CO := standin.collaborators)
      sample.leaf_tbs (Some (CertV1 sample.cert)) Curve_CURVE25519 sample.sp
      sample.world = (Ok (CertV1 c), t', w') ∧
    ∃ signerBytes,
      Marshal (PC := wire.codec) sample.world sample.cert = Ok signerBytes ∧
      issuer (details c) =
        EncodeToString (sha256_Sum256 (Crypto := standin.crypto) signerBytes).
Proof.
  eexists _, _, _. split; [vm_compute; reflexivity|].
  edestruct (issuer_is_signer_digest (PC := wire.codec) (CR := standin.crypto)
               (CO := standin.collaborators)
               sample.leaf_tbs sample.cert Curve_CURVE25519 sample.sp sample.world)
    as (signerBytes & H1 & H2 & _); [vm_compute; reflexivity|].
  exists signerBytes. split; [exact H1|exact H2].
Defined.

(** ** The handshake form carries no public key *)

Section HandshakeBytes.
Context {PC : ProtoCodec} (laws : ProtoLaws PC) {CR : Crypto} {CO : Collaborators}.

(** X19.  The bytes [MarshalForHandshakes] returns for a certificate
    the encoding can hold carry no public key: decoded with no key
    supplied they give the certificate with an empty public key, every
    other field as [Marshal] and [unmarshalCertificateV1] keep it; and
    they are the bytes of [Marshal] itself when the certificate has no
    public key. *)
Theorem handshake_bytes_omit_key (w : World) (c : certificateV1) (b : bytes)
    (c1 : certificateV1) :
  representable w c →
  MarshalForHandshakes w c = (Ok b, c1) →
  (∃ c' w',
     unmarshalCertificateV1 b nilSlice w = (Ok c', w') ∧
     observe w' c' = withPublicKey (atSeconds (observe w c)) []) ∧
  (loadBytes w (publicKey (details c)) = [] → Marshal w c = Ok b).
Proof.
  intros Hr H. unfold MarshalForHandshakes in H.
  destruct (Marshal w (set_publicKey c nilSlice)) as [b'| |] eqn:Em; try discriminate.
  injection H as <- _.
  split.
  - destruct (decode_marshalled laws w (set_publicKey c nilSlice) b' nilSlice)
      as (c' & w' & Hu & Ho); [exact Hr|exact Em|].
    exists c', w'. split; [exact Hu|]. rewrite Ho. reflexivity.
  - intros Hk. rewrite <- Em. apply Marshal_observe.
    unfold observe, set_publicKey.
    cbn [details name notBefore notAfter isCA issuer curve networks unsafeNetworks
         groups publicKey signature].
    rewrite Hk. reflexivity.
Qed.

End HandshakeBytes.

Lemma handshake_bytes_omit_key_witness :
  ∃ b c1,
    MarshalForHandshakes (PC := wire.codec) sample.world sample.cert = (Ok b, c1) ∧
    representable sample.world sample.cert ∧
    ∃ c' w',
      unmarshalCertificateV1 (PC := wire.codec) b nilSlice sample.world = (Ok c', w') ∧
      observe w' c' =
        withPublicKey (atSeconds (observe sample.world sample.cert)) [].
Proof.
  eexists _, _. split; [vm_compute; reflexivity|].
  assert (Hr : representable sample.world sample.cert).
  { split; [|split; [|split]].
    - match goal with
      | |- Forall _ ?l => let l' := eval vm_compute in l in change l with l'
      end.
      repeat constructor; vm_compute; discriminate.
    - match goal with
      | |- Forall _ ?l => let l' := eval vm_compute in l in change l with l'
      end.
      repeat constructor; vm_compute; discriminate.
    - reflexivity.
    - vm_compute. split; [discriminate|reflexivity]. }
  split; [exact Hr|].
  edestruct (handshake_bytes_omit_key (PC := wire.codec) codec_laws
               sample.world sample.cert) as [H1 _]; [exact Hr| |exact H1].
  vm_compute. reflexivity.
Defined.

(** ** Decoding, then encoding *)

Lemma appendNetworks_pairUp (n : nat) : ∀ raw acc,
  (length raw <= n)%nat →
  Forall uint32_ok raw → (length raw mod 2 = 0)%nat → canonicalMasks raw →
  appendNetworks acc (pairUp raw) = Ok (acc ++ raw).
Proof.
  induction n as [|n IH]; intros raw acc Hlen Hok Hev Hc.
  - destruct raw; [|cbn [length] in Hlen; lia]. cbn. rewrite app_nil_r. reflexivity.
  - destruct raw as [|a [|m rest]].
    + cbn. rewrite app_nil_r. reflexivity.
    + discriminate Hev.
    + cbn [pairUp appendNetworks]. destruct Hc as [Hm Hc].
      inversion Hok as [|? ? Ha Hok']; subst.
      inversion Hok' as [|? ? Hm' Hok'']; subst.
      destruct (Size_canonical m Hm' Hm) as [Hr Hmask].
      unfold Prefix_Addr, Bits, PrefixFrom. rewrite int2addr_eq.
      cbn [ip bitsPlusOne withoutZone isZero negb andb BitLen].
      replace ((0 <=? (Size (int2ip m)).1) && ((Size (int2ip m)).1 <=? 32)) with true
        by (symmetry; apply andb_true_iff; split; apply Z.leb_le; lia).
      replace ((Size (int2ip m)).1 + 1 - 1) with (Size (int2ip m)).1 by lia.
      rewrite Hmask. rewrite <- int2addr_eq, (addr2int_int2addr a Ha).
      cbn [mbind result_bind].
      rewrite IH.
      * rewrite <- app_assoc. reflexivity.
      * cbn [length] in Hlen. lia.
      * exact Hok''.
      * cbn [length] in Hev. 
        replace (S (S (length rest))) with (length rest + 1 * 2)%nat in Hev by lia.
        rewrite Nat.Div0.mod_add in Hev. exact Hev.
      * exact Hc.
Qed.

Section Reencoding.
Context {PC : ProtoCodec} (laws : ProtoLaws PC) {CR : Crypto} {CO : Collaborators}.

(** X20.  Decoding a message whose masks are all masks of a prefix
    length, with no public key supplied, and flattening the decoded
    certificate again gives the details of the message as they were
    decoded, so that [Marshal] hands [proto.Marshal] the very message
    [proto.Unmarshal] returned. *)
Theorem decoded_reencodes (b : bytes) (w : World) (c : certificateV1) (w' : World)
    (rc : pb.RawNebulaCertificate) (rd : pb.RawNebulaCertificateDetails) :
  unmarshalCertificateV1 b nilSlice w = (Ok c, w') →
  proto_Unmarshal b = Ok rc → pb.Details rc = Some rd →
  canonicalMasks (pb.Ips rd) → canonicalMasks (pb.Subnets rd) →
  getRawDetails w' c = Ok rd ∧ Marshal w' c = proto_Marshal rc.
Proof.
  intros H Hun Hd Hci Hcs.
  destruct (unmarshal_inv _ _ _ _ _ H)
    as (rc' & rd' & _ & Hun' & Hd' & Hi & Hs & Hname & Hnb & Hna & Hca & Hiss & Hcv &
        HN & HU & HG & HS & HK).
  rewrite Hun in Hun'. injection Hun' as <-.
  rewrite Hd in Hd'. injection Hd' as <-.
  cbn [loadBytes load length Nat.ltb Nat.leb] in HK.
  pose proof (unmarshal_ok PC laws _ _ Hun) as Hok. unfold pb.certificate_ok in Hok.
  rewrite Hd in Hok. destruct Hok as (Oi & Os & Onb & Ona & _).
  assert (Hrd : getRawDetails w' c = Ok rd).
  { unfold getRawDetails. rewrite HN, HU, HG, HK, Hname, Hnb, Hna, Hca, Hiss, Hcv.
    rewrite (appendNetworks_pairUp _ _ [] (le_n _) Oi Hi Hci).
    rewrite (appendNetworks_pairUp _ _ [] (le_n _) Os Hs Hcs).
    cbn [mbind result_bind app]. rewrite !Unix_time_Unix by assumption.
    rewrite DecodeString_EncodeToString. cbn [fst].
    rewrite copied_same_length by (rewrite length_replicate; reflexivity).
    destruct rd. reflexivity. }
  split; [exact Hrd|].
  unfold Marshal. rewrite Hrd. cbn [mbind result_bind]. rewrite HS, <- Hd.
  destruct rc. reflexivity.
Qed.

End Reencoding.

Lemma decoded_reencodes_witness :
  ∃ c w',
    unmarshalCertificateV1 (PC := wire.codec)
      [x0a; x0b; x12; x09; x81; x80; x80; x50; x80; xfe; xff; xff; x0f]
      nilSlice sample.world = (Ok c, w') ∧
    Marshal (PC := wire.codec) w' c =
      Ok [x0a; x0b; x12; x09; x81; x80; x80; x50; x80; xfe; xff; xff; x0f].
Proof.
  eexists _, _. split; [vm_compute; reflexivity|].
  edestruct (decoded_reencodes (PC := wire.codec) codec_laws
               [x0a; x0b; x12; x09; x81; x80; x80; x50; x80; xfe; xff; xff; x0f]
               sample.world) as [_ H];
    [vm_compute; reflexivity|vm_compute; reflexivity|reflexivity| | |].
  - split; [vm_compute; discriminate|exact I].
  - exact I.
  - rewrite H. vm_compute. reflexivity.
Defined.

(** ** The JSON form *)

Section JsonForm.
Context {PC : ProtoCodec} {CR : Crypto} {CO : Collaborators} {PR : Printing}.

(** X21.  [marshalJSON] returns no error: when [Fingerprint] returns
    one, the map holds the empty string for the fingerprint, and
    otherwise the fingerprint.  [String] returns no error either.  The
    public key and the signature of the map are hexadecimal strings
    that decode to the bytes of the certificate, and the version is
    1. *)
Theorem marshalJSON_fingerprint (w : World) (c : certificateV1) :
  (∀ e, marshalJSON w c ≠ Err e) ∧
  (∀ e, certificateV1_String w c ≠ Err e) ∧
  (∀ j, marshalJSON w c = Ok j →
     (j_fingerprint j = EmptyString ∧ (∃ e, Fingerprint w c = Err e) ∨
      Fingerprint w c = Ok (j_fingerprint j)) ∧
     j_version j = 1 ∧
     DecodeString (j_publicKey (j_details j)) =
       (loadBytes w (publicKey (details c)), true) ∧
     DecodeString (j_signature j) = (loadBytes w (signature c), true)).
Proof.
  unfold certificateV1_String, marshalJSON.
  destruct (Fingerprint w c) as [fp|e|msg]; cbn [mbind result_bind].
  - split; [discriminate|]. split.
    { intros e. destruct (json_MarshalIndent _ _ _); discriminate. }
    intros j [= <-]. cbn [j_fingerprint j_version j_details j_publicKey j_signature].
    unfold Sprintf_x. rewrite !DecodeString_EncodeToString.
    split; [right; reflexivity|]. split; [reflexivity|]. split; reflexivity.
  - split; [discriminate|]. split.
    { intros e'. destruct (json_MarshalIndent _ _ _); discriminate. }
    intros j [= <-]. cbn [j_fingerprint j_version j_details j_publicKey j_signature].
    unfold Sprintf_x. rewrite !DecodeString_EncodeToString.
    split; [left; eauto|]. split; [reflexivity|]. split; reflexivity.
  - split; [discriminate|]. split; [discriminate|]. discriminate.
Qed.

Lemma Fingerprint_panics w c :
  ¬ (Forall encodable (loadPrefixes w (networks (details c))) ∧
     Forall encodable (loadPrefixes w (unsafeNetworks (details c)))) →
  ∃ msg, Fingerprint w c = Panic msg.
Proof.
  intros H. unfold Fingerprint, Marshal, getRawDetails.
  pose proof (appendNetworks_encodable (loadPrefixes w (networks (details c))) []) as HN.
  pose proof (appendNetworks_encodable (loadPrefixes w (unsafeNetworks (details c))) [])
    as HU.
  pose proof (appendNetworks_not_Err (loadPrefixes w (networks (details c))) []) as EN.
  pose proof (appendNetworks_not_Err (loadPrefixes w (unsafeNetworks (details c))) [])
    as EU.
  destruct (appendNetworks [] (loadPrefixes w (networks (details c)))) as [ips|e|msg];
    cbn [mbind result_bind].
  2: { exfalso. eapply EN. reflexivity. }
  2: { eauto. }
  destruct (appendNetworks [] (loadPrefixes w (unsafeNetworks (details c))))
    as [subnets|e|msg]; cbn [mbind result_bind].
  2: { exfalso. eapply EU. reflexivity. }
  2: { eauto. }
  exfalso. apply H. split; [apply HN|apply HU]; eauto.
Qed.

(** X22.  When a network or an unsafe network of the certificate is
    not a prefix [getRawDetails] can flatten (of an IPv6 address that
    is not IPv4-mapped, say), [marshalJSON] panics in computing the
    fingerprint, and [MarshalJSON] and [String] with it. *)
Theorem String_panics (w : World) (c : certificateV1) :
  ¬ (Forall encodable (loadPrefixes w (networks (details c))) ∧
     Forall encodable (loadPrefixes w (unsafeNetworks (details c)))) →
  ∃ msg, marshalJSON w c = Panic msg ∧ MarshalJSON w c = Panic msg ∧
         certificateV1_String w c = Panic msg.
Proof.
  intros H. destruct (Fingerprint_panics w c H) as [msg Hf].
  exists msg. unfold certificateV1_String, MarshalJSON, marshalJSON. rewrite Hf. auto.
Qed.

End JsonForm.

Lemma marshalJSON_fingerprint_witness :
  ∃ j, marshalJSON (PC := wire.codec) (CR := standin.crypto) (PR := standin_printing)
         sample.world sample.badname_cert = Ok j ∧
       j_fingerprint j = EmptyString ∧
       DecodeString (j_signature j) = ([x01; x02], true).
Proof.
  eexists. split; [vm_compute; reflexivity|].
  edestruct (marshalJSON_fingerprint (PC := wire.codec) (CR := standin.crypto)
               (PR := standin_printing) sample.world sample.badname_cert)
    as (_ & _ & H).
  edestruct H as (_ & _ & _ & Hs); [vm_compute; reflexivity|].
  split; [reflexivity|exact Hs].
Defined.

Lemma String_panics_witness :
  ∃ msg, certificateV1_String (PC := wire.codec) (CR := standin.crypto)
           (PR := standin_printing) sample.world sample.v6_cert = Panic msg.
Proof.
  edestruct (String_panics (PC := wire.codec) (CR := standin.crypto)
               (PR := standin_printing) sample.world sample.v6_cert)
    as (msg & _ & _ & H); [|exists msg; exact H].
  intros [H _].
  match type of H with
  | Forall _ ?l => let l' := eval vm_compute in l in change l with l' in H
  end.
  inversion H as [|? ? _ H2]. inversion H2 as [|? ? H3 _].
  destruct H3 as [[E|E] _]; vm_compute in E; discriminate.
Defined.
